(** * dask-mongo: the connection cache, the partition planner and the write fan-out

    A shallow embedding of [dask_mongo/core.py].  Python values are an
    inductive type, the interpreter state touched by the module (the
    [lru_cache] of [_cache_inner], the [atexit] registry, the heap of
    document objects, the collections of the server) is a record threaded
    through a state-and-exception monad. *)

From Stdlib Require Import ZArith QArith Bool Lia.
From stdpp Require Import gmap strings list sorting.

Set Warnings "-register-all".

Close Scope Q_scope.
Close Scope Z_scope.

(** ** Python exceptions and the state-and-exception monad *)

Inductive pyexc : Type :=
| StopIteration
| ZeroDivisionError
| TypeError
| UnboundLocalError
| ReferenceError
| OperationFailure
| BulkWriteError.

Inductive result (A : Type) : Type :=
| Ok (a : A)
| Raise (e : pyexc).
Arguments Ok {A} a.
Arguments Raise {A} e.

(** ** Python values *)

(** A finite [float] denotes a rational; [bool], [int] and [float] compare by
    numeric value.

    The value of an [_id].  The code annotates it [ObjectId] and checks
    nothing: the server takes any value it can order.  Identifiers are
    modelled by integers, in the order the server sorts them by.  An
    [ObjectId] is its 12 bytes read as a big-endian number, never zero;
    [0] is a falsy identifier ([0], the empty string, [False]), every other
    integer a truthy one, which may sort below it or above it. *)
Definition ObjectId : Type := Z.

(** [bool(i)] of an identifier. *)
Definition truthy (i : ObjectId) : bool := negb (Z.eqb i 0).

Inductive pyval : Type :=
| PNone
| PBool (b : bool)
| PInt (z : Z)
| PFloat (q : Q)
| PStr (s : string)
| PObjectId (o : ObjectId)
| PList (l : list pyval)
| PTuple (l : list pyval)
| PDict (items : list (pyval * pyval)).

Inductive pytype : Type :=
| TNoneType | TBool | TInt | TFloat | TStr | TObjectId | TList | TTuple | TDict
| TFrozenKwargs.

Definition type_of (v : pyval) : pytype :=
  match v with
  | PNone => TNoneType
  | PBool _ => TBool
  | PInt _ => TInt
  | PFloat _ => TFloat
  | PStr _ => TStr
  | PObjectId _ => TObjectId
  | PList _ => TList
  | PTuple _ => TTuple
  | PDict _ => TDict
  end.

Definition pytype_eqb (a b : pytype) : bool :=
  match a, b with
  | TNoneType, TNoneType | TBool, TBool | TInt, TInt | TFloat, TFloat
  | TStr, TStr | TObjectId, TObjectId | TList, TList | TTuple, TTuple
  | TDict, TDict | TFrozenKwargs, TFrozenKwargs => true
  | _, _ => false
  end.

(** The numeric value of a number, [None] for everything else. *)
Definition num_value (v : pyval) : option Q :=
  match v with
  | PBool b => Some (inject_Z (if b then 1 else 0)%Z)
  | PInt z => Some (inject_Z z)
  | PFloat q => Some q
  | _ => None
  end.

(** Element-wise comparison of two sequences. *)
Section seq_eqb.
Context {A B : Type} (eqb : A -> B -> bool).

Fixpoint seq_eqb (l : list A) (m : list B) {struct l} : bool :=
  match l, m with
  | [], [] => true
  | x :: l', y :: m' => eqb x y && seq_eqb l' m'
  | _, _ => false
  end.
End seq_eqb.

(** [==] on Python values.  Sequences compare element by element and a list
    never equals a tuple; dicts compare as mappings: same size, and every key
    of the left one is bound in the right one to an equal value. *)
Fixpoint py_eq (a b : pyval) {struct a} : bool :=
  match a with
  | PNone => match b with PNone => true | _ => false end
  | PBool _ | PInt _ | PFloat _ =>
      match num_value a, num_value b with
      | Some x, Some y => Qeq_bool x y
      | _, _ => false
      end
  | PStr s => match b with PStr t => String.eqb s t | _ => false end
  | PObjectId o => match b with PObjectId p => Z.eqb o p | _ => false end
  | PList l => match b with PList m => seq_eqb py_eq l m | _ => false end
  | PTuple l => match b with PTuple m => seq_eqb py_eq l m | _ => false end
  | PDict items =>
      match b with
      | PDict others =>
          Nat.eqb (length items) (length others) &&
          forallb
            (fun kv =>
               match find (fun kv' => py_eq (fst kv) (fst kv')) others with
               | Some kv' => py_eq (snd kv) (snd kv')
               | None => false
               end)
            items
      | _ => false
      end
  end.

(** ** The interpreter and server state *)

(** [dict[str, Any]]: the items of a dict in insertion order, keys unique. *)
Definition kwargs : Type := list (string * pyval).

(** The entries of a document other than [_id]. *)
Definition pydoc : Type := list (string * pyval).

(** A document as the server stores it: its [_id] and the other fields. *)
Record stored_doc : Type := StoredDoc { doc_id : ObjectId; doc_body : pydoc }.

(** A document object on the heap: its [_id] entry, absent until one is
    assigned, and its other entries. *)
Record pydoc_obj : Type := PyDoc { py_id : option ObjectId; py_fields : pydoc }.

(** Clients are named by a handle and document objects by an address, both
    natural numbers. *)
Abbreviation handle := nat (only parsing).
Abbreviation loc := nat (only parsing).

(** A [MongoClient] object: the options it was opened with and how many
    times [close] has been called on it. *)
Record MongoClient : Type :=
  Client { client_kwargs : kwargs; close_calls : nat }.

(** The callables that reach [atexit]: the bound method [client.close] and
    a [weakref.WeakMethod] around a bound method. *)
Inductive pycallable : Type :=
| MongoClient_close (h : handle)
| WeakMethod (referent : pycallable).

(** The key [lru_cache] builds for a call with one positional argument when
    [typed=True]: the argument followed by its type. *)
Definition cache_key : Type := kwargs * pytype.

Record world : Type := World {
  lru : list (cache_key * handle);      (* cache of [_cache_inner], most recently used first *)
  clients : list MongoClient;           (* every client constructed, by handle *)
  exit_hooks : list pycallable;         (* [atexit] registry, in registration order *)
  heap : list pydoc_obj;                    (* document objects, by address *)
  colls : gmap (string * string) (list stored_doc);
                                        (* server: (database, collection) to documents, in natural order *)
  insert_many_calls : list (string * string * list pydoc_obj);
                                        (* every [insert_many] call issued, oldest first *)
  scheduler : nat -> nat
                                        (* dask: which of the tasks still to run is started at each step *)
}.

(** Nothing opened, stored or called yet; the scheduler is the one that
    starts the tasks in the order of the graph. *)
Definition empty_world : world :=
  World [] [] [] [] ∅ [] (fun _ => 0).

Definition set_lru (f : list (cache_key * handle) -> list (cache_key * handle)) (w : world) : world :=
  World (f (lru w)) (clients w) (exit_hooks w) (heap w) (colls w) (insert_many_calls w) (scheduler w).
Definition set_clients (f : list MongoClient -> list MongoClient) (w : world) : world :=
  World (lru w) (f (clients w)) (exit_hooks w) (heap w) (colls w) (insert_many_calls w) (scheduler w).
Definition set_exit_hooks (f : list pycallable -> list pycallable) (w : world) : world :=
  World (lru w) (clients w) (f (exit_hooks w)) (heap w) (colls w) (insert_many_calls w) (scheduler w).
Definition set_heap (f : list pydoc_obj -> list pydoc_obj) (w : world) : world :=
  World (lru w) (clients w) (exit_hooks w) (f (heap w)) (colls w) (insert_many_calls w) (scheduler w).
Definition set_colls (f : gmap (string * string) (list stored_doc) -> gmap (string * string) (list stored_doc))
    (w : world) : world :=
  World (lru w) (clients w) (exit_hooks w) (heap w) (f (colls w)) (insert_many_calls w) (scheduler w).
Definition set_insert_many_calls
    (f : list (string * string * list pydoc_obj) -> list (string * string * list pydoc_obj)) (w : world) : world :=
  World (lru w) (clients w) (exit_hooks w) (heap w) (colls w) (f (insert_many_calls w)) (scheduler w).

(** Computations read and write the state and may raise; the state reached
    when an exception is raised is kept. *)
Definition M (A : Type) : Type := world -> result A * world.

#[global] Instance M_ret : MRet M := fun A a w => (Ok a, w).
#[global] Instance M_bind : MBind M := fun A B f m w =>
  match m w with
  | (Ok a, w') => f a w'
  | (Raise e, w') => (Raise e, w')
  end.

Definition raise {A : Type} (e : pyexc) : M A := fun w => (Raise e, w).
Definition gets {A : Type} (f : world -> A) : M A := fun w => (Ok (f w), w).
Definition modify (f : world -> world) : M unit := fun w => (Ok tt, f w).
Definition lift {A : Type} (r : result A) : M A := fun w => (r, w).

(** Runs [f] on the elements of [l] from left to right. *)
Fixpoint mapM {A B : Type} (f : A -> M B) (l : list A) : M (list B) :=
  match l with
  | [] => mret []
  | x :: l' => y ← f x; ys ← mapM f l'; mret (y :: ys)
  end.

(** ** Connection cache *)

Definition _CACHE_SIZE : nat := 16.

Fixpoint _recursive_tupling (item : pyval) : pyval :=
  match item with
  | PList l => PTuple (map _recursive_tupling l)
  | PDict items =>
      PTuple (map (fun kv => PTuple [_recursive_tupling (fst kv); _recursive_tupling (snd kv)]) items)
  | _ => item
  end.

(** [hash(v)] raises [TypeError] for a list, a dict and a tuple that holds
    one. *)
Fixpoint hashable (v : pyval) : bool :=
  match v with
  | PList _ | PDict _ => false
  | PTuple l => forallb hashable l
  | _ => true
  end.

(** Hash codes are modelled by the hashed value: two hashable values have
    the same hash exactly when they compare equal, so the model has no
    collisions.  A frozenset is the list of its elements, compared as a set. *)
Definition frozenset : Type := list pyval.

Definition frozenset_eqb (a b : frozenset) : bool :=
  forallb (fun x => existsb (py_eq x) b) a && forallb (fun y => existsb (py_eq y) a) b.

(** [_FrozenKwargs.__hash__]: the frozenset whose hash is returned. *)
Definition FrozenKwargs_hash (self : kwargs) : result frozenset :=
  let elems :=
    map (fun kv => PTuple [_recursive_tupling (PStr (fst kv)); _recursive_tupling (snd kv)]) self in
  if forallb hashable elems then Ok elems else Raise TypeError.

Definition as_dict (d : kwargs) : pyval :=
  PDict (map (fun kv => (PStr (fst kv), snd kv)) d).

(** [_FrozenKwargs] inherits [dict.__eq__]. *)
Definition FrozenKwargs_eq (self other : kwargs) : bool :=
  py_eq (as_dict self) (as_dict other).

Definition make_key (arg : kwargs) : cache_key := (arg, TFrozenKwargs).

(** The dict lookup of the cache: same hash, then [==] on the key tuples. *)
Definition key_matches (stored probe : cache_key) : bool :=
  match FrozenKwargs_hash (fst stored), FrozenKwargs_hash (fst probe) with
  | Ok hs, Ok hp =>
      frozenset_eqb hs hp
      && FrozenKwargs_eq (fst stored) (fst probe)
      && pytype_eqb (snd stored) (snd probe)
  | _, _ => false
  end.

(** Takes the entry for [key] out of the cache, if there is one. *)
Fixpoint lru_take (key : cache_key) (es : list (cache_key * handle))
    : option ((cache_key * handle) * list (cache_key * handle)) :=
  match es with
  | [] => None
  | e :: es' =>
      if key_matches (fst e) key then Some (e, es')
      else match lru_take key es' with
           | Some (x, rest) => Some (x, e :: rest)
           | None => None
           end
  end.

(** The body of [_cache_inner]: [MongoClient(appname=appname, **kwargs)]
    raises [TypeError] when [kwargs] binds [appname] a second time, and the
    constructor opens no connection.  What pymongo makes of the options
    themselves is not modelled: it refuses option names it does not know
    and values of the wrong type with errors of its own, and here every
    other option is taken to be one it accepts. *)
Definition _cache_inner_wrapped (kw : kwargs) : M handle :=
  if existsb (String.eqb "appname") (map fst kw) then raise TypeError
  else
    client ← gets (fun w => length (clients w));
    _ ← modify (set_clients (fun cs => cs ++ [Client kw 0]));
    _ ← modify (set_exit_hooks (fun hs => hs ++ [WeakMethod (MongoClient_close client)]));
    mret client.

(** [_cache_inner], that is [lru_cache(_CACHE_SIZE, typed=True)] around the
    body: a hit moves the entry to the front, a miss calls the body, stores
    the result and drops the least recently used entry of a full cache. *)
Definition _cache_inner (kw : kwargs) : M handle :=
  _ ← lift (FrozenKwargs_hash kw);
  es ← gets lru;
  match lru_take (make_key kw) es with
  | Some (e, rest) =>
      _ ← modify (set_lru (fun _ => e :: rest));
      mret (snd e)
  | None =>
      client ← _cache_inner_wrapped kw;
      _ ← modify (set_lru (fun es =>
             (make_key kw, client)
               :: (if Nat.leb _CACHE_SIZE (length es) then removelast es else es)));
      mret client
  end.

Definition _clear_cache : M unit := modify (set_lru (fun _ => [])).

Definition _get_client (kw : kwargs) : M handle := _cache_inner kw.

(** [client.close()]. *)
Definition close (h : handle) : M unit :=
  modify (set_clients (fun cs =>
    match cs !! h with
    | Some c => <[h := Client (client_kwargs c) (S (close_calls c))]> cs
    | None => cs
    end)).

(** Calling a callable with no arguments.  A bound [close] closes its
    client.  A [WeakMethod] called returns its referent, the bound method,
    or [None] once the client is no longer referenced; it does not call the
    method. *)
Fixpoint referent_handle (f : pycallable) : handle :=
  match f with
  | MongoClient_close h => h
  | WeakMethod g => referent_handle g
  end.

Definition call (f : pycallable) : M (option pycallable) :=
  match f with
  | MongoClient_close h => _ ← close h; mret None
  | WeakMethod g =>
      es ← gets lru;
      mret (if existsb (Nat.eqb (referent_handle g)) (map snd es) then Some g else None)
  end.

(** [atexit._run_exitfuncs]: the registered callables, last registered
    first, their results dropped. *)
Definition run_exitfuncs : M unit :=
  hs ← gets exit_hooks;
  _ ← mapM call (rev hs);
  mret tt.

(** ** The driver: what [pymongo] and the server do for the calls of the module *)

(** A match filter, by what it accepts; [{}] accepts every document. *)
Definition query : Type := stored_doc -> bool.
Definition match_all : query := fun _ => true.

Definition id_le (a b : stored_doc) : Prop := (doc_id a <= doc_id b)%Z.
#[global] Instance id_le_dec : RelDecision id_le := fun a b => Z.le_dec (doc_id a) (doc_id b).

(** [mongo_client[database][collection]]: a collection that was never
    written to reads as empty. *)
Definition coll_documents (database collection : string) : M (list stored_doc) :=
  gets (fun w => default [] (colls w !! (database, collection))).

(** [next(it)]. *)
Definition next {A : Type} (it : list A) : result A :=
  match it with
  | [] => Raise StopIteration
  | x :: _ => Ok x
  end.

(** [coll.aggregate([{"$match": match}, {"$count": "count"}])]: one result
    document holding the count, and none at all when nothing is matched. *)
Definition aggregate_count (database collection : string) (match_ : query) : M (list Z) :=
  docs ← coll_documents database collection;
  match List.filter match_ docs with
  | [] => mret []
  | matched => mret [Z.of_nat (length matched)]
  end.

(** [coll.estimated_document_count()]: the size of the collection, whatever
    the filter.  The estimate the server keeps is taken to be exact. *)
Definition estimated_document_count (database collection : string) : M Z :=
  docs ← coll_documents database collection;
  mret (Z.of_nat (length docs)).

(** [coll.find(match, {"_id": 1}).sort("_id", 1)]. *)
Definition find_sorted (database collection : string) (match_ : query) : M (list stored_doc) :=
  docs ← coll_documents database collection;
  mret (merge_sort id_le (List.filter match_ docs)).

(** [coll.find_one(sort=[("_id", 1)])]. *)
Definition find_one_sorted (database collection : string) : M (option stored_doc) :=
  docs ← coll_documents database collection;
  mret (head (merge_sort id_le docs)).

(** One partition descriptor: [{"_id": {"min": ..., "max": ...}}]. *)
Record partition : Type := Partition { part_min : ObjectId; part_max : ObjectId }.

(** [$bucketAuto] grouped by [_id]: the documents sorted by [_id] are cut
    into consecutive buckets, at most [buckets] of them, of about
    [n / buckets] documents, the last one taking what is left. *)
Fixpoint bucket_chunks (size buckets : nat) (l : list stored_doc) : list (list stored_doc) :=
  match buckets with
  | 0 => []
  | S b =>
      match l with
      | [] => []
      | _ :: _ =>
          if Nat.eqb b 0 then [l]
          else firstn size l :: bucket_chunks size b (skipn size l)
      end
  end.

(** The bounds reported for the buckets: [min] is the lowest [_id] of the
    bucket, [max] the lowest [_id] of the next bucket, and for the last
    bucket its highest [_id]. *)
Fixpoint bucket_bounds (chunks : list (list stored_doc)) : list partition :=
  match chunks with
  | [] => []
  | c :: rest =>
      match c with
      | [] => bucket_bounds rest
      | d :: c' =>
          Partition (doc_id d)
            (match rest with
             | (d' :: _) :: _ => doc_id d'
             | _ => doc_id (List.last c' d)
             end)
          :: bucket_bounds rest
      end
  end.

Definition approx_bucket_size (n buckets : nat) : nat :=
  Nat.max 1 ((2 * n + buckets) / (2 * buckets)).

(** [coll.aggregate([{"$match": match}, {"$bucketAuto": {"groupBy": "$_id",
    "buckets": npartitions}}], allowDiskUse=True)]; the server rejects a
    bucket count that is not positive. *)
Definition aggregate_bucketAuto (database collection : string) (match_ : query) (buckets : Z)
    : M (list partition) :=
  docs ← coll_documents database collection;
  if (buckets <=? 0)%Z then raise OperationFailure
  else
    let sorted := merge_sort id_le (List.filter match_ docs) in
    let k := Z.to_nat buckets in
    mret (bucket_bounds (bucket_chunks (approx_bucket_size (length sorted) k) k sorted)).

(** [ObjectId()]: an identifier not in [used]. *)
Definition fresh_ObjectId (used : list ObjectId) : ObjectId :=
  Z.succ (foldr Z.max 0%Z used).

(** The first phase of [insert_many]: every document without an [_id] gets
    a new one written into it, in place. *)
Fixpoint assign_ids (used : list ObjectId) (documents : list loc) : M (list stored_doc) :=
  match documents with
  | [] => mret []
  | l :: documents' =>
      h ← gets heap;
      match h !! l with
      | None => raise ReferenceError
      | Some d =>
          match py_id d with
          | Some i =>
              rest ← assign_ids used documents';
              mret (StoredDoc i (py_fields d) :: rest)
          | None =>
              let i := fresh_ObjectId used in
              _ ← modify (set_heap (fun h => <[l := PyDoc (Some i) (py_fields d)]> h));
              rest ← assign_ids (i :: used) documents';
              mret (StoredDoc i (py_fields d) :: rest)
          end
      end
  end.

(** The second phase, an ordered bulk write: the documents are inserted one
    by one and the first duplicate [_id] stops the write. *)
Fixpoint bulk_insert (database collection : string) (ops : list stored_doc) : M unit :=
  match ops with
  | [] => mret tt
  | d :: ops' =>
      docs ← coll_documents database collection;
      if existsb (fun x => Z.eqb (doc_id x) (doc_id d)) docs then raise BulkWriteError
      else
        _ ← modify (set_colls (fun c => <[(database, collection) := docs ++ [d]]> c));
        bulk_insert database collection ops'
  end.

Definition explicit_ids (h : list pydoc_obj) (documents : list loc) : list ObjectId :=
  omap (fun l => h !! l ≫= py_id) documents.

(** [coll.insert_many(documents)]; an empty list is rejected with
    [TypeError]. *)
Definition insert_many (database collection : string) (documents : list loc) : M unit :=
  h ← gets heap;
  _ ← modify (set_insert_many_calls (fun cs =>
         cs ++ [(database, collection, omap (fun l => h !! l) documents)]));
  match documents with
  | [] => raise TypeError
  | _ :: _ =>
      docs ← coll_documents database collection;
      ops ← assign_ids (map doc_id docs ++ explicit_ids h documents) documents;
      bulk_insert database collection ops
  end.

(** ** [core.py]: the write fan-out *)

(** [copy(v)] of a document: a new object with the same entries.  An
    address that names no object does not occur in Python; there the model
    raises [ReferenceError]. *)
Definition copy (v : loc) : M loc :=
  h ← gets heap;
  match h !! v with
  | None => raise ReferenceError
  | Some d =>
      _ ← modify (set_heap (fun h => h ++ [d]));
      mret (length h)
  end.

Definition write_mongo (values : list loc) (connection_kwargs : kwargs)
    (database collection : string) : M unit :=
  mongo_client ← _get_client connection_kwargs;
  values ← mapM copy values;
  insert_many database collection values.

(** What [to_mongo] returns: [None] after computing, or the graph to be
    computed later, one [write_mongo] call per partition of the bag. *)
Record write_task : Type := WriteTask {
  wt_values : list loc;
  wt_kwargs : kwargs;
  wt_database : string;
  wt_collection : string
}.

Definition run_write_task (t : write_task) : M unit :=
  write_mongo (wt_values t) (wt_kwargs t) (wt_database t) (wt_collection t).

(** The order in which dask starts the tasks of a graph that do not depend
    on each other is the scheduler's: at each step it takes one of the tasks
    still to run, the one at position [choose step] (modulo their number). *)
Fixpoint scheduled {A : Type} (choose : nat -> nat) (step n : nat) (l : list A) : list A :=
  match n with
  | 0 => []
  | S n' =>
      let i := choose step mod length l in
      match l !! i with
      | Some x => x :: scheduled choose (S step) n' (delete i l)
      | None => []
      end
  end.

(** [checkpoint(partials).compute()]: the partitions are written in the
    order the scheduler takes them, by default on threads of the calling
    process, which share its cache and its objects; nothing is returned.
    The first exception ends the computation. *)
Definition compute_writes (partials : list write_task) : M unit :=
  choose ← gets scheduler;
  _ ← mapM run_write_task (scheduled choose 0 (length partials) partials);
  mret tt.

(** A bag is the list of its partitions, each a list of documents. *)
Definition to_mongo (bag : list (list loc)) (database collection : string)
    (connection_kwargs : option kwargs) (compute : bool) : M (option (list write_task)) :=
  let partials :=
    map (fun values => WriteTask values (default [] connection_kwargs) database collection) bag in
  if compute then _ ← compute_writes partials; mret None
  else mret (Some partials).

(** ** [core.py]: the partition fetcher and the read assembler *)

(** The second [$match] stage of [fetch_mongo]. *)
Definition match2 (id_min id_max : ObjectId) (include_last : bool) : query :=
  fun d =>
    (id_min <=? doc_id d)%Z
    && (if include_last then (doc_id d <=? id_max)%Z else (doc_id d <? id_max)%Z).

Definition fetch_mongo (connection_kwargs : kwargs) (database collection : string)
    (match_ : query) (id_min id_max : ObjectId) (include_last : bool) : M (list stored_doc) :=
  mongo_client ← _get_client connection_kwargs;
  docs ← coll_documents database collection;
  mret (List.filter (match2 id_min id_max include_last) (List.filter match_ docs)).

(** One entry of the graph: the arguments [fetch_mongo] will be called
    with.  The key of the entry is its position. *)
Record fetch_task : Type := FetchTask {
  ft_kwargs : kwargs;
  ft_database : string;
  ft_collection : string;
  ft_match : query;
  ft_id_min : ObjectId;
  ft_id_max : ObjectId;
  ft_include_last : bool
}.

(** The bag [read_mongo] returns: its graph and its number of partitions.
    The name of the graph, a digest of the arguments, plays no part in what
    the graph computes and is left out. *)
Record Bag : Type := MkBag { dsk : list fetch_task; npartitions : nat }.

Definition run_fetch_task (t : fetch_task) : M (list stored_doc) :=
  fetch_mongo (ft_kwargs t) (ft_database t) (ft_collection t) (ft_match t)
    (ft_id_min t) (ft_id_max t) (ft_include_last t).

(** A task run by a worker process, as the default scheduler of a bag
    does: the worker has the module state of a new process (nothing cached,
    no client, no exit hook) and its own copy of the objects.  What the task
    does to these stays with the worker; what it does to the server is
    there for everyone. *)
Definition in_worker {A : Type} (task : M A) : M A := fun w =>
  let '(r, w') :=
    task (World [] [] [] (heap w) (colls w) (insert_many_calls w) (scheduler w)) in
  (r, World (lru w) (clients w) (exit_hooks w) (heap w) (colls w') (insert_many_calls w')
        (scheduler w)).

(** [bag.compute()]: every task of the graph is run by a worker, and the
    partitions are put together in the order of the graph. *)
Definition compute_bag (b : Bag) : M (list stored_doc) :=
  parts ← mapM (fun t => in_worker (run_fetch_task t)) (dsk b);
  mret (concat parts).

(** [int(ceil(nrows / chunksize))] for a non-zero [chunksize].  The
    quotient is taken exactly, as the float division gives it for counts
    below 2^53. *)
Definition ceil_div (n c : Z) : Z := (- ((- n) / c))%Z.

(** The loop of the paginated scan.  [idx] counts the documents seen,
    [doc] is the loop variable, unbound before the first round.  The result
    is the state the loop ends in, by exhaustion of the cursor or by
    [break]. *)
Fixpoint paginate_loop (nrows chunksize idx : Z) (cursor : list stored_doc)
    (prev_id : ObjectId) (partitions_ids : list partition) (doc : option stored_doc)
    : ObjectId * list partition * option stored_doc :=
  match cursor with
  | [] => (prev_id, partitions_ids, doc)
  | d :: cursor' =>
      if (nrows <=? idx)%Z then (prev_id, partitions_ids, Some d)
      else if ((idx mod chunksize =? 0) && (0 <? idx))%Z then
        let current_id := doc_id d in
        paginate_loop nrows chunksize (idx + 1) cursor' current_id
          (partitions_ids ++ [Partition prev_id current_id]) (Some d)
      else
        paginate_loop nrows chunksize (idx + 1) cursor' prev_id partitions_ids (Some d)
  end.

Definition read_mongo (database collection : string) (chunksize : Z)
    (connection_kwargs : option kwargs) (match_ : option query)
    (use_estimated_count paginate_partition_ids : bool) : M Bag :=
  let connection_kwargs := default [] connection_kwargs in
  let match_ := default match_all match_ in
  mongo_client ← _get_client connection_kwargs;
  nrows ← (if use_estimated_count then estimated_document_count database collection
           else counts ← aggregate_count database collection match_; lift (next counts));
  npartitions ← (if (chunksize =? 0)%Z then raise ZeroDivisionError
                 else mret (ceil_div nrows chunksize));
  partitions_ids ←
    (if paginate_partition_ids then
       cursor ← find_sorted database collection match_;
       first ← find_one_sorted database collection;
       prev_id ← match first with
                 | None => raise TypeError
                 | Some d => mret (doc_id d)
                 end;
       let '(prev_id, partitions_ids, doc) :=
         paginate_loop nrows chunksize 0 cursor prev_id [] None in
       if truthy prev_id then
         match doc with
         | None => raise UnboundLocalError
         | Some d => mret (partitions_ids ++ [Partition prev_id (doc_id d)])
         end
       else mret partitions_ids
     else aggregate_bucketAuto database collection match_ npartitions);
  mret (MkBag
          (imap (fun i p =>
                   FetchTask connection_kwargs database collection match_
                     (part_min p) (part_max p)
                     (Z.eqb (Z.of_nat i) (Z.of_nat (length partitions_ids) - 1)))
                partitions_ids)
          (length partitions_ids)).

(** ** Notions used to state and prove the properties *)

(** A configuration the module passes on to the constructor: its hash is
    defined and it does not bind [appname].  What is stated below for such
    configurations is about options that pymongo accepts. *)
Definition valid_config (kw : kwargs) : bool :=
  match FrozenKwargs_hash kw with
  | Ok _ => negb (existsb (String.eqb "appname") (map fst kw))
  | Raise _ => false
  end.

(** The keys of a dict are pairwise different. *)
Fixpoint distinct_keys (ks : list pyval) : bool :=
  match ks with
  | [] => true
  | k :: ks' => forallb (fun k' => negb (py_eq k' k)) ks' && distinct_keys ks'
  end.

(** Values that Python can build: every dict in them has distinct keys. *)
Fixpoint wf_val (v : pyval) : bool :=
  match v with
  | PList l | PTuple l => forallb wf_val l
  | PDict items =>
      forallb (fun kv => wf_val (fst kv) && wf_val (snd kv)) items
      && distinct_keys (map fst items)
  | _ => true
  end.

Definition head_id (c : list stored_doc) : ObjectId :=
  match c with
  | [] => 0%Z
  | d :: _ => doc_id d
  end.

Definition last_id (c : list stored_doc) : ObjectId :=
  match c with
  | [] => 0%Z
  | d :: c' => doc_id (List.last c' d)
  end.

(** The documents of a sorted cursor grouped the way the paginated scan cuts
    them: [cur] is the group being filled, [room] what it can still take,
    [size] the size of a full group. *)
Fixpoint group (size room : nat) (cur l : list stored_doc) : list (list stored_doc) :=
  match l with
  | [] => [cur]
  | d :: l' =>
      match room with
      | 0 => cur :: group size (size - 1) [d] l'
      | S room' => group size room' (cur ++ [d]) l'
      end
  end.

(** The descriptors of consecutive groups: the first starts at [lo], every
    other at its lowest [_id]; each ends where the next starts, the last at
    its highest [_id]. *)
Fixpoint bounds_of (lo : ObjectId) (chunks : list (list stored_doc)) : list partition :=
  match chunks with
  | [] => []
  | c :: rest =>
      match rest with
      | [] => [Partition lo (last_id c)]
      | c' :: _ => Partition lo (head_id c') :: bounds_of (head_id c') rest
      end
  end.

(** Each descriptor with the [include_last] flag the read assembler gives
    it. *)
Fixpoint with_last (ps : list partition) : list (partition * bool) :=
  match ps with
  | [] => []
  | p :: ps' =>
      match ps' with
      | [] => [(p, true)]
      | _ :: _ => (p, false) :: with_last ps'
      end
  end.

Definition range_of (pb : partition * bool) : query :=
  match2 (part_min (fst pb)) (part_max (fst pb)) (snd pb).

Definition task_range (t : fetch_task) : query :=
  match2 (ft_id_min t) (ft_id_max t) (ft_include_last t).

(** In how many partitions of the graph a document falls. *)
Definition partitions_holding (b : Bag) (d : stored_doc) : nat :=
  length (List.filter (fun t => task_range t d) (dsk b)).

Definition collection_of (w : world) (database collection : string) : list stored_doc :=
  default [] (colls w !! (database, collection)).

(** Configurations used in the examples. *)
Definition port_int : kwargs := [("port", PInt 27017)].
Definition port_float : kwargs := [("port", PFloat (inject_Z 27017))].

(** Runs [_get_client] on each configuration in turn. *)
Definition get_clients (kws : list kwargs) : M (list handle) := mapM _get_client kws.

Definition seventeen_configs : list kwargs :=
  map (fun i => [("port", PInt (Z.of_nat i))]) (seq 0 17).

(** A heap with one document that has no [_id] yet. *)
Definition one_document_world : world :=
  set_heap (fun _ => [PyDoc None [("a", PInt 1)]]) empty_world.

Definition hosts_list : kwargs := [("host", PList [PStr "a"; PStr "b"])].
Definition hosts_tuple : kwargs := [("host", PTuple [PStr "a"; PStr "b"])].
Definition host_then_port : kwargs := [("host", PStr "h"); ("port", PInt 27017)].
Definition port_then_host : kwargs := [("port", PInt 27017); ("host", PStr "h")].
Definition nested_x_y : kwargs :=
  [("opts", PDict [(PStr "x", PInt 1); (PStr "y", PInt 2)])].
Definition nested_y_x : kwargs :=
  [("opts", PDict [(PStr "y", PInt 2); (PStr "x", PInt 1)])].

Definition id_lt (a b : stored_doc) : Prop := (doc_id a < doc_id b)%Z.

(** The graph entry the read assembler builds for a descriptor. *)
Definition task_of (kw : kwargs) (database collection : string) (mq : query)
    (pb : partition * bool) : fetch_task :=
  FetchTask kw database collection mq (part_min (fst pb)) (part_max (fst pb)) (snd pb).

(** A server with five documents in collection [c] of database [db]. *)
Definition five_documents : list stored_doc :=
  map (fun i => StoredDoc i []) [5; 3; 9; 1; 7]%Z.

Definition five_documents_world : world :=
  set_colls (fun _ => {[ ("db", "c") := five_documents ]}) empty_world.

(** The documents [insert_many] stores for documents without [_id]: each
    gets the next new identifier. *)
Fixpoint fresh_docs (used : list ObjectId) (ds : list pydoc_obj) : list stored_doc :=
  match ds with
  | [] => []
  | d :: ds' =>
      StoredDoc (fresh_ObjectId used) (py_fields d)
        :: fresh_docs (fresh_ObjectId used :: used) ds'
  end.

(** A callable that is a weak reference. *)
Definition weak_hook (f : pycallable) : Prop := exists g, f = WeakMethod g.

(** A filter that no document satisfies. *)
Definition match_none : query := fun _ => false.

(** Values built from scalars, lists and mappings, without any tuple. *)
Fixpoint tuple_free (v : pyval) : bool :=
  match v with
  | PTuple _ => false
  | PList l => forallb tuple_free l
  | PDict items => forallb (fun kv => tuple_free (fst kv) && tuple_free (snd kv)) items
  | _ => true
  end.

(** A configuration with a list inside a tuple, and one with lists and
    mappings nested in each other. *)
Definition list_in_tuple : kwargs := [("hosts", PTuple [PList [PStr "a"]])].
Definition nested_lists : kwargs :=
  [("hosts", PList [PList [PStr "a"; PInt 1]; PDict [(PStr "tls", PList [PBool true])]])].

(** A computation that leaves the state as it finds it. *)
Definition reads_only {A : Type} (m : M A) : Prop := forall w, snd (m w) = w.

(** The graph is a chain: every task but the last has a non-empty range
    with the upper bound excluded, ending where the next starts; the last
    has its upper bound included. *)
Fixpoint contiguous (ts : list fetch_task) : bool :=
  match ts with
  | [] => true
  | t :: rest =>
      match rest with
      | [] => ft_include_last t && (ft_id_min t <=? ft_id_max t)%Z
      | t' :: _ =>
          negb (ft_include_last t)
          && (ft_id_min t <? ft_id_max t)%Z
          && (ft_id_max t =? ft_id_min t')%Z
          && contiguous rest
      end
  end.

(** The row count [read_mongo] works with: the size of the collection when
    estimated, the number of matched documents otherwise, and no count at
    all when nothing is matched. *)
Definition counted_rows (est : bool) (mq : query) (docs : list stored_doc) : result Z :=
  if est then Ok (Z.of_nat (length docs))
  else match List.filter mq docs with
       | [] => Raise StopIteration
       | matched => Ok (Z.of_nat (length matched))
       end.

(** What the first phase of [insert_many] makes of the documents it is
    given: a document with an [_id] keeps it, one without gets the next new
    identifier. *)
Fixpoint assigned_docs (used : list ObjectId) (ds : list pydoc_obj) : list stored_doc :=
  match ds with
  | [] => []
  | d :: ds' =>
      match py_id d with
      | Some i => StoredDoc i (py_fields d) :: assigned_docs used ds'
      | None =>
          StoredDoc (fresh_ObjectId used) (py_fields d)
            :: assigned_docs (fresh_ObjectId used :: used) ds'
      end
  end.

(** A heap with three documents, the last one with the [_id] of a stored
    document, next to the five stored documents. *)
Definition three_values_world : world :=
  set_heap (fun _ => [PyDoc None [("a", PInt 1)]; PyDoc None [("a", PInt 2)];
                      PyDoc (Some 5%Z) [("a", PInt 3)]])
    five_documents_world.

(** What is left of the descriptors [bs] of the groups: the paginated scan
    appends the last one only when the identifier it starts at is truthy
    ([if prev_id:]); the bucket strategy returns them all. *)
Definition planned (pag : bool) (bs : list partition) : list partition :=
  if pag && negb (truthy (part_min (List.last bs (Partition 0%Z 0%Z)))) then removelast bs
  else bs.

(** The same heap and server, under a scheduler that starts with the
    second of the tasks still to run whenever there is one. *)
Definition last_first_world : world :=
  World [] [] [] (heap three_values_world) (colls three_values_world) [] (fun _ => 1).

(** The lowest [_id] of a collection: what
    [coll.find_one(sort=[("_id", 1)])["_id"]] gives when there is a
    document. *)
Definition lowest_id (docs : list stored_doc) : ObjectId :=
  head_id (merge_sort id_le docs).

(** A server with two documents, the lower one with the falsy [_id] 0. *)
Definition zero_one_world : world :=
  set_colls (fun _ => {[ ("db", "c") := [StoredDoc 0%Z []; StoredDoc 1%Z []] ]}) empty_world.

(** A server with four documents whose identifiers go from below zero to
    above it. *)
Definition minus_two_to_one_world : world :=
  set_colls (fun _ => {[ ("db", "c") := map (fun i => StoredDoc i []) [-2; -1; 0; 1]%Z ]})
    empty_world.

(* ------------------------------------------------------------------ *)
(** * Properties *)

(** ** The monad and the connection cache *)

Ltac unfold_M := unfold mbind, M_bind, mret, M_ret, raise, gets, modify, lift in *.

Lemma get_client_frame (kw : kwargs) (w : world) :
  colls (snd (_get_client kw w)) = colls w
  /\ heap (snd (_get_client kw w)) = heap w
  /\ insert_many_calls (snd (_get_client kw w)) = insert_many_calls w.
Proof.
  unfold _get_client, _cache_inner, _cache_inner_wrapped. unfold_M.
  destruct (FrozenKwargs_hash kw); simpl; [|done].
  destruct (lru_take (make_key kw) (lru w)) as [[e rest]|]; simpl; [done|].
  destruct (existsb _ _); simpl; done.
Qed.

Lemma get_client_ok (kw : kwargs) (w : world) :
  valid_config kw = true ->
  exists h w', _get_client kw w = (Ok h, w').
Proof.
  unfold valid_config, _get_client, _cache_inner, _cache_inner_wrapped. unfold_M.
  destruct (FrozenKwargs_hash kw); simpl; [|done].
  intros Happ. apply negb_true_iff in Happ.
  destruct (lru_take (make_key kw) (lru w)) as [[e rest]|]; simpl; [eauto|].
  rewrite Happ. simpl. eauto.
Qed.

Lemma get_client_run (kw : kwargs) (w : world) :
  valid_config kw = true ->
  exists h w', _get_client kw w = (Ok h, w')
    /\ colls w' = colls w /\ heap w' = heap w
    /\ insert_many_calls w' = insert_many_calls w.
Proof.
  intros Hv. destruct (get_client_ok kw w Hv) as (h & w' & E).
  exists h, w'. split; [done|].
  pose proof (get_client_frame kw w) as F. rewrite E in F. exact F.
Qed.

(** ** The read assembler: errors *)

Lemma coll_documents_run (database collection : string) (w : world) :
  coll_documents database collection w = (Ok (collection_of w database collection), w).
Proof. reflexivity. Qed.

Lemma collection_of_colls (w w' : world) (database collection : string) :
  colls w' = colls w ->
  collection_of w' database collection = collection_of w database collection.
Proof. unfold collection_of. by intros ->. Qed.

(** C10: with [chunksize = 0] [read_mongo] never returns a collection; once
    the rows are counted, what it raises is the [ZeroDivisionError] of the
    unguarded [nrows / chunksize]. *)
Theorem read_mongo_chunksize_zero_raises
    (database collection : string) (kw : option kwargs) (match_ : option query)
    (est pag : bool) (w : world) :
  (exists e, fst (read_mongo database collection 0 kw match_ est pag w) = Raise e)
  /\ (valid_config (default [] kw) = true ->
      est = true
      \/ List.filter (default match_all match_) (collection_of w database collection) <> [] ->
      fst (read_mongo database collection 0 kw match_ est pag w) = Raise ZeroDivisionError).
Proof.
  split.
  - unfold read_mongo. unfold_M.
    destruct (_get_client (default [] kw) w) as [[h|e] w1]; simpl; [|eauto].
    destruct est; simpl.
    + unfold estimated_document_count. unfold_M. simpl. eauto.
    + unfold aggregate_count. unfold_M. simpl.
      destruct (List.filter _ _); simpl; eauto.
  - intros Hv Hrows.
    destruct (get_client_run _ w Hv) as (h & w1 & E & Hc & _).
    unfold read_mongo. unfold_M. rewrite E. simpl.
    destruct est; simpl.
    + reflexivity.
    + destruct Hrows as [|Hrows]; [done|].
      unfold aggregate_count. unfold_M. simpl.
      fold (collection_of w1 database collection).
      rewrite (collection_of_colls w w1 _ _ Hc).
      destruct (List.filter _ _); [done|]. reflexivity.
Qed.

Lemma read_mongo_chunksize_zero_witness :
  fst (read_mongo "db" "c" 0 None None true false empty_world) = Raise ZeroDivisionError.
Proof.
  apply (proj2 (read_mongo_chunksize_zero_raises "db" "c" None None true false empty_world)).
  - reflexivity.
  - left. reflexivity.
Defined.

(** With the exact count, a filter that matches no document makes
    [read_mongo] raise [StopIteration], whatever the chunk size and the
    strategy: the [$count] stage has no result document for [next]. *)
Lemma read_mongo_no_match_exact_count
    (database collection : string) (chunksize : Z) (kw : option kwargs)
    (match_ : option query) (pag : bool) (w : world) :
  valid_config (default [] kw) = true ->
  List.filter (default match_all match_) (collection_of w database collection) = [] ->
  fst (read_mongo database collection chunksize kw match_ false pag w) = Raise StopIteration.
Proof.
  intros Hv Hnone.
  destruct (get_client_run _ w Hv) as (h & w1 & E & Hc & _).
  unfold read_mongo. unfold_M. rewrite E. simpl.
  unfold aggregate_count. unfold_M. simpl.
  fold (collection_of w1 database collection).
  rewrite (collection_of_colls w w1 _ _ Hc), Hnone. reflexivity.
Qed.

(** C3 (the code departs from it): on a collection without documents the
    exact count has no result document, and [read_mongo] raises
    [StopIteration] under either strategy instead of returning a collection
    of zero partitions. *)
Theorem read_mongo_empty_raises_StopIteration (pag : bool) :
  fst (read_mongo "db" "c" 10 None None false pag empty_world) = Raise StopIteration.
Proof. destruct pag; reflexivity. Qed.

(** With the estimated count the empty collection is rejected later: by the
    server, asked for zero buckets, or by the subscript of the [None] that
    [find_one] returns. *)
Lemma read_mongo_empty_estimated_count_raises :
  fst (read_mongo "db" "c" 10 None None true false empty_world) = Raise OperationFailure
  /\ fst (read_mongo "db" "c" 10 None None true true empty_world) = Raise TypeError.
Proof. split; reflexivity. Qed.

(** When the collection has documents and the filter matches none of them,
    the estimated count lets the bucketing path through, with no partition
    at all; the paginated scan then reads the loop variable [doc] that no
    round of the loop has bound. *)
Lemma read_mongo_nothing_matched_estimated_count :
  (exists w', read_mongo "db" "c" 10 None (Some match_none) true false five_documents_world
              = (Ok (MkBag [] 0), w'))
  /\ fst (read_mongo "db" "c" 10 None (Some match_none) true true five_documents_world)
     = Raise UnboundLocalError.
Proof. split; [eexists|]; reflexivity. Qed.


(** ** The connection cache: keys and lifetime *)

(** C8 (the code departs from it): [typed=True] only adds the type of the
    argument of [_cache_inner], always [_FrozenKwargs], to the key.  An
    [int] and an equal [float] inside the configuration give equal keys: the
    second call is a hit and no second client is opened. *)
Theorem typed_cache_merges_int_and_float :
  type_of (PInt 27017) <> type_of (PFloat (inject_Z 27017))
  /\ exists h w1 w2,
       _get_client port_int empty_world = (Ok h, w1)
       /\ _get_client port_float w1 = (Ok h, w2)
       /\ length (lru w2) = 1
       /\ length (clients w2) = 1.
Proof.
  split; [discriminate|].
  eexists _, _, _. repeat split; reflexivity.
Qed.

(** C9 (the code departs from it): the exit hook is a [WeakMethod]; run at
    exit it evaluates to the bound [close] and calls nothing, so the client
    is never closed.  A seventeenth configuration evicts the first client
    from the cache, and nothing closes it either. *)
Theorem cached_client_is_never_closed :
  (exists w1 w2,
     _get_client [] empty_world = (Ok 0, w1)
     /\ exit_hooks w1 = [WeakMethod (MongoClient_close 0)]
     /\ run_exitfuncs w1 = (Ok tt, w2)
     /\ clients w2 = [Client [] 0])
  /\ (exists hs w1 w2,
        get_clients seventeen_configs empty_world = (Ok hs, w1)
        /\ hs = seq 0 17
        /\ map snd (lru w1) = rev (seq 1 16)
        /\ run_exitfuncs w1 = (Ok tt, w2)
        /\ map close_calls (clients w2) = repeat 0 17).
Proof.
  split.
  - eexists _, _. repeat split; reflexivity.
  - eexists _, _, _.
    split; [vm_compute; reflexivity|].
    split; [vm_compute; reflexivity|].
    split; [vm_compute; reflexivity|].
    split; vm_compute; reflexivity.
Qed.

(** Whatever was registered by [_cache_inner], running the exit hooks leaves
    every client as it was. *)
Lemma call_WeakMethod_frame (g : pycallable) (w : world) :
  snd (call (WeakMethod g) w) = w.
Proof. reflexivity. Qed.

(** ** The write fan-out *)

(** C7 (the code departs from it): [write_mongo] calls [insert_many]
    whatever the partition holds; for an empty partition the call is made
    with an empty list, which the driver rejects. *)
Theorem write_mongo_empty_calls_insert_many :
  exists w',
    write_mongo [] [] "db" "c" empty_world = (Raise TypeError, w')
    /\ insert_many_calls w' = [("db", "c", [])].
Proof. eexists. split; reflexivity. Qed.

(** For every configuration the cache accepts and whatever the server
    holds, [write_mongo] of an empty partition still calls [insert_many],
    with an empty list, and the call raises [TypeError]. *)
Lemma write_mongo_empty_any_world (kw : kwargs) (database collection : string) (w : world) :
  valid_config kw = true ->
  exists w',
    write_mongo [] kw database collection w = (Raise TypeError, w')
    /\ insert_many_calls w' = insert_many_calls w ++ [(database, collection, [])].
Proof.
  intros Hv. destruct (get_client_run kw w Hv) as (h & w1 & E & _ & _ & Hi).
  unfold write_mongo. unfold_M. rewrite E. simpl.
  eexists. split; [reflexivity|]. simpl. by rewrite Hi.
Qed.


(** *** Running computations step by step *)

Lemma bind_run {A B : Type} (m : M A) (f : A -> M B) (w : world) :
  (m ≫= f) w = match m w with
               | (Ok a, w') => f a w'
               | (Raise e, w') => (Raise e, w')
               end.
Proof. reflexivity. Qed.

Lemma ret_run {A : Type} (x : A) (w : world) : (mret x : M A) w = (Ok x, w).
Proof. done. Qed.

Lemma modify_run (f : world -> world) (w : world) : modify f w = (Ok tt, f w).
Proof. done. Qed.

Lemma mapM_cons_run {A B : Type} (f : A -> M B) (x : A) (l : list A) (w : world) :
  mapM f (x :: l) w =
  match f x w with
  | (Ok y, w1) =>
      match mapM f l w1 with
      | (Ok ys, w2) => (Ok (y :: ys), w2)
      | (Raise e, w2) => (Raise e, w2)
      end
  | (Raise e, w1) => (Raise e, w1)
  end.
Proof. reflexivity. Qed.

Lemma copy_run (v : loc) (w : world) :
  copy v w = match heap w !! v with
             | Some d => (Ok (length (heap w)), set_heap (fun h => h ++ [d]) w)
             | None => (Raise ReferenceError, w)
             end.
Proof. unfold copy. unfold_M. simpl. by destruct (heap w !! v). Qed.

(** *** Caller-owned documents are not written to *)

Lemma mapM_copy_heap (values : list loc) (w : world) :
  exists ext,
    heap (snd (mapM copy values w)) = heap w ++ ext
    /\ forall ls, fst (mapM copy values w) = Ok ls ->
                  Forall (fun l => length (heap w) <= l) ls.
Proof.
  revert w. induction values as [|v values IH]; intros w.
  - exists []. split; [simpl; by rewrite app_nil_r|].
    intros ls [= <-]. constructor.
  - rewrite mapM_cons_run, copy_run.
    destruct (heap w !! v) as [d|] eqn:Ev.
    + set (w1 := set_heap (fun h => h ++ [d]) w).
      destruct (IH w1) as (ext & Hh & Hls).
      destruct (mapM copy values w1) as [[ls|e] w2] eqn:E; simpl in *.
      * exists ([d] ++ ext). split; [by rewrite Hh, app_assoc|].
        intros ls' [= <-]. constructor; [lia|].
        specialize (Hls ls eq_refl). eapply Forall_impl; [exact Hls|].
        intros l Hl. simpl in Hl. rewrite length_app in Hl. simpl in Hl. lia.
      * exists ([d] ++ ext). split; [by rewrite Hh, app_assoc|]. done.
    + exists []. split; [simpl; by rewrite app_nil_r|]. done.
Qed.

Lemma assign_ids_heap (n : nat) (documents : list loc) (used : list ObjectId) (w : world) :
  Forall (fun l => n <= l) documents ->
  take n (heap (snd (assign_ids used documents w))) = take n (heap w).
Proof.
  revert used w. induction documents as [|l documents IH]; intros used w Hge.
  - reflexivity.
  - apply Forall_cons in Hge as [Hl Hge].
    simpl. rewrite bind_run. unfold gets at 1.
    destruct (heap w !! l) as [d|] eqn:El; [|done].
    destruct (py_id d) as [i|].
    + rewrite bind_run. specialize (IH used w Hge).
      destruct (assign_ids used documents w) as [[rest|e] w1]; simpl in *; exact IH.
    + rewrite bind_run. unfold modify at 1.
      set (w1 := set_heap _ w).
      rewrite bind_run.
      specialize (IH (fresh_ObjectId used :: used) w1 Hge).
      assert (Hw1 : take n (heap w1) = take n (heap w)).
      { subst w1. simpl. by rewrite take_insert_ge by lia. }
      destruct (assign_ids _ documents w1) as [[rest|e] w2]; simpl in *; congruence.
Qed.

Lemma bulk_insert_heap (database collection : string) (ops : list stored_doc) (w : world) :
  heap (snd (bulk_insert database collection ops w)) = heap w.
Proof.
  revert w. induction ops as [|d ops IH]; intros w; [done|].
  simpl. rewrite bind_run, coll_documents_run.
  destruct (existsb _ _); [done|].
  rewrite bind_run. unfold modify at 1. rewrite IH. reflexivity.
Qed.

Lemma insert_many_heap (n : nat) (database collection : string) (documents : list loc) (w : world) :
  Forall (fun l => n <= l) documents ->
  take n (heap (snd (insert_many database collection documents w))) = take n (heap w).
Proof.
  intros Hge. unfold insert_many. rewrite bind_run. unfold gets at 1.
  rewrite bind_run. unfold modify at 1.
  destruct documents as [|l documents]; [done|].
  rewrite bind_run, coll_documents_run. rewrite bind_run.
  match goal with |- context [assign_ids ?u ?ds ?w0] =>
    pose proof (assign_ids_heap n ds u w0 Hge) as Ha;
    destruct (assign_ids u ds w0) as [[ops|e] w1] end; simpl in *; [|done].
  rewrite bulk_insert_heap. exact Ha.
Qed.

Lemma write_mongo_heap_prefix (values : list loc) (kw : kwargs)
    (database collection : string) (w : world) :
  take (length (heap w)) (heap (snd (write_mongo values kw database collection w))) = heap w.
Proof.
  unfold write_mongo. rewrite bind_run.
  pose proof (get_client_frame kw w) as (_ & Hh & _).
  destruct (_get_client kw w) as [[h|e] w1]; simpl in Hh.
  - rewrite bind_run.
    destruct (mapM_copy_heap values w1) as (ext & Hext & Hls).
    destruct (mapM copy values w1) as [[ls|e] w2]; simpl in Hext, Hls.
    + rewrite insert_many_heap by (rewrite <- Hh; by apply Hls).
      rewrite Hext, Hh. by rewrite take_app_length.
    + simpl. rewrite Hext, Hh. by rewrite take_app_length.
  - simpl. rewrite Hh. by rewrite firstn_all.
Qed.

(** C6: [write_mongo] leaves every document object that existed before the
    call as it was; the identifiers [insert_many] writes go into the copies.
    In particular a caller's document without [_id] still has none. *)
Theorem write_mongo_preserves_caller_documents (values : list loc) (kw : kwargs)
    (database collection : string) (w : world) (v : loc) (d : pydoc_obj) :
  heap w !! v = Some d ->
  heap (snd (write_mongo values kw database collection w)) !! v = Some d.
Proof.
  intros Hv.
  pose proof (write_mongo_heap_prefix values kw database collection w) as Hp.
  rewrite <- Hp in Hv.
  apply lookup_take_Some in Hv as [Hv _]. exact Hv.
Qed.

Lemma write_mongo_preserves_witness :
  heap one_document_world !! 0 = Some (PyDoc None [("a", PInt 1)])
  /\ heap (snd (write_mongo [0] [] "db" "c" one_document_world)) !! 0
     = Some (PyDoc None [("a", PInt 1)]).
Proof.
  split; [reflexivity|].
  apply (write_mongo_preserves_caller_documents [0] [] "db" "c" one_document_world 0).
  reflexivity.
Defined.

Lemma write_mongo_copy_gets_the_id :
  heap (snd (write_mongo [0] [] "db" "c" one_document_world))
  = [PyDoc None [("a", PInt 1)]; PyDoc (Some 1%Z) [("a", PInt 1)]].
Proof. reflexivity. Qed.
(** ** The connection cache: which configurations share a client *)

Lemma pyval_nested_ind (P : pyval -> Prop) :
  P PNone ->
  (forall b, P (PBool b)) ->
  (forall z, P (PInt z)) ->
  (forall q, P (PFloat q)) ->
  (forall s, P (PStr s)) ->
  (forall o, P (PObjectId o)) ->
  (forall l, Forall P l -> P (PList l)) ->
  (forall l, Forall P l -> P (PTuple l)) ->
  (forall items, Forall (fun kv => P (fst kv) /\ P (snd kv)) items -> P (PDict items)) ->
  forall v, P v.
Proof.
  intros HN HB HI HF HS HO HL HT HD.
  fix IH 1. intros [| b | z | q | s | o | l | l | items].
  - exact HN.
  - apply HB.
  - apply HI.
  - apply HF.
  - apply HS.
  - apply HO.
  - apply HL. induction l as [|x l IHl]; constructor; [apply IH | exact IHl].
  - apply HT. induction l as [|x l IHl]; constructor; [apply IH | exact IHl].
  - apply HD. induction items as [|[k v] items IHl]; constructor;
      [split; apply IH | exact IHl].
Qed.

Lemma seq_eqb_refl {A : Type} (eqb : A -> A -> bool) (l : list A) :
  Forall (fun x => eqb x x = true) l -> seq_eqb eqb l l = true.
Proof.
  induction 1 as [|x l Hx _ IH]; simpl; [done|]. by rewrite Hx, IH.
Qed.

Lemma num_eq_refl (q : Q) : Qeq_bool q q = true.
Proof. apply Qeq_bool_iff. apply Qeq_refl. Qed.

(** With distinct keys, looking a key of the dict up in the dict finds its
    own entry. *)
Lemma find_own_entry (items : list (pyval * pyval)) :
  distinct_keys (map fst items) = true ->
  Forall (fun kv => py_eq (fst kv) (fst kv) = true /\ py_eq (snd kv) (snd kv) = true) items ->
  Forall (fun kv =>
            match find (fun kv' => py_eq (fst kv) (fst kv')) items with
            | Some kv' => py_eq (snd kv) (snd kv')
            | None => false
            end = true) items.
Proof.
  induction items as [|a items IH]; intros Hd Hr; [constructor|].
  simpl in Hd. apply andb_true_iff in Hd as [Hfresh Hd].
  apply Forall_cons in Hr as [[Hk Hv] Hr].
  constructor.
  - simpl. by rewrite Hk.
  - specialize (IH Hd Hr).
    rewrite Forall_forall in IH |- *. intros kv Hin.
    simpl.
    assert (py_eq (fst kv) (fst a) = false) as ->.
    { rewrite forallb_forall in Hfresh.
      apply negb_true_iff. apply Hfresh.
      apply list_elem_of_In. apply list_elem_of_fmap. eauto. }
    by apply IH.
Qed.

Lemma py_eq_refl (v : pyval) : wf_val v = true -> py_eq v v = true.
Proof.
  induction v as [| b | z | q | s | o | l IH | l IH | items IH] using pyval_nested_ind;
    simpl; intros Hwf.
  - done.
  - apply num_eq_refl.
  - apply num_eq_refl.
  - apply num_eq_refl.
  - apply String.eqb_refl.
  - apply Z.eqb_refl.
  - apply seq_eqb_refl. rewrite forallb_forall in Hwf.
    rewrite Forall_forall in IH |- *. intros x Hx. apply IH; [done|].
    apply Hwf. by apply list_elem_of_In.
  - apply seq_eqb_refl. rewrite forallb_forall in Hwf.
    rewrite Forall_forall in IH |- *. intros x Hx. apply IH; [done|].
    apply Hwf. by apply list_elem_of_In.
  - apply andb_true_iff in Hwf as [Hwf Hd].
    rewrite Nat.eqb_refl. simpl.
    apply forallb_forall. intros kv Hin.
    assert (Hself : Forall (fun kv => py_eq (fst kv) (fst kv) = true
                                      /\ py_eq (snd kv) (snd kv) = true) items).
    { rewrite forallb_forall in Hwf. rewrite Forall_forall in IH |- *.
      intros x Hx. specialize (IH x Hx) as [IHk IHv].
      specialize (Hwf x (proj1 (list_elem_of_In _ _) Hx)).
      apply andb_true_iff in Hwf as [Hk Hv]. auto. }
    pose proof (find_own_entry items Hd Hself) as Hfind.
    rewrite Forall_forall in Hfind. apply Hfind. by apply list_elem_of_In.
Qed.

Lemma hashable_wf (v : pyval) : hashable v = true -> wf_val v = true.
Proof.
  induction v as [| b | z | q | s | o | l IH | l IH | items IH] using pyval_nested_ind;
    simpl; intros Hh; try done.
  rewrite forallb_forall in Hh |- *. rewrite Forall_forall in IH.
  intros x Hx. apply IH; [by apply list_elem_of_In|]. by apply Hh.
Qed.

Lemma forallb_Permutation {A : Type} (f : A -> bool) (l1 l2 : list A) :
  l1 ≡ₚ l2 -> forallb f l1 = forallb f l2.
Proof.
  induction 1 as [|x l1 l2 _ IH|x y l|l1 l2 l3 _ IH1 _ IH2]; simpl.
  - done.
  - by rewrite IH.
  - destruct (f x), (f y); done.
  - congruence.
Qed.

Lemma existsb_Permutation {A : Type} (f : A -> bool) (l1 l2 : list A) :
  l1 ≡ₚ l2 -> existsb f l1 = existsb f l2.
Proof.
  induction 1 as [|x l1 l2 _ IH|x y l|l1 l2 l3 _ IH1 _ IH2]; simpl.
  - done.
  - by rewrite IH.
  - destruct (f x), (f y); done.
  - congruence.
Qed.

(** When at most one element satisfies [p], [find p] does not depend on the
    order of the list. *)
Lemma find_Permutation {A : Type} (p : A -> bool) (l1 l2 : list A) :
  l1 ≡ₚ l2 ->
  (forall x y, x ∈ l1 -> y ∈ l1 -> p x = true -> p y = true -> x = y) ->
  find p l1 = find p l2.
Proof.
  intros Hp Huniq.
  destruct (find p l1) as [x|] eqn:E1.
  - apply find_some in E1 as [Hin1 Hpx].
    destruct (find p l2) as [y|] eqn:E2.
    + apply find_some in E2 as [Hin2 Hpy].
      f_equal. apply Huniq; try done.
      * by apply list_elem_of_In.
      * rewrite Hp. by apply list_elem_of_In.
    + pose proof (find_none _ _ E2 x) as Hn.
      rewrite Hn in Hpx; [done|].
      apply list_elem_of_In. rewrite <- Hp. by apply list_elem_of_In.
  - destruct (find p l2) as [y|] eqn:E2; [|done].
    apply find_some in E2 as [Hin2 Hpy].
    pose proof (find_none _ _ E1 y) as Hn.
    rewrite Hn in Hpy; [done|].
    apply list_elem_of_In. rewrite Hp. by apply list_elem_of_In.
Qed.

Lemma forallb_pointwise {A : Type} (f g : A -> bool) (l : list A) :
  (forall x, f x = g x) -> forallb f l = forallb g l.
Proof. intros E. induction l as [|x l IH]; simpl; [done|]. by rewrite E, IH. Qed.

Lemma NoDup_fst_eq {A B : Type} (l : list (A * B)) (x y : A * B) :
  NoDup (map fst l) -> x ∈ l -> y ∈ l -> fst x = fst y -> x = y.
Proof.
  induction l as [|a l IH]; simpl; intros Hnd Hx Hy E.
  - by apply elem_of_nil in Hx.
  - apply NoDup_cons in Hnd as [Hna Hnd].
    apply elem_of_cons in Hx as [->|Hx], Hy as [->|Hy]; try done.
    + exfalso. apply Hna. rewrite E. apply list_elem_of_In, in_map, list_elem_of_In, Hy.
    + exfalso. apply Hna. rewrite <- E. apply list_elem_of_In, in_map, list_elem_of_In, Hx.
    + by apply IH.
Qed.

Lemma py_eq_PStr (k : pyval) (s : string) :
  py_eq k (PStr s) = true -> k = PStr s.
Proof.
  destruct k; simpl; try done.
  intros E. apply String.eqb_eq in E. by subst.
Qed.

Lemma frozenset_eqb_Permutation (hs h1 h2 : frozenset) :
  h1 ≡ₚ h2 -> frozenset_eqb hs h1 = frozenset_eqb hs h2.
Proof.
  intros Hp. unfold frozenset_eqb. f_equal.
  - apply forallb_pointwise. intros x. by apply existsb_Permutation.
  - by apply forallb_Permutation.
Qed.

Lemma FrozenKwargs_hash_Permutation (kw1 kw2 : kwargs) (h1 : frozenset) :
  kw1 ≡ₚ kw2 ->
  FrozenKwargs_hash kw1 = Ok h1 ->
  exists h2, FrozenKwargs_hash kw2 = Ok h2 /\ h1 ≡ₚ h2.
Proof.
  intros Hp. unfold FrozenKwargs_hash.
  set (f := fun kv : string * pyval =>
              PTuple [_recursive_tupling (PStr (fst kv)); _recursive_tupling (snd kv)]).
  assert (Hm : map f kw1 ≡ₚ map f kw2) by by apply Permutation_map.
  rewrite <- (forallb_Permutation hashable _ _ Hm).
  destruct (forallb hashable (map f kw1)); [|done].
  intros [= <-]. eauto.
Qed.

Lemma FrozenKwargs_eq_Permutation (s kw1 kw2 : kwargs) :
  kw1 ≡ₚ kw2 -> NoDup (map fst kw1) ->
  FrozenKwargs_eq s kw1 = FrozenKwargs_eq s kw2.
Proof.
  intros Hp Hnd. unfold FrozenKwargs_eq, as_dict. simpl.
  set (g := fun kv : string * pyval => (PStr (fst kv), snd kv)).
  rewrite !length_map, (Permutation_length Hp). f_equal.
  apply forallb_pointwise. intros kv.
  rewrite (find_Permutation _ (map g kw1) (map g kw2)); [done|by apply Permutation_map|].
  intros x y Hx Hy Hpx Hpy.
  apply list_elem_of_In, in_map_iff in Hx as (x0 & <- & Hx0).
  apply list_elem_of_In, in_map_iff in Hy as (y0 & <- & Hy0).
  simpl in Hpx, Hpy. apply py_eq_PStr in Hpx, Hpy.
  assert (x0 = y0) as ->; [|done].
  apply (NoDup_fst_eq kw1); [done|by apply list_elem_of_In..|congruence].
Qed.

Lemma key_matches_Permutation (stored : cache_key) (kw1 kw2 : kwargs) :
  kw1 ≡ₚ kw2 -> NoDup (map fst kw1) ->
  key_matches stored (make_key kw1) = key_matches stored (make_key kw2).
Proof.
  intros Hp Hnd. unfold key_matches, make_key. simpl.
  destruct (FrozenKwargs_hash (fst stored)) as [hs|]; [|done].
  destruct (FrozenKwargs_hash kw1) as [h1|e1] eqn:E1.
  - destruct (FrozenKwargs_hash_Permutation kw1 kw2 h1 Hp E1) as (h2 & -> & Hh).
    by rewrite (frozenset_eqb_Permutation hs h1 h2 Hh),
               (FrozenKwargs_eq_Permutation (fst stored) kw1 kw2 Hp Hnd).
  - destruct (FrozenKwargs_hash kw2) as [h2|e2] eqn:E2; [|done].
    symmetry in Hp.
    destruct (FrozenKwargs_hash_Permutation kw2 kw1 h2 Hp E2) as (h1 & E & _).
    congruence.
Qed.

Lemma lru_take_matches (key : cache_key) (es : list (cache_key * handle))
    (e : cache_key * handle) (rest : list (cache_key * handle)) :
  lru_take key es = Some (e, rest) -> key_matches (fst e) key = true.
Proof.
  revert e rest. induction es as [|a es IH]; simpl; intros e rest; [done|].
  destruct (key_matches (fst a) key) eqn:Ea.
  - by intros [= <- <-].
  - destruct (lru_take key es) as [[x r]|]; [|done].
    intros [= <- <-]. by eapply IH.
Qed.

Lemma lru_take_ext (k1 k2 : cache_key) (es : list (cache_key * handle)) :
  (forall stored, key_matches stored k1 = key_matches stored k2) ->
  lru_take k1 es = lru_take k2 es.
Proof.
  intros E. induction es as [|a es IH]; simpl; [done|]. by rewrite E, IH.
Qed.

Lemma frozenset_eqb_refl (h : frozenset) :
  forallb hashable h = true -> frozenset_eqb h h = true.
Proof.
  intros Hh. unfold frozenset_eqb.
  assert (forallb (fun x => existsb (py_eq x) h) h = true) as ->; [|done].
  apply forallb_forall. intros x Hx. apply existsb_exists. exists x. split; [done|].
  apply py_eq_refl, hashable_wf. rewrite forallb_forall in Hh. by apply Hh.
Qed.

Lemma key_matches_refl (kw : kwargs) :
  valid_config kw = true -> wf_val (as_dict kw) = true ->
  key_matches (make_key kw) (make_key kw) = true.
Proof.
  unfold valid_config, key_matches, make_key, FrozenKwargs_eq. simpl fst. simpl snd.
  intros Hv Hwf. unfold FrozenKwargs_hash in *.
  destruct (forallb hashable _) eqn:Hh; [|done].
  by rewrite (frozenset_eqb_refl _ Hh), (py_eq_refl _ Hwf).
Qed.

Lemma distinct_str_keys_NoDup (ks : list string) :
  distinct_keys (map PStr ks) = true -> NoDup ks.
Proof.
  induction ks as [|k ks IH]; simpl; intros Hd; [constructor|].
  apply andb_true_iff in Hd as [Hfresh Hd].
  apply NoDup_cons. split; [|by apply IH].
  intros Hin. rewrite forallb_forall in Hfresh.
  specialize (Hfresh (PStr k)). simpl in Hfresh.
  rewrite String.eqb_refl in Hfresh.
  specialize (Hfresh (in_map PStr ks k (proj1 (list_elem_of_In _ _) Hin))).
  done.
Qed.

Lemma wf_config_NoDup (kw : kwargs) :
  wf_val (as_dict kw) = true -> NoDup (map fst kw).
Proof.
  unfold as_dict. simpl. intros Hwf. apply andb_true_iff in Hwf as [_ Hd].
  apply distinct_str_keys_NoDup.
  by rewrite map_map in Hd |- *.
Qed.

Lemma get_client_unfold (kw : kwargs) (w : world) :
  _get_client kw w =
  match FrozenKwargs_hash kw with
  | Raise e => (Raise e, w)
  | Ok _ =>
      match lru_take (make_key kw) (lru w) with
      | Some (e, rest) => (Ok (snd e), set_lru (fun _ => e :: rest) w)
      | None =>
          if existsb (String.eqb "appname") (map fst kw) then (Raise TypeError, w)
          else
            (Ok (length (clients w)),
             set_lru (fun es =>
                        (make_key kw, length (clients w))
                          :: (if Nat.leb _CACHE_SIZE (length es) then removelast es else es))
               (set_exit_hooks (fun hs => hs ++ [WeakMethod (MongoClient_close (length (clients w)))])
                  (set_clients (fun cs => cs ++ [Client kw 0]) w)))
      end
  end.
Proof.
  unfold _get_client, _cache_inner, _cache_inner_wrapped.
  rewrite bind_run. unfold lift at 1.
  destruct (FrozenKwargs_hash kw) as [hk|e]; [|done].
  rewrite bind_run. unfold gets at 1.
  destruct (lru_take (make_key kw) (lru w)) as [[e rest]|]; [done|].
  rewrite bind_run.
  destruct (existsb (String.eqb "appname") (map fst kw)); done.
Qed.

(** After a call that returns, the entry of the returned client is first in
    the cache and its key matches the configuration of the call. *)
Lemma get_client_front (kw : kwargs) (w : world) :
  valid_config kw = true -> wf_val (as_dict kw) = true ->
  exists h w1 e rest,
    _get_client kw w = (Ok h, w1)
    /\ lru w1 = e :: rest /\ snd e = h
    /\ key_matches (fst e) (make_key kw) = true.
Proof.
  intros Hv Hwf.
  pose proof (key_matches_refl kw Hv Hwf) as Hrefl.
  unfold valid_config in Hv. rewrite get_client_unfold.
  destruct (FrozenKwargs_hash kw) as [hk|]; [|done].
  apply negb_true_iff in Hv.
  destruct (lru_take (make_key kw) (lru w)) as [[e rest]|] eqn:Et.
  - eexists _, _, e, rest. split; [reflexivity|]. split; [reflexivity|].
    split; [reflexivity|]. by eapply lru_take_matches.
  - rewrite Hv. eexists _, _, _, _. split; [reflexivity|]. split; [reflexivity|].
    split; [reflexivity|]. exact Hrefl.
Qed.

(** C1, as amended: two configurations with the same entries, each key
    bound to the identical value, in whatever order of the keys of the
    configuration, get the same client: the second call is a cache hit. *)
Theorem get_client_ignores_key_order (kw1 kw2 : kwargs) (w : world) :
  valid_config kw1 = true ->
  wf_val (as_dict kw1) = true ->
  kw1 ≡ₚ kw2 ->
  exists h w1 w2,
    _get_client kw1 w = (Ok h, w1) /\ _get_client kw2 w1 = (Ok h, w2).
Proof.
  intros Hv Hwf Hp.
  destruct (get_client_front kw1 w Hv Hwf) as (h & w1 & e & rest & E1 & Hl & Hs & Hm).
  exists h, w1. rewrite E1, get_client_unfold.
  unfold valid_config in Hv.
  destruct (FrozenKwargs_hash kw1) as [h1|] eqn:Eh; [|done].
  destruct (FrozenKwargs_hash_Permutation kw1 kw2 h1 Hp Eh) as (h2 & -> & _).
  rewrite <- (lru_take_ext (make_key kw1) (make_key kw2)).
  - rewrite Hl. simpl. rewrite Hm. subst h. eauto.
  - intros stored. apply key_matches_Permutation; [done|]. by apply wf_config_NoDup.
Qed.

Lemma get_client_key_order_witness :
  exists h w1 w2,
    _get_client host_then_port empty_world = (Ok h, w1)
    /\ _get_client port_then_host w1 = (Ok h, w2).
Proof.
  apply (get_client_ignores_key_order host_then_port port_then_host empty_world).
  - reflexivity.
  - reflexivity.
  - apply perm_swap.
Defined.

(** C1, as stated, fails: a list and the tuple of the same elements hash
    alike but do not compare equal, so the second call misses the cache and
    opens a second client. *)
Lemma list_and_tuple_open_two_clients :
  _recursive_tupling (PList [PStr "a"; PStr "b"]) = PTuple [PStr "a"; PStr "b"]
  /\ fst (_get_client hosts_list empty_world) = Ok 0
  /\ fst (_get_client hosts_tuple (snd (_get_client hosts_list empty_world))) = Ok 1
  /\ ~ (exists h w1 w2,
          _get_client hosts_list empty_world = (Ok h, w1)
          /\ _get_client hosts_tuple w1 = (Ok h, w2)).
Proof.
  split; [reflexivity|]. split; [reflexivity|]. split; [reflexivity|].
  intros (h & w1 & w2 & E1 & E2).
  assert (Hh : fst (_get_client hosts_list empty_world) = Ok h) by by rewrite E1.
  assert (Hw : snd (_get_client hosts_list empty_world) = w1) by by rewrite E1.
  assert (Hh2 : fst (_get_client hosts_tuple w1) = Ok h) by by rewrite E2.
  rewrite <- Hw in Hh2. vm_compute in Hh, Hh2. congruence.
Qed.

(** A nested mapping is hashed through the tuple of its items, in their
    order: the same nested mapping written in another order compares equal
    and hashes differently, and the call misses the cache.  A value is
    identical to another only with the items of its mappings in the same
    order. *)
Lemma nested_key_order_opens_two_clients :
  FrozenKwargs_eq nested_x_y nested_y_x = true
  /\ fst (_get_client nested_x_y empty_world) = Ok 0
  /\ fst (_get_client nested_y_x (snd (_get_client nested_x_y empty_world))) = Ok 1.
Proof. repeat split; reflexivity. Qed.

(** ** Ranges over a sorted cursor *)

Lemma filter_all {A : Type} (f : A -> bool) (l : list A) :
  Forall (fun x => f x = true) l -> List.filter f l = l.
Proof. induction 1 as [|x l Hx _ IH]; simpl; [done|]. by rewrite Hx, IH. Qed.

Lemma filter_none {A : Type} (f : A -> bool) (l : list A) :
  Forall (fun x => f x = false) l -> List.filter f l = [].
Proof. induction 1 as [|x l Hx _ IH]; simpl; [done|]. by rewrite Hx. Qed.

Lemma last_cons_default {A : Type} (l : list A) (e d : A) :
  List.last (e :: l) d = List.last l e.
Proof.
  revert e d. induction l as [|a l IH]; intros e d; [done|].
  change (List.last (e :: a :: l) d) with (List.last (a :: l) d).
  by rewrite !IH.
Qed.

Lemma head_id_le (c : list stored_doc) (x : stored_doc) :
  StronglySorted id_lt c -> x ∈ c -> (head_id c <= doc_id x)%Z.
Proof.
  destruct c as [|d c]; intros Hs Hx; [by apply elem_of_nil in Hx|].
  simpl. apply elem_of_cons in Hx as [->|Hx]; [lia|].
  apply StronglySorted_cons in Hs as [Hall _].
  rewrite Forall_forall in Hall. specialize (Hall x Hx). unfold id_lt in Hall. lia.
Qed.

Lemma le_last_id (c : list stored_doc) (x : stored_doc) :
  StronglySorted id_lt c -> x ∈ c -> (doc_id x <= last_id c)%Z.
Proof.
  revert x. induction c as [|d c IH]; intros x Hs Hx; [by apply elem_of_nil in Hx|].
  apply StronglySorted_cons in Hs as [Hall Hs].
  destruct c as [|e c].
  - apply list_elem_of_singleton in Hx as ->. simpl. lia.
  - assert (El : last_id (d :: e :: c) = last_id (e :: c)).
    { unfold last_id. by rewrite last_cons_default. }
    rewrite El.
    apply elem_of_cons in Hx as [->|Hx].
    + rewrite Forall_forall in Hall.
      assert (He : e ∈ e :: c) by apply list_elem_of_here.
      specialize (Hall e He). specialize (IH e Hs He). unfold id_lt in Hall.
      simpl in IH |- *. lia.
    + by apply IH.
Qed.

Lemma bounds_of_nonempty (lo : ObjectId) (c : list stored_doc) (rest : list (list stored_doc)) :
  bounds_of lo (c :: rest) <> [].
Proof. simpl. by destruct rest. Qed.

Lemma match2_true (lo hi : ObjectId) (incl : bool) (d : stored_doc) :
  match2 lo hi incl d = true <->
  (lo <= doc_id d)%Z /\ (if incl then (doc_id d <= hi)%Z else (doc_id d < hi)%Z).
Proof.
  unfold match2. rewrite andb_true_iff, Z.leb_le.
  destruct incl; [rewrite Z.leb_le | rewrite Z.ltb_lt]; done.
Qed.

Lemma match2_false_below (lo hi : ObjectId) (incl : bool) (d : stored_doc) :
  (doc_id d < lo)%Z -> match2 lo hi incl d = false.
Proof.
  intros H. apply not_true_is_false. rewrite match2_true. lia.
Qed.

(** The cursor cut into consecutive non-empty groups: the range of the
    descriptor of a group selects that group and nothing else. *)
Lemma ranges_select_groups (chunks : list (list stored_doc)) (pre : list stored_doc)
    (lo : ObjectId) :
  Forall (fun c => c <> []) chunks ->
  StronglySorted id_lt (concat chunks) ->
  Forall (fun d => (doc_id d < lo)%Z) pre ->
  (lo <= head_id (concat chunks))%Z ->
  map (fun pb => List.filter (range_of pb) (pre ++ concat chunks))
      (with_last (bounds_of lo chunks))
  = chunks.
Proof.
  revert pre lo. induction chunks as [|c rest IH]; intros pre lo Hne Hs Hpre Hlo; [done|].
  apply Forall_cons in Hne as [Hc Hne].
  simpl in Hs, Hlo.
  assert (Hhead : head_id (c ++ concat rest) = head_id c) by (by destruct c).
  rewrite Hhead in Hlo.
  pose proof (StronglySorted_app_1_l _ _ _ Hs) as Hsc.
  assert (Hpre0 : forall hi incl, List.filter (match2 lo hi incl) pre = []).
  { intros hi incl. apply filter_none. eapply Forall_impl; [exact Hpre|].
    intros d Hd. by apply match2_false_below. }
  destruct rest as [|c' rest'].
  - simpl. rewrite app_nil_r. f_equal.
    unfold range_of. simpl. rewrite List.filter_app, Hpre0. simpl.
    apply filter_all. apply Forall_forall. intros x Hx.
    apply match2_true. split.
    + pose proof (head_id_le c x Hsc Hx). lia.
    + by apply le_last_id.
  - apply Forall_cons in Hne as Hne'. destruct Hne' as [Hc' _].
    assert (Hin' : exists d', d' ∈ c' /\ doc_id d' = head_id c').
    { destruct c' as [|d' c'']; [done|]. exists d'. split; [apply list_elem_of_here|done]. }
    destruct Hin' as (d' & Hd'in & Hd').
    assert (Hbelow : forall x, x ∈ c -> (doc_id x < head_id c')%Z).
    { intros x Hx. rewrite <- Hd'.
      apply (StronglySorted_app_1_elem_of _ _ _ x d' Hs Hx).
      simpl. apply elem_of_app. by left. }
    change (bounds_of lo (c :: c' :: rest'))
      with (Partition lo (head_id c') :: bounds_of (head_id c') (c' :: rest')).
    pose proof (bounds_of_nonempty (head_id c') c' rest') as Hbn.
    destruct (bounds_of (head_id c') (c' :: rest')) as [|p ps] eqn:Eb; [done|].
    change (with_last (Partition lo (head_id c') :: p :: ps))
      with ((Partition lo (head_id c'), false) :: with_last (p :: ps)).
    rewrite map_cons. f_equal.
    + unfold range_of. simpl fst. simpl snd. simpl part_min. simpl part_max.
      change (concat (c :: c' :: rest')) with (c ++ concat (c' :: rest')).
      rewrite !List.filter_app, Hpre0. simpl app.
      rewrite (filter_all _ c), (filter_none _ (concat (c' :: rest'))).
      * by rewrite app_nil_r.
      * apply Forall_forall. intros x Hx.
        apply not_true_is_false. rewrite match2_true.
        pose proof (StronglySorted_app_1_r _ _ _ Hs) as Hsr.
        pose proof (head_id_le (concat (c' :: rest')) x Hsr Hx) as Hh.
        assert (head_id (concat (c' :: rest')) = head_id c') as Eh by (by destruct c').
        rewrite Eh in Hh. lia.
      * apply Forall_forall. intros x Hx. apply match2_true. split.
        -- pose proof (head_id_le c x Hsc Hx). lia.
        -- by apply Hbelow.
    + rewrite <- Eb.
      change (concat (c :: c' :: rest')) with (c ++ concat (c' :: rest')).
      specialize (IH (pre ++ c) (head_id c') Hne (StronglySorted_app_1_r _ _ _ Hs)).
      rewrite <- app_assoc in IH. apply IH.
      * apply Forall_app. split.
        -- eapply Forall_impl; [exact Hpre|]. intros d Hd. simpl in Hd.
           destruct c as [|d0 c0]; [done|].
           specialize (Hbelow d0 (list_elem_of_here _ _)). simpl in Hlo. lia.
        -- apply Forall_forall. intros x Hx. by apply Hbelow.
      * assert (head_id (concat (c' :: rest')) = head_id c') as -> by (by destruct c').
        lia.
Qed.
(** ** The paginated scan cuts the cursor into groups of [chunksize] *)

Lemma group_head (size : nat) (l : list stored_doc) (room : nat) (cur : list stored_doc) :
  cur <> [] ->
  exists c rest, group size room cur l = c :: rest /\ head_id c = head_id cur /\ c <> [].
Proof.
  revert room cur. induction l as [|d l IH]; intros room cur Hcur; simpl.
  - eauto.
  - destruct room as [|room].
    + eauto.
    + destruct (IH room (cur ++ [d])) as (c & rest & E & Hh & Hc).
      { by destruct cur. }
      exists c, rest. split; [done|]. split; [|done].
      rewrite Hh. by destruct cur.
Qed.

Lemma group_concat (size : nat) (l : list stored_doc) (room : nat) (cur : list stored_doc) :
  concat (group size room cur l) = cur ++ l.
Proof.
  revert room cur. induction l as [|d l IH]; intros room cur; simpl.
  - by rewrite app_nil_r.
  - destruct room as [|room]; simpl.
    + by rewrite IH.
    + by rewrite IH, <- app_assoc.
Qed.

Lemma group_nonempty (size : nat) (l : list stored_doc) (room : nat) (cur : list stored_doc) :
  cur <> [] -> Forall (fun c => c <> []) (group size room cur l).
Proof.
  revert room cur. induction l as [|d l IH]; intros room cur Hcur; simpl.
  - by constructor.
  - destruct room as [|room].
    + constructor; [done|]. by apply IH.
    + apply IH. by destruct cur.
Qed.

(** Every group but the last is full, and the last one is not empty. *)
Lemma group_shape (size : nat) (l : list stored_doc) (room : nat) (cur : list stored_doc) :
  0 < size -> cur <> [] -> length cur + room = size ->
  exists init lastc,
    group size room cur l = init ++ [lastc]
    /\ Forall (fun c => length c = size) init
    /\ 1 <= length lastc <= size.
Proof.
  intros Hsize. revert room cur. induction l as [|d l IH]; intros room cur Hcur Hlen; simpl.
  - exists [], cur. split; [done|]. split; [constructor|].
    destruct cur; [done|]. simpl in *. lia.
  - destruct room as [|room].
    + destruct (IH (size - 1) [d]) as (init & lastc & E & Hall & Hl); [done|simpl; lia|].
      exists (cur :: init), lastc. rewrite E. split; [done|]. split; [|done].
      constructor; [lia|done].
    + apply IH; [by destruct cur|]. rewrite length_app. simpl. lia.
Qed.

Lemma last_id_snoc (cur : list stored_doc) (d : stored_doc) :
  last_id (cur ++ [d]) = doc_id d.
Proof.
  destruct cur as [|x cur]; [done|]. simpl. by rewrite last_last.
Qed.

Lemma mod_room_nonzero (idx c r : Z) :
  (0 < r < c)%Z -> ((idx + r) mod c = 0)%Z -> (idx mod c <> 0)%Z.
Proof.
  intros Hr H H0. rewrite Z.add_mod in H by lia.
  rewrite H0, Z.add_0_l, Z.mod_mod, Z.mod_small in H by lia. lia.
Qed.

Lemma mod_next_group (idx c : Z) :
  (0 < c)%Z -> (idx mod c = 0)%Z -> ((idx + 1 + (c - 1)) mod c = 0)%Z.
Proof.
  intros Hc H. replace (idx + 1 + (c - 1))%Z with (idx + 1 * c)%Z by lia.
  by rewrite Z_mod_plus_full.
Qed.

(** The loop, started inside a group, produces the descriptors of the
    groups still to come; the descriptor of the last group is the one
    [read_mongo] appends after the loop. *)
Lemma paginate_loop_groups (nrows : Z) (size : nat) (l : list stored_doc) :
  0 < size ->
  forall (idx : Z) (room : nat) (cur : list stored_doc) (prev : ObjectId)
         (parts : list partition) (d0 : stored_doc),
    (0 < idx)%Z ->
    ((idx + Z.of_nat room) mod Z.of_nat size = 0)%Z ->
    room < size ->
    (idx + Z.of_nat (length l) <= nrows)%Z ->
    cur <> [] ->
    doc_id d0 = last_id cur ->
    exists prev' parts' d',
      paginate_loop nrows (Z.of_nat size) idx l prev parts (Some d0) = (prev', parts', Some d')
      /\ parts' ++ [Partition prev' (doc_id d')]
         = parts ++ bounds_of prev (group size room cur l).
Proof.
  intros Hsize. induction l as [|d l IH];
    intros idx room cur prev parts d0 Hidx Hmod Hroom Hrows Hcur Hd0.
  - simpl. eexists _, _, _. split; [reflexivity|]. by rewrite Hd0.
  - simpl in Hrows.
    cbn [paginate_loop].
    assert ((nrows <=? idx)%Z = false) as -> by lia.
    destruct room as [|room].
    + rewrite Z.add_0_r in Hmod. rewrite Hmod.
      assert ((0 <? idx)%Z = true) as -> by lia.
      cbn [andb Z.eqb].
      destruct (group_head size l (size - 1) [d]) as (c1 & rest & E & Hh & Hc1); [done|].
      destruct (IH (idx + 1)%Z (size - 1) [d] (doc_id d)
                  (parts ++ [Partition prev (doc_id d)]) d)
        as (prev' & parts' & d' & El & Ep).
      * lia.
      * replace (Z.of_nat (size - 1)) with (Z.of_nat size - 1)%Z by lia.
        apply mod_next_group; [lia|done].
      * lia.
      * lia.
      * done.
      * done.
      * exists prev', parts', d'. split; [exact El|].
        rewrite Ep. cbn [group]. rewrite E. cbn [bounds_of].
        rewrite Hh. simpl head_id. by rewrite <- app_assoc.
    + assert ((idx mod Z.of_nat size =? 0)%Z = false) as ->.
      { apply Z.eqb_neq. apply (mod_room_nonzero idx _ (Z.of_nat (S room))); [lia|done]. }
      cbn [andb].
      destruct (IH (idx + 1)%Z room (cur ++ [d]) prev parts d)
        as (prev' & parts' & d' & El & Ep).
      * lia.
      * replace (idx + 1 + Z.of_nat room)%Z with (idx + Z.of_nat (S room))%Z by lia. done.
      * lia.
      * lia.
      * by destruct cur.
      * by rewrite last_id_snoc.
      * exists prev', parts', d'. split; [exact El|]. exact Ep.
Qed.
(** ** The sorted cursor *)

#[global] Instance id_le_transitive : Transitive id_le.
Proof. unfold id_le. intros a b c. lia. Qed.

#[global] Instance id_le_total : Total id_le.
Proof. unfold id_le. intros a b. lia. Qed.

Lemma sorted_distinct_strict (l : list stored_doc) :
  StronglySorted id_le l -> NoDup (map doc_id l) -> StronglySorted id_lt l.
Proof.
  induction 1 as [|x l Hs IH Hall]; intros Hnd; [constructor|].
  simpl in Hnd. apply NoDup_cons in Hnd as [Hx Hnd].
  constructor; [by apply IH|].
  rewrite Forall_forall in Hall |- *. intros y Hy.
  specialize (Hall y Hy). unfold id_le in Hall. unfold id_lt.
  assert (doc_id x <> doc_id y); [|lia].
  intros E. apply Hx. rewrite E. by apply (list_elem_of_fmap_2 doc_id).
Qed.

Lemma NoDup_ids_filter (m : query) (docs : list stored_doc) :
  NoDup (map doc_id docs) -> NoDup (map doc_id (List.filter m docs)).
Proof.
  induction docs as [|d docs IH]; simpl; intros Hnd; [done|].
  apply NoDup_cons in Hnd as [Hd Hnd].
  destruct (m d); simpl; [|by apply IH].
  apply NoDup_cons. split; [|by apply IH].
  intros Hin. apply Hd.
  apply list_elem_of_In, in_map_iff in Hin as (x & E & Hx).
  apply filter_In in Hx as [Hx _].
  rewrite <- E. apply list_elem_of_In, in_map. exact Hx.
Qed.

Lemma cursor_Permutation (m : query) (docs : list stored_doc) :
  merge_sort id_le (List.filter m docs) ≡ₚ List.filter m docs.
Proof. apply merge_sort_Permutation. Qed.

Lemma cursor_sorted (m : query) (docs : list stored_doc) :
  NoDup (map doc_id docs) ->
  StronglySorted id_lt (merge_sort id_le (List.filter m docs)).
Proof.
  intros Hnd. apply sorted_distinct_strict.
  - apply StronglySorted_merge_sort; apply _.
  - apply (NoDup_ids_filter m) in Hnd.
    assert (P : map doc_id (merge_sort id_le (List.filter m docs))
                ≡ₚ map doc_id (List.filter m docs))
      by apply Permutation_map, cursor_Permutation.
    by rewrite P.
Qed.

Lemma NoDup_of_ids (l : list stored_doc) : NoDup (map doc_id l) -> NoDup l.
Proof. apply (NoDup_fmap_1 doc_id). Qed.

(** ** Counting the partitions that hold a document *)

Lemma holding_once {A B : Type} (r : B -> A -> bool) (bs : list B) (S : list A) (x : A) :
  NoDup (concat (map (fun b => List.filter (r b) S) bs)) ->
  x ∈ concat (map (fun b => List.filter (r b) S) bs) ->
  length (List.filter (fun b => r b x) bs) = 1.
Proof.
  induction bs as [|b bs IH]; simpl; intros Hnd Hx; [by apply elem_of_nil in Hx|].
  apply NoDup_app in Hnd as (Hb & Hdisj & Hnd).
  assert (HinS : x ∈ S).
  { apply elem_of_app in Hx as [Hx|Hx].
    - apply list_elem_of_In, filter_In in Hx as [Hx _]. by apply list_elem_of_In.
    - apply list_elem_of_In, in_concat in Hx as (l & Hl & Hx).
      apply in_map_iff in Hl as (b' & <- & _).
      apply filter_In in Hx as [Hx _]. by apply list_elem_of_In. }
  destruct (r b x) eqn:Erb; simpl.
  - f_equal.
    assert (Hhere : x ∈ List.filter (r b) S).
    { apply list_elem_of_In, filter_In. split; [by apply list_elem_of_In|done]. }
    specialize (Hdisj x Hhere).
    apply length_zero_iff_nil. apply filter_none.
    apply Forall_forall. intros b' Hb'. apply not_true_is_false. intros Er.
    apply Hdisj. apply list_elem_of_In, in_concat.
    exists (List.filter (r b') S). split.
    + apply in_map_iff. exists b'. split; [done|]. by apply list_elem_of_In.
    + apply filter_In. split; [by apply list_elem_of_In|done].
  - apply IH; [done|].
    apply elem_of_app in Hx as [Hx|Hx]; [|done].
    apply list_elem_of_In, filter_In in Hx as [_ Hx]. congruence.
Qed.

Lemma filter_map_length {A B : Type} (f : B -> bool) (g : A -> B) (l : list A) :
  length (List.filter f (map g l)) = length (List.filter (fun a => f (g a)) l).
Proof.
  induction l as [|a l IH]; simpl; [done|]. destruct (f (g a)); simpl; by rewrite IH.
Qed.

(** The [include_last] flag of the read assembler, [i == len - 1], marks the
    last descriptor and no other. *)
Lemma imap_with_last {T : Type} (g : partition -> bool -> T) (ps : list partition) :
  imap (fun i p => g p (Z.eqb (Z.of_nat i) (Z.of_nat (length ps) - 1))) ps
  = map (fun pb => g (fst pb) (snd pb)) (with_last ps).
Proof.
  assert (H : forall k n, n = k + length ps ->
            imap (fun i p => g p (Z.eqb (Z.of_nat (k + i)) (Z.of_nat n - 1))) ps
            = map (fun pb => g (fst pb) (snd pb)) (with_last ps)).
  { induction ps as [|p ps IH]; intros k n Hn; [done|].
    rewrite imap_cons. simpl in Hn.
    destruct ps as [|p' ps].
    - simpl in *.
      assert ((Z.of_nat (k + 0) =? Z.of_nat n - 1)%Z = true) as ->; [|done].
      apply Z.eqb_eq. lia.
    - change (with_last (p :: p' :: ps)) with ((p, false) :: with_last (p' :: ps)).
      rewrite map_cons. f_equal.
      + assert ((Z.of_nat (k + 0) =? Z.of_nat n - 1)%Z = false) as ->; [|done].
        apply Z.eqb_neq. simpl in Hn. lia.
      + rewrite <- (IH (S k) n) by (simpl in *; lia).
        apply imap_ext. intros i x _. simpl.
        by replace (k + S i) with (S (k + i)) by lia. }
  rewrite <- (H 0 (length ps)) by done. done.
Qed.
(** ** The buckets of [$bucketAuto] *)

Lemma bucket_chunks_nonempty (size : nat) (buckets : nat) (l : list stored_doc) :
  0 < size -> Forall (fun c => c <> []) (bucket_chunks size buckets l).
Proof.
  intros Hsize. revert l. induction buckets as [|b IH]; intros l; simpl; [constructor|].
  destruct l as [|d l]; [constructor|].
  destruct (Nat.eqb b 0); [by repeat constructor|].
  constructor; [|apply IH].
  destruct size; [lia|done].
Qed.

Lemma bucket_chunks_concat (size : nat) (buckets : nat) (l : list stored_doc) :
  0 < buckets -> concat (bucket_chunks size buckets l) = l.
Proof.
  revert l. induction buckets as [|b IH]; intros l Hb; [lia|]. simpl.
  destruct l as [|d l]; [done|].
  destruct (Nat.eqb b 0) eqn:Eb.
  - simpl. by rewrite app_nil_r.
  - apply Nat.eqb_neq in Eb.
    change (concat (?c :: ?r)) with (c ++ concat r).
    rewrite IH by lia. apply firstn_skipn.
Qed.

Lemma bucket_bounds_bounds_of (chunks : list (list stored_doc)) :
  Forall (fun c => c <> []) chunks ->
  bucket_bounds chunks = bounds_of (head_id (concat chunks)) chunks.
Proof.
  induction 1 as [|c rest Hc Hrest IH]; [done|].
  destruct c as [|d c']; [done|].
  simpl bucket_bounds. simpl concat. simpl head_id.
  destruct rest as [|c1 rest'].
  - done.
  - apply Forall_cons in Hrest as [Hc1 _].
    destruct c1 as [|d' c1']; [done|].
    rewrite IH. done.
Qed.

(** ** What the driver returns *)

Lemma estimated_document_count_run (database collection : string) (w : world) :
  estimated_document_count database collection w
  = (Ok (Z.of_nat (length (collection_of w database collection))), w).
Proof. reflexivity. Qed.

Lemma aggregate_count_run (database collection : string) (m : query) (w : world) :
  aggregate_count database collection m w
  = (Ok (match List.filter m (collection_of w database collection) with
         | [] => []
         | matched => [Z.of_nat (length matched)]
         end), w).
Proof.
  unfold aggregate_count. rewrite bind_run, coll_documents_run.
  by destruct (List.filter m (collection_of w database collection)).
Qed.

Lemma find_sorted_run (database collection : string) (m : query) (w : world) :
  find_sorted database collection m w
  = (Ok (merge_sort id_le (List.filter m (collection_of w database collection))), w).
Proof. reflexivity. Qed.

Lemma find_one_sorted_run (database collection : string) (w : world) :
  find_one_sorted database collection w
  = (Ok (head (merge_sort id_le (collection_of w database collection))), w).
Proof. reflexivity. Qed.

Lemma aggregate_bucketAuto_run (database collection : string) (m : query) (buckets : Z)
    (w : world) :
  (0 < buckets)%Z ->
  aggregate_bucketAuto database collection m buckets w
  = (Ok (let sorted := merge_sort id_le (List.filter m (collection_of w database collection)) in
         let k := Z.to_nat buckets in
         bucket_bounds (bucket_chunks (approx_bucket_size (length sorted) k) k sorted)), w).
Proof.
  intros Hb. unfold aggregate_bucketAuto. rewrite bind_run, coll_documents_run.
  assert ((buckets <=? 0)%Z = false) as -> by lia. reflexivity.
Qed.

Lemma fetch_mongo_run (kw : kwargs) (database collection : string) (m : query)
    (id_min id_max : ObjectId) (include_last : bool) (w : world) :
  valid_config kw = true ->
  exists w',
    fetch_mongo kw database collection m id_min id_max include_last w
    = (Ok (List.filter (match2 id_min id_max include_last)
             (List.filter m (collection_of w database collection))), w')
    /\ colls w' = colls w
    /\ insert_many_calls w' = insert_many_calls w.
Proof.
  intros Hv. destruct (get_client_run kw w Hv) as (h & w1 & E & Hc & _ & Hi).
  exists w1. unfold fetch_mongo. rewrite bind_run, E, bind_run, coll_documents_run.
  by rewrite (collection_of_colls w w1 _ _ Hc).
Qed.

(** A fetch task run by a worker leaves the calling process as it was. *)
Lemma in_worker_fetch_run (kw : kwargs) (database collection : string) (m : query)
    (id_min id_max : ObjectId) (include_last : bool) (w : world) :
  valid_config kw = true ->
  in_worker (fetch_mongo kw database collection m id_min id_max include_last) w
  = (Ok (List.filter (match2 id_min id_max include_last)
           (List.filter m (collection_of w database collection))), w).
Proof.
  intros Hv. unfold in_worker.
  set (w0 := World [] [] [] (heap w) (colls w) (insert_many_calls w) (scheduler w)).
  destruct (fetch_mongo_run kw database collection m id_min id_max include_last w0 Hv)
    as (w' & E & Hc & Hi).
  rewrite E, Hc, Hi. by destruct w.
Qed.

Lemma ceil_div_pos (n c : Z) : (0 < n)%Z -> (0 < c)%Z -> (0 < ceil_div n c)%Z.
Proof.
  intros Hn Hc. unfold ceil_div.
  assert ((- n) / c < 0)%Z; [|lia].
  apply Z.div_lt_upper_bound; lia.
Qed.
Ltac tasks_with_last :=
  match goal with
  | |- context [imap (fun i p => FetchTask ?kw ?db ?c ?mq _ _ _) ?ps] =>
      let H := fresh in
      pose proof (imap_with_last
                    (fun p b => FetchTask kw db c mq (part_min p) (part_max p) b) ps) as H;
      cbv beta in H; rewrite H; clear H
  end.

(** The plan of [read_mongo] for a matched set that is not empty: the
    descriptors of consecutive groups of the sorted matches.  The paginated
    scan leaves the last descriptor out when the identifier it starts at is
    falsy. *)
Lemma read_mongo_plan_gen (database collection : string) (chunksize : Z)
    (kw : option kwargs) (m : option query) (est pag : bool) (w : world) :
  let docs := collection_of w database collection in
  let mq := default match_all m in
  let S := merge_sort id_le (List.filter mq docs) in
  valid_config (default [] kw) = true ->
  NoDup (map doc_id docs) ->
  (0 < chunksize)%Z ->
  List.filter mq docs <> [] ->
  exists w' lo chunks,
    read_mongo database collection chunksize kw m est pag w
    = (Ok (MkBag
             (map (fun pb => FetchTask (default [] kw) database collection mq
                               (part_min (fst pb)) (part_max (fst pb)) (snd pb))
                  (with_last (planned pag (bounds_of lo chunks))))
             (length (planned pag (bounds_of lo chunks)))), w')
    /\ colls w' = colls w
    /\ Forall (fun c => c <> []) chunks
    /\ concat chunks = S
    /\ (lo <= head_id S)%Z
    /\ (pag = true ->
        lo = head_id (merge_sort id_le docs)
        /\ exists d0 l, S = d0 :: l
             /\ chunks = group (Z.to_nat chunksize) (Z.to_nat chunksize - 1) [d0] l).
Proof.
  intros docs mq S Hv Hnd Hc Hne.
  destruct (get_client_run _ w Hv) as (h & w1 & E & Hcolls & _).
  assert (Hdocs1 : collection_of w1 database collection = docs)
    by apply (collection_of_colls w w1 _ _ Hcolls).
  assert (HS : S ≡ₚ List.filter mq docs) by apply cursor_Permutation.
  assert (HSne : S <> []).
  { intros E0. rewrite E0 in HS. apply Permutation_nil in HS. done. }
  unfold read_mongo. rewrite bind_run, E.
  fold mq.
  (* the row count *)
  assert (exists nrows,
    (if est then estimated_document_count database collection
     else counts ← aggregate_count database collection mq; lift (next counts)) w1
    = (Ok nrows, w1) /\ (Z.of_nat (length S) <= nrows)%Z) as (nrows & En & Hn).
  { destruct est.
    - rewrite estimated_document_count_run, Hdocs1. eexists. split; [reflexivity|].
      rewrite (Permutation_length HS). pose proof (filter_length_le mq docs). lia.
    - rewrite bind_run, aggregate_count_run, Hdocs1.
      destruct (List.filter mq docs) as [|x xs] eqn:Ef; [done|].
      eexists. split; [reflexivity|]. rewrite (Permutation_length HS). lia. }
  rewrite bind_run, En. rewrite bind_run.
  assert ((chunksize =? 0)%Z = false) as -> by lia.
  unfold mret at 1, M_ret at 1. cbv beta iota.
  assert (Hn1 : (1 <= nrows)%Z).
  { destruct S; [done|]. simpl in Hn. lia. }
  rewrite bind_run. destruct pag.
  - (* paginated scan *)
    rewrite bind_run, find_sorted_run, Hdocs1. fold S.
    rewrite bind_run, find_one_sorted_run, Hdocs1.
    assert (Hsd : StronglySorted id_le (merge_sort id_le docs))
      by (apply StronglySorted_merge_sort; apply _).
    assert (Hpd : merge_sort id_le docs ≡ₚ docs) by apply merge_sort_Permutation.
    assert (HSdocs : forall x, x ∈ S -> x ∈ docs).
    { intros x Hx. rewrite HS in Hx.
      apply list_elem_of_In, filter_In in Hx as [Hx _].
      exact (proj2 (list_elem_of_In _ _) Hx). }
    destruct (merge_sort id_le docs) as [|dmin rest] eqn:Em.
    { apply Permutation_nil in Hpd. exfalso. apply Hne. by rewrite Hpd. }
    change (head (dmin :: rest)) with (Some dmin).
    rewrite bind_run. unfold mret at 1, M_ret at 1.
    assert (exists d0 l, S = d0 :: l) as (d0 & l & ES).
    { destruct S as [|d0 l]; [done|]. eauto. }
    assert (Hlo : (doc_id dmin <= head_id S)%Z).
    { rewrite ES. simpl.
      assert (Hd0 : d0 ∈ dmin :: rest).
      { rewrite Hpd. apply HSdocs. rewrite ES. apply list_elem_of_here. }
      apply StronglySorted_cons in Hsd as [Hall _].
      apply elem_of_cons in Hd0 as [->|Hd0]; [lia|].
      rewrite Forall_forall in Hall. apply (Hall d0 Hd0). }
    set (size := Z.to_nat chunksize).
    assert (Ecs : chunksize = Z.of_nat size) by (subst size; lia).
    rewrite ES. cbn [paginate_loop].
    assert ((nrows <=? 0)%Z = false) as -> by lia.
    rewrite andb_false_r.
    destruct (paginate_loop_groups nrows size l ltac:(lia) 1%Z (size - 1) [d0]
                (doc_id dmin) [] d0) as (prev' & parts' & d' & El & Ep).
    + lia.
    + replace (1 + Z.of_nat (size - 1))%Z with (Z.of_nat size) by lia.
      apply Z_mod_same_full.
    + lia.
    + rewrite ES in Hn. simpl in Hn. lia.
    + done.
    + done.
    + rewrite <- Ecs in El. change (0 + 1)%Z with 1%Z. rewrite El.
      cbv beta iota. simpl app in Ep.
      exists w1, (doc_id dmin), (group size (size - 1) [d0] l).
      split.
      * rewrite <- Ep. unfold planned. rewrite last_last, removelast_last.
        simpl part_min. simpl andb.
        destruct (truthy prev'); simpl negb; cbv iota;
          rewrite ret_run; cbv beta iota; rewrite ret_run; tasks_with_last; reflexivity.
      * split; [done|].
        split; [by apply group_nonempty|].
        split; [by rewrite group_concat|].
        split; [by rewrite <- ES|].
        intros _. split; [done|]. exists d0, l. done.
  - (* buckets *)
    rewrite aggregate_bucketAuto_run by (apply ceil_div_pos; lia).
    rewrite Hdocs1. fold S. cbv zeta.
    set (k := Z.to_nat (ceil_div nrows chunksize)).
    set (chunks := bucket_chunks (approx_bucket_size (length S) k) k S).
    assert (Hk : 0 < k).
    { subst k. pose proof (ceil_div_pos nrows chunksize). lia. }
    assert (Hchunks : Forall (fun c => c <> []) chunks).
    { apply bucket_chunks_nonempty. unfold approx_bucket_size. lia. }
    assert (Hconcat : concat chunks = S) by by apply bucket_chunks_concat.
    rewrite (bucket_bounds_bounds_of chunks Hchunks), Hconcat.
    unfold mret, M_ret. tasks_with_last.
    exists w1, (head_id S), chunks.
    split; [reflexivity|]. split; [done|]. split; [done|]. split; [done|].
    split; [lia|]. done.
Qed.

Lemma bounds_of_min_ids (chunks : list (list stored_doc)) (lo : ObjectId) (p : partition) :
  Forall (fun c => c <> []) chunks ->
  p ∈ bounds_of lo chunks ->
  part_min p = lo \/ exists d, d ∈ concat chunks /\ part_min p = doc_id d.
Proof.
  revert lo. induction chunks as [|c rest IH]; intros lo Hne Hp.
  { by apply elem_of_nil in Hp. }
  apply Forall_cons in Hne as [_ Hne].
  destruct rest as [|c' rest'].
  - apply list_elem_of_singleton in Hp as ->. by left.
  - change (bounds_of lo (c :: c' :: rest'))
      with (Partition lo (head_id c') :: bounds_of (head_id c') (c' :: rest')) in Hp.
    apply elem_of_cons in Hp as [->|Hp]; [by left|]. right.
    pose proof Hne as Hne'. apply Forall_cons in Hne' as [Hc' _].
    destruct c' as [|d1 c1]; [done|].
    destruct (IH (doc_id d1) Hne Hp) as [E|(d & Hd & E)].
    + exists d1. split; [|done]. simpl. apply elem_of_app. right. apply list_elem_of_here.
    + exists d. split; [|done]. simpl concat. apply elem_of_app. by right.
Qed.

(** When no identifier of the collection is falsy the paginated scan, too,
    plans every descriptor. *)
Lemma read_mongo_plan (database collection : string) (chunksize : Z)
    (kw : option kwargs) (m : option query) (est pag : bool) (w : world) :
  let docs := collection_of w database collection in
  let mq := default match_all m in
  let S := merge_sort id_le (List.filter mq docs) in
  valid_config (default [] kw) = true ->
  NoDup (map doc_id docs) ->
  (0 < chunksize)%Z ->
  List.filter mq docs <> [] ->
  (pag = true -> Forall (fun d => truthy (doc_id d) = true) docs) ->
  exists w' lo chunks,
    read_mongo database collection chunksize kw m est pag w
    = (Ok (MkBag
             (map (fun pb => FetchTask (default [] kw) database collection mq
                               (part_min (fst pb)) (part_max (fst pb)) (snd pb))
                  (with_last (bounds_of lo chunks)))
             (length (bounds_of lo chunks))), w')
    /\ colls w' = colls w
    /\ Forall (fun c => c <> []) chunks
    /\ concat chunks = S
    /\ (lo <= head_id S)%Z
    /\ (pag = true ->
        exists d0 l, S = d0 :: l
          /\ chunks = group (Z.to_nat chunksize) (Z.to_nat chunksize - 1) [d0] l).
Proof.
  intros docs mq S Hv Hnd Hc Hne Htruthy.
  destruct (read_mongo_plan_gen database collection chunksize kw m est pag w Hv Hnd Hc Hne)
    as (w' & lo & chunks & Er & Hcolls & Hchunks & Hconcat & Hlo & Hg).
  fold docs mq in Er, Hconcat, Hlo, Hg. fold S in Hconcat, Hlo, Hg.
  exists w', lo, chunks.
  split; [|split; [done|split; [done|split; [done|split; [done|]]]]].
  - rewrite Er. unfold planned. destruct pag; [|done].
    destruct (Hg eq_refl) as (Elo & d0 & l & ES & Echunks).
    specialize (Htruthy eq_refl). rewrite Forall_forall in Htruthy.
    assert (Hin : forall d, d ∈ S -> d ∈ docs).
    { intros d Hd. unfold S in Hd. rewrite merge_sort_Permutation in Hd.
      apply list_elem_of_In, filter_In in Hd as [Hd _].
      exact (proj2 (list_elem_of_In _ _) Hd). }
    assert (Hlast : truthy (part_min (List.last (bounds_of lo chunks) (Partition 0%Z 0%Z)))
                    = true).
    { assert (Hbs : bounds_of lo chunks <> []).
      { destruct chunks as [|c rest]; [|apply bounds_of_nonempty].
        rewrite ES in Hconcat. done. }
      destruct (exists_last Hbs) as (init & p & Ebs). rewrite Ebs, last_last.
      destruct (bounds_of_min_ids chunks lo p Hchunks) as [E|(d & Hd & E)].
      - rewrite Ebs. apply elem_of_app. right. apply list_elem_of_here.
      - rewrite E, Elo.
        destruct (merge_sort id_le docs) as [|dmin rest] eqn:Em.
        { exfalso. apply Hne.
          assert (docs = []) as ->; [|done].
          apply Permutation_nil_r. rewrite <- Em. symmetry. apply merge_sort_Permutation. }
        simpl. apply Htruthy. rewrite <- (merge_sort_Permutation id_le docs), Em.
        apply list_elem_of_here.
      - rewrite E. apply Htruthy, Hin. by rewrite <- Hconcat. }
    rewrite Hlast. done.
  - intros Hp. destruct (Hg Hp) as (_ & H). exact H.
Qed.

(** ** Running the graph *)

Lemma filter_Permutation {A : Type} (f : A -> bool) (l1 l2 : list A) :
  l1 ≡ₚ l2 -> List.filter f l1 ≡ₚ List.filter f l2.
Proof.
  induction 1 as [|x l1 l2 _ IH|x y l|l1 l2 l3 _ IH1 _ IH2]; simpl.
  - done.
  - destruct (f x); [by constructor|done].
  - destruct (f x), (f y); try done. apply perm_swap.
  - by etrans.
Qed.

Lemma with_last_length (ps : list partition) : length (with_last ps) = length ps.
Proof.
  induction ps as [|p ps IH]; [done|].
  destruct ps as [|p' ps]; [done|].
  change (with_last (p :: p' :: ps)) with ((p, false) :: with_last (p' :: ps)).
  simpl length in *. by rewrite IH.
Qed.

Lemma concat_filters_cons {A B : Type} (r : B -> A -> bool) (bs : list B)
    (x : A) (L : list A) :
  concat (map (fun b => List.filter (r b) (x :: L)) bs)
  ≡ₚ repeat x (length (List.filter (fun b => r b x) bs))
     ++ concat (map (fun b => List.filter (r b) L) bs).
Proof.
  induction bs as [|b bs IH]; [done|].
  simpl. destruct (r b x); simpl.
  - rewrite IH. constructor.
    rewrite !app_assoc. apply Permutation_app_tail, Permutation_app_comm.
  - rewrite IH. rewrite !app_assoc. apply Permutation_app_tail, Permutation_app_comm.
Qed.

(** Ranges that hold every element of [L] exactly once cut [L] into pieces
    that together are [L] again. *)
Lemma concat_filters_Permutation {A B : Type} (r : B -> A -> bool) (bs : list B)
    (L : list A) :
  Forall (fun x => length (List.filter (fun b => r b x) bs) = 1) L ->
  concat (map (fun b => List.filter (r b) L) bs) ≡ₚ L.
Proof.
  induction 1 as [|x L Hx _ IH].
  - induction bs as [|b bs IHb]; [done|]. simpl. exact IHb.
  - rewrite concat_filters_cons, Hx. simpl. by constructor.
Qed.

Lemma run_tasks (kw : kwargs) (database collection : string) (mq : query)
    (wl : list (partition * bool)) (w : world) :
  valid_config kw = true ->
  mapM (fun t => in_worker (run_fetch_task t)) (map (task_of kw database collection mq) wl) w
  = (Ok (map (fun pb => List.filter (range_of pb)
                          (List.filter mq (collection_of w database collection))) wl), w).
Proof.
  intros Hv. induction wl as [|pb wl IH]; [done|].
  rewrite map_cons, mapM_cons_run.
  unfold run_fetch_task at 1. simpl.
  rewrite (in_worker_fetch_run kw database collection mq (part_min (fst pb))
             (part_max (fst pb)) (snd pb) w Hv).
  by rewrite IH.
Qed.

Lemma length_concat_full {A : Type} (size : nat) (init : list (list A)) :
  Forall (fun c => length c = size) init ->
  length (concat init) = size * length init.
Proof.
  induction 1 as [|c init Hc _ IH]; simpl; [lia|].
  rewrite length_app, IH, Hc. lia.
Qed.

Lemma ceil_div_exact (n c k r : Z) :
  (0 < c)%Z -> (1 <= r <= c)%Z -> (n = c * k + r)%Z -> (ceil_div n c = k + 1)%Z.
Proof.
  intros Hc Hr Hn. unfold ceil_div.
  assert ((- n) / c = - (k + 1))%Z as ->; [|lia].
  symmetry. apply (Z.div_unique _ _ _ (c - r)); [lia|lia].
Qed.
(** ** The partitions cover the matched documents *)

(** The plan of [read_mongo], with the property that makes it a cover:
    every matched document is in the range of exactly one descriptor. *)
Lemma read_mongo_plan_once
    (database collection : string) (chunksize : Z) (kw : option kwargs)
    (m : option query) (est pag : bool) (w : world) :
  valid_config (default [] kw) = true ->
  NoDup (map doc_id (collection_of w database collection)) ->
  (0 < chunksize)%Z ->
  List.filter (default match_all m) (collection_of w database collection) <> [] ->
  (pag = true ->
   Forall (fun d => truthy (doc_id d) = true) (collection_of w database collection)) ->
  exists w' wl,
    read_mongo database collection chunksize kw m est pag w
    = (Ok (MkBag (map (task_of (default [] kw) database collection (default match_all m)) wl)
             (length wl)), w')
    /\ colls w' = colls w
    /\ forall d, d ∈ List.filter (default match_all m) (collection_of w database collection) ->
                 length (List.filter (fun pb => range_of pb d) wl) = 1.
Proof.
  intros Hv Hnd Hc Hne Htruthy.
  set (docs := collection_of w database collection) in *.
  set (mq := default match_all m) in *.
  destruct (read_mongo_plan database collection chunksize kw m est pag w Hv Hnd Hc Hne Htruthy)
    as (w' & lo & chunks & Er & Hcolls & Hchunks & Hconcat & Hlo & _).
  fold docs mq in Hconcat, Hlo, Er.
  set (S := merge_sort id_le (List.filter mq docs)) in *.
  set (wl := with_last (bounds_of lo chunks)) in *.
  assert (HS : S ≡ₚ List.filter mq docs) by apply cursor_Permutation.
  assert (Hsorted : StronglySorted id_lt S) by by apply cursor_sorted.
  assert (Hsel : map (fun pb => List.filter (range_of pb) S) wl = chunks).
  { pose proof (ranges_select_groups chunks [] lo Hchunks) as Hr.
    rewrite Hconcat in Hr. apply Hr; [done|constructor|done]. }
  assert (HndS : NoDup S).
  { rewrite HS. apply NoDup_of_ids. by apply NoDup_ids_filter. }
  exists w', wl. split.
  - rewrite Er. subst wl. by rewrite with_last_length.
  - split; [done|]. intros d Hd. apply (holding_once range_of wl S d).
    + by rewrite Hsel, Hconcat.
    + rewrite Hsel, Hconcat, HS. done.
Qed.

(** Computing a graph whose ranges hold every matched document once gives
    the matched documents back, each once. *)
Lemma compute_tasks_gives_matched (kw : kwargs) (database collection : string) (mq : query)
    (wl : list (partition * bool)) (n : nat) (w : world) :
  valid_config kw = true ->
  (forall d, d ∈ List.filter mq (collection_of w database collection) ->
             length (List.filter (fun pb => range_of pb d) wl) = 1) ->
  exists fetched,
    compute_bag (MkBag (map (task_of kw database collection mq) wl) n) w = (Ok fetched, w)
    /\ fetched ≡ₚ List.filter mq (collection_of w database collection).
Proof.
  intros Hv Honce.
  unfold compute_bag. rewrite bind_run. simpl dsk.
  rewrite (run_tasks kw database collection mq wl w Hv).
  eexists. split; [reflexivity|].
  apply concat_filters_Permutation.
  apply Forall_forall. intros d Hd. by apply Honce.
Qed.

(** When no identifier is falsy the partitions cover the matched set.  For
    a non-empty matched set and a positive chunk size, under either count
    and under the bucket strategy, and under the paginated scan when no
    document of the collection has a falsy [_id]: every matched document
    falls in the range of exactly one partition (upper bound exclusive,
    inclusive for the last), and the partitions fetched and put together
    are the matched documents, each once. *)
Theorem read_mongo_partitions_cover
    (database collection : string) (chunksize : Z) (kw : option kwargs)
    (m : option query) (est pag : bool) (w : world) :
  valid_config (default [] kw) = true ->
  NoDup (map doc_id (collection_of w database collection)) ->
  (0 < chunksize)%Z ->
  List.filter (default match_all m) (collection_of w database collection) <> [] ->
  (pag = true ->
   Forall (fun d => truthy (doc_id d) = true) (collection_of w database collection)) ->
  exists bag w',
    read_mongo database collection chunksize kw m est pag w = (Ok bag, w')
    /\ (forall d, d ∈ collection_of w database collection ->
                  default match_all m d = true ->
                  partitions_holding bag d = 1)
    /\ exists fetched w'',
         compute_bag bag w' = (Ok fetched, w'')
         /\ fetched ≡ₚ List.filter (default match_all m) (collection_of w database collection).
Proof.
  intros Hv Hnd Hc Hne Htruthy.
  destruct (read_mongo_plan_once database collection chunksize kw m est pag w
              Hv Hnd Hc Hne Htruthy) as (w' & wl & Er & Hcolls & Honce).
  eexists _, w'. split; [exact Er|]. split.
  - intros d Hd Hm. unfold partitions_holding. simpl dsk.
    rewrite filter_map_length. apply Honce.
    apply list_elem_of_In, filter_In. split; [|done].
    exact (proj1 (list_elem_of_In _ _) Hd).
  - rewrite <- (collection_of_colls w w' database collection Hcolls).
    destruct (compute_tasks_gives_matched (default [] kw) database collection
                (default match_all m) wl (length wl) w' Hv) as (fetched & Ec & Hp).
    { by rewrite (collection_of_colls w w' database collection Hcolls). }
    by exists fetched, w'.
Qed.

(** ** The paginated scan: number and size of the partitions *)

(** When no identifier is falsy the paginated scan cuts the matched set
    into chunks.  For [n > 0] matched documents, a chunk size [c > 0] and a
    collection without a falsy [_id], it plans [ceil(n / c)] partitions;
    every partition but the last fetches exactly [c] documents, the last at
    least one and at most [c]. *)
Theorem paginated_scan_partition_sizes
    (database collection : string) (chunksize : Z) (kw : option kwargs)
    (m : option query) (est : bool) (w : world) :
  valid_config (default [] kw) = true ->
  NoDup (map doc_id (collection_of w database collection)) ->
  (0 < chunksize)%Z ->
  List.filter (default match_all m) (collection_of w database collection) <> [] ->
  Forall (fun d => truthy (doc_id d) = true) (collection_of w database collection) ->
  exists bag w',
    read_mongo database collection chunksize kw m est true w = (Ok bag, w')
    /\ Z.of_nat (npartitions bag)
       = ceil_div
           (Z.of_nat (length (List.filter (default match_all m)
                                (collection_of w database collection))))
           chunksize
    /\ length (dsk bag) = npartitions bag
    /\ forall i t, dsk bag !! i = Some t ->
         exists fetched w'',
           run_fetch_task t w' = (Ok fetched, w'')
           /\ (1 <= Z.of_nat (length fetched) <= chunksize)%Z
           /\ (i + 1 < npartitions bag -> Z.of_nat (length fetched) = chunksize).
Proof.
  intros Hv Hnd Hc Hne Htruthy.
  set (docs := collection_of w database collection) in *.
  set (mq := default match_all m) in *.
  destruct (read_mongo_plan database collection chunksize kw m est true w Hv Hnd Hc Hne
              (fun _ => Htruthy))
    as (w' & lo & chunks & Er & Hcolls & Hchunks & Hconcat & Hlo & Hgroup).
  fold docs mq in Hconcat, Hlo, Er, Hgroup.
  set (S := merge_sort id_le (List.filter mq docs)) in *.
  set (wl := with_last (bounds_of lo chunks)) in *.
  assert (HS : S ≡ₚ List.filter mq docs) by apply cursor_Permutation.
  assert (Hsorted : StronglySorted id_lt S) by by apply cursor_sorted.
  assert (Hsel : map (fun pb => List.filter (range_of pb) S) wl = chunks).
  { pose proof (ranges_select_groups chunks [] lo Hchunks) as Hr.
    rewrite Hconcat in Hr. apply Hr; [done|constructor|done]. }
  destruct (Hgroup eq_refl) as (d0 & l & ES & Echunks).
  set (size := Z.to_nat chunksize) in *.
  destruct (group_shape size l (size - 1) [d0]) as (init & lastc & Eg & Hfull & Hlast);
    [lia|done|simpl; lia|].
  rewrite Eg in Echunks.
  assert (Hlen : length wl = length init + 1).
  { rewrite <- (length_map (fun pb => List.filter (range_of pb) S) wl), Hsel, Echunks.
    rewrite length_app. simpl. lia. }
  assert (Hnp : length (bounds_of lo chunks) = length init + 1).
  { rewrite <- Hlen. subst wl. by rewrite with_last_length. }
  eexists _, w'. split; [exact Er|]. simpl npartitions. simpl dsk.
  split; [|split].
  - rewrite Hnp, <- (Permutation_length HS), <- Hconcat, Echunks.
    rewrite concat_app, length_app, (length_concat_full size init Hfull).
    simpl. rewrite app_nil_r.
    rewrite (ceil_div_exact _ chunksize (Z.of_nat (length init)) (Z.of_nat (length lastc)));
      lia.
  - rewrite length_map. subst wl. by rewrite with_last_length.
  - intros i t Ht.
    apply list_lookup_fmap_Some in Ht as (pb & -> & Hpb).
    destruct (fetch_mongo_run (default [] kw) database collection mq
                (part_min (fst pb)) (part_max (fst pb)) (snd pb) w' Hv) as (w'' & Ef & _).
    unfold run_fetch_task. simpl. rewrite Ef.
    eexists _, w''. split; [reflexivity|].
    rewrite (collection_of_colls w w' _ _ Hcolls). fold docs.
    assert (Hchunk : chunks !! i = Some (List.filter (range_of pb) S)).
    { rewrite <- Hsel. change (map ?f wl) with (f <$> wl).
      by rewrite list_lookup_fmap, Hpb. }
    assert (Elen : length (List.filter (match2 (part_min pb.1) (part_max pb.1) pb.2)
                             (List.filter mq docs))
                   = length (List.filter (range_of pb) S)).
    { apply Permutation_length. symmetry. by apply filter_Permutation. }
    rewrite Elen. rewrite Echunks in Hchunk.
    destruct (decide (i < length init)) as [Hi|Hi].
    + rewrite lookup_app_l in Hchunk by done.
      rewrite Forall_forall in Hfull.
      pose proof (Hfull _ (list_elem_of_lookup_2 _ _ _ Hchunk)) as Hsz.
      rewrite Hsz. lia.
    + rewrite lookup_app_r in Hchunk by lia.
      assert (i = length init) as ->.
      { apply lookup_lt_Some in Hpb. lia. }
      rewrite Nat.sub_diag in Hchunk. simpl in Hchunk. injection Hchunk as <-.
      split; [lia|]. intros Hlt. lia.
Qed.
Lemma five_documents_distinct :
  NoDup (map doc_id (collection_of five_documents_world "db" "c")).
Proof.
  change (NoDup [5; 3; 9; 1; 7]%Z).
  apply (bool_decide_unpack (NoDup [5; 3; 9; 1; 7]%Z)). vm_compute. exact I.
Qed.

Lemma read_mongo_partitions_cover_witness :
  exists bag w',
    read_mongo "db" "c" 2 None None false true five_documents_world = (Ok bag, w')
    /\ (forall d, d ∈ collection_of five_documents_world "db" "c" ->
                  default match_all None d = true ->
                  partitions_holding bag d = 1)
    /\ exists fetched w'',
         compute_bag bag w' = (Ok fetched, w'')
         /\ fetched ≡ₚ List.filter (default match_all None)
                         (collection_of five_documents_world "db" "c").
Proof.
  apply (read_mongo_partitions_cover "db" "c" 2 None None false true five_documents_world).
  - reflexivity.
  - exact five_documents_distinct.
  - lia.
  - discriminate.
  - intros _. repeat constructor.
Defined.

Lemma paginated_scan_partition_sizes_witness :
  exists bag w',
    read_mongo "db" "c" 2 None None false true five_documents_world = (Ok bag, w')
    /\ Z.of_nat (npartitions bag)
       = ceil_div
           (Z.of_nat (length (List.filter (default match_all None)
                                (collection_of five_documents_world "db" "c"))))
           2
    /\ length (dsk bag) = npartitions bag
    /\ forall i t, dsk bag !! i = Some t ->
         exists fetched w'',
           run_fetch_task t w' = (Ok fetched, w'')
           /\ (1 <= Z.of_nat (length fetched) <= 2)%Z
           /\ (i + 1 < npartitions bag -> Z.of_nat (length fetched) = 2%Z).
Proof.
  apply (paginated_scan_partition_sizes "db" "c" 2 None None false five_documents_world).
  - reflexivity.
  - exact five_documents_distinct.
  - lia.
  - discriminate.
  - repeat constructor.
Defined.

(** C2 (the code departs from it): the paginated scan appends its last
    descriptor under [if prev_id:], a test of truthiness.  In a collection
    whose lowest [_id] is 0 and whose matches fit one chunk, the test fails:
    no descriptor is planned, the matched documents fall in no partition
    and the computed collection is empty.  The bucket strategy, which has
    no such test, covers the same documents. *)
Theorem falsy_lowest_id_leaves_documents_out :
  List.filter match_all (collection_of zero_one_world "db" "c")
  = [StoredDoc 0%Z []; StoredDoc 1%Z []]
  /\ (exists w',
        read_mongo "db" "c" 5 None None false true zero_one_world = (Ok (MkBag [] 0), w')
        /\ Forall (fun d => partitions_holding (MkBag [] 0) d = 0)
             (collection_of zero_one_world "db" "c")
        /\ compute_bag (MkBag [] 0) w' = (Ok [], w'))
  /\ (exists bag w',
        read_mongo "db" "c" 5 None None false false zero_one_world = (Ok bag, w')
        /\ Forall (fun d => partitions_holding bag d = 1)
             (collection_of zero_one_world "db" "c")).
Proof.
  split; [reflexivity|]. split.
  - eexists. split; [reflexivity|]. split; [repeat constructor|reflexivity].
  - eexists _, _. split; [reflexivity|]. repeat constructor.
Qed.

(** C4 (the code departs from it): by the same test the paginated scan
    plans fewer than [ceil(n / c)] partitions when the identifier its last
    descriptor would start at is falsy.  Two documents with [_id] 0 and 1
    and a chunk size of 5 give no partition where [ceil(2 / 5) = 1].  Four
    documents with [_id] -2 to 1 and a chunk size of 2 give one partition
    where [ceil(4 / 2) = 2]: the only boundary is the falsy 0, the last
    descriptor is left out, the one before it becomes the last with its
    upper bound included and fetches three documents. *)
Theorem falsy_identifier_loses_the_last_partition :
  (exists w',
     read_mongo "db" "c" 5 None None false true zero_one_world = (Ok (MkBag [] 0), w')
     /\ ceil_div (Z.of_nat (length (collection_of zero_one_world "db" "c"))) 5 = 1%Z)
  /\ (exists t w',
        read_mongo "db" "c" 2 None None false true minus_two_to_one_world
        = (Ok (MkBag [t] 1), w')
        /\ (ft_id_min t, ft_id_max t, ft_include_last t) = ((-2)%Z, 0%Z, true)
        /\ ceil_div (Z.of_nat (length (collection_of minus_two_to_one_world "db" "c"))) 2
           = 2%Z
        /\ exists fetched w'',
             run_fetch_task t w' = (Ok fetched, w'') /\ length fetched = 3).
Proof.
  split.
  - eexists. split; reflexivity.
  - eexists _, _. split; [reflexivity|]. split; [reflexivity|]. split; [reflexivity|].
    eexists _, _. split; reflexivity.
Qed.

(** The plan for the five documents, two per partition. *)
Lemma five_documents_paginated_plan :
  (let '(r, _) := read_mongo "db" "c" 2 None None false true five_documents_world in
   match r with
   | Ok bag => Ok (map (fun t => (ft_id_min t, ft_id_max t, ft_include_last t)) (dsk bag))
   | Raise e => Raise e
   end)
  = Ok [(1, 5, false); (5, 9, false); (9, 9, true)]%Z.
Proof. reflexivity. Qed.
(** ** Writing, then reading back *)

(** C5 (the code departs from it): for the empty list of documents the
    round trip raises instead of yielding the empty set.  A bag of one empty
    partition fails in the write ([insert_many] of an empty list); a bag
    without partitions is written without error and the read then fails on
    the empty collection, under either strategy. *)
Theorem roundtrip_of_no_documents_raises :
  fst (to_mongo [[]] "db" "c" None true empty_world) = Raise TypeError
  /\ fst (to_mongo [] "db" "c" None true empty_world) = Ok None
  /\ forall pag,
       fst (read_mongo "db" "c" 10 None None false pag
              (snd (to_mongo [] "db" "c" None true empty_world)))
       = Raise StopIteration.
Proof.
  split; [reflexivity|]. split; [reflexivity|].
  intros pag. destruct pag; reflexivity.
Qed.

(** *** The round trip for documents that are there *)

Lemma mapM_copy_run (values : list loc) (ds : list pydoc_obj) (w : world) :
  Forall2 (fun l d => heap w !! l = Some d) values ds ->
  mapM copy values w
  = (Ok (seq (length (heap w)) (length values)), set_heap (fun h => h ++ ds) w).
Proof.
  intros H. revert w H. revert ds.
  induction values as [|v values IH]; intros ds w H.
  - apply Forall2_nil_inv_l in H as ->. destruct w. simpl. unfold set_heap. simpl.
    by rewrite app_nil_r.
  - apply Forall2_cons_inv_l in H as (d & ds' & Hd & H & ->).
    rewrite mapM_cons_run, copy_run, Hd.
    rewrite (IH ds' (set_heap (fun h => h ++ [d]) w)).
    + simpl. rewrite length_app. simpl.
      replace (length (heap w) + 1) with (S (length (heap w))) by lia.
      f_equal. unfold set_heap. simpl. by rewrite <- app_assoc.
    + eapply Forall2_impl; [exact H|]. intros l d' Hl. simpl.
      by apply lookup_app_l_Some.
Qed.

Lemma assign_ids_run (ds : list pydoc_obj) (pre : list pydoc_obj) (used : list ObjectId)
    (w : world) :
  heap w = pre ++ ds ->
  Forall (fun d => py_id d = None) ds ->
  exists w',
    assign_ids used (seq (length pre) (length ds)) w = (Ok (fresh_docs used ds), w')
    /\ colls w' = colls w.
Proof.
  revert pre used w. induction ds as [|d ds IH]; intros pre used w Hh Hnone.
  - exists w. done.
  - apply Forall_cons in Hnone as [Hd Hnone].
    simpl. rewrite bind_run. unfold gets at 1.
    destruct (heap w !! length pre) as [d1|] eqn:El;
      rewrite Hh, list_lookup_middle in El by done; [|done].
    injection El as El. subst d1.
    rewrite Hd. rewrite bind_run. unfold modify at 1.
    set (w1 := set_heap _ w).
    destruct (IH (pre ++ [PyDoc (Some (fresh_ObjectId used)) (py_fields d)])
                (fresh_ObjectId used :: used) w1) as (w' & E & Hc); [|done|].
    + subst w1. simpl. rewrite Hh.
      rewrite insert_app_r_alt by lia. rewrite Nat.sub_diag. simpl.
      by rewrite <- app_assoc.
    + rewrite length_app in E. simpl in E.
      replace (length pre + 1) with (S (length pre)) in E by lia.
      rewrite bind_run, E. exists w'. split; [done|]. by rewrite Hc.
Qed.

Lemma bulk_insert_run (database collection : string) (ops : list stored_doc) (w : world) :
  NoDup (map doc_id ops) ->
  Forall (fun d => doc_id d ∉ map doc_id (collection_of w database collection)) ops ->
  exists w',
    bulk_insert database collection ops w = (Ok tt, w')
    /\ collection_of w' database collection = collection_of w database collection ++ ops.
Proof.
  revert w. induction ops as [|d ops IH]; intros w Hnd Hnew.
  - exists w. split; [done|]. by rewrite app_nil_r.
  - simpl in Hnd. apply NoDup_cons in Hnd as [Hd Hnd].
    apply Forall_cons in Hnew as [Hdnew Hnew].
    simpl. rewrite bind_run, coll_documents_run.
    set (docs := collection_of w database collection) in *.
    assert (existsb (fun x => (doc_id x =? doc_id d)%Z) docs = false) as ->.
    { apply not_true_is_false. intros Hex.
      apply existsb_exists in Hex as (x & Hx & Hxd). apply Z.eqb_eq in Hxd.
      apply Hdnew. rewrite <- Hxd. apply list_elem_of_In, in_map, Hx. }
    rewrite bind_run. unfold modify at 1.
    set (w1 := set_colls _ w).
    assert (Hw1 : collection_of w1 database collection = docs ++ [d]).
    { unfold collection_of, w1. simpl. by rewrite lookup_insert_eq. }
    destruct (IH w1 Hnd) as (w' & E & Hc).
    + rewrite Hw1. apply Forall_forall. intros x Hx.
      rewrite Forall_forall in Hnew. specialize (Hnew x Hx).
      rewrite map_app. intros Hin. apply elem_of_app in Hin as [Hin|Hin]; [done|].
      simpl in Hin. apply list_elem_of_singleton in Hin.
      apply Hd. rewrite <- Hin. by apply (list_elem_of_fmap_2 doc_id).
    + exists w'. split; [done|]. by rewrite Hc, Hw1, <- app_assoc.
Qed.

Lemma le_max_list (used : list ObjectId) (y : ObjectId) :
  y ∈ used -> (y <= foldr Z.max 0 used)%Z.
Proof.
  induction used as [|u used IH]; intros Hy; [by apply elem_of_nil in Hy|].
  simpl. apply elem_of_cons in Hy as [->|Hy]; [lia|]. specialize (IH Hy). lia.
Qed.

(** New identifiers are above every identifier in use and increase. *)
Lemma fresh_docs_ids (ds : list pydoc_obj) (used : list ObjectId) :
  Forall (fun x => (foldr Z.max 0 used < doc_id x)%Z) (fresh_docs used ds)
  /\ StronglySorted id_lt (fresh_docs used ds).
Proof.
  revert used. induction ds as [|d ds IH]; intros used; simpl.
  - split; constructor.
  - destruct (IH (fresh_ObjectId used :: used)) as [Habove Hsorted].
    simpl in Habove. unfold fresh_ObjectId in *.
    split.
    + constructor; [simpl; lia|].
      eapply Forall_impl; [exact Habove|]. intros x Hx. simpl in Hx. lia.
    + constructor; [done|].
      eapply Forall_impl; [exact Habove|]. intros x Hx. unfold id_lt. simpl in *. lia.
Qed.

Lemma fresh_docs_bodies (ds : list pydoc_obj) (used : list ObjectId) :
  map doc_body (fresh_docs used ds) = map py_fields ds.
Proof.
  revert used. induction ds as [|d ds IH]; intros used; simpl; [done|]. by rewrite IH.
Qed.

Lemma strictly_sorted_NoDup (l : list stored_doc) :
  StronglySorted id_lt l -> NoDup (map doc_id l).
Proof.
  induction 1 as [|x l _ IH Hall]; simpl; [constructor|].
  apply NoDup_cons. split; [|done].
  intros Hin. apply list_elem_of_In, in_map_iff in Hin as (y & E & Hy).
  rewrite Forall_forall in Hall.
  specialize (Hall y (proj2 (list_elem_of_In _ _) Hy)). unfold id_lt in Hall. lia.
Qed.

Lemma copies_lookup (ds pre : list pydoc_obj) :
  Forall2 (fun l d => (pre ++ ds) !! l = Some d) (seq (length pre) (length ds)) ds.
Proof.
  revert pre. induction ds as [|d ds IH]; intros pre; simpl; [constructor|].
  constructor.
  - by rewrite list_lookup_middle.
  - specialize (IH (pre ++ [d])). rewrite length_app in IH. simpl in IH.
    replace (length pre + 1) with (S (length pre)) in IH by lia.
    eapply Forall2_impl; [exact IH|]. intros l d' Hl. simpl in Hl.
    by rewrite <- app_assoc in Hl.
Qed.

Lemma explicit_ids_none (h : list pydoc_obj) (locs : list nat) (ds : list pydoc_obj) :
  Forall2 (fun l d => h !! l = Some d) locs ds ->
  Forall (fun d => py_id d = None) ds ->
  explicit_ids h locs = [].
Proof.
  unfold explicit_ids. induction 1 as [|l d locs ds Hl _ IH]; intros Hnone; [done|].
  apply Forall_cons in Hnone as [Hd Hnone].
  simpl. rewrite Hl. simpl. rewrite Hd. by apply IH.
Qed.

Lemma insert_many_nonempty (database collection : string) (documents : list nat) (w : world) :
  documents <> [] ->
  insert_many database collection documents w
  = match assign_ids (map doc_id (collection_of w database collection)
                        ++ explicit_ids (heap w) documents) documents
            (set_insert_many_calls
               (fun cs => cs ++ [(database, collection, omap (fun l => heap w !! l) documents)]) w)
    with
    | (Ok ops, w4) => bulk_insert database collection ops w4
    | (Raise e, w4) => (Raise e, w4)
    end.
Proof.
  intros Hne. unfold insert_many. rewrite bind_run. unfold gets at 1.
  rewrite bind_run. unfold modify at 1.
  destruct documents as [|l documents]; [done|].
  rewrite bind_run, coll_documents_run, bind_run. reflexivity.
Qed.

(** One partition written: the collection gains one document per value,
    with the entries of the value and a new identifier. *)
Lemma write_mongo_appends (values : list nat) (ds : list pydoc_obj) (kw : kwargs)
    (database collection : string) (w : world) :
  valid_config kw = true ->
  values <> [] ->
  Forall2 (fun l d => heap w !! l = Some d) values ds ->
  Forall (fun d => py_id d = None) ds ->
  exists w1 new,
    write_mongo values kw database collection w = (Ok tt, w1)
    /\ collection_of w1 database collection = collection_of w database collection ++ new
    /\ map doc_body new = map py_fields ds
    /\ Forall (fun x => (foldr Z.max 0 (map doc_id (collection_of w database collection))
                         < doc_id x)%Z) new
    /\ StronglySorted id_lt new.
Proof.
  intros Hv Hne Hvals Hnone.
  destruct (get_client_run kw w Hv) as (h & w0 & E & Hc & Hh & _).
  unfold write_mongo. rewrite bind_run, E, bind_run.
  rewrite (mapM_copy_run values ds w0) by (by rewrite Hh).
  rewrite Hh. pose proof (Forall2_length _ _ _ Hvals) as Hlen. rewrite Hlen.
  set (w2 := set_heap (fun h => h ++ ds) w0).
  set (locs := seq (length (heap w)) (length ds)).
  assert (Hlocs : Forall2 (fun l d => heap w2 !! l = Some d) locs ds).
  { subst w2 locs. simpl. rewrite Hh. apply copies_lookup. }
  rewrite insert_many_nonempty.
  2:{ subst locs. destruct ds; [|done]. destruct values; done. }
  set (w3 := set_insert_many_calls _ w2).
  assert (Hc3 : collection_of w3 database collection = collection_of w database collection).
  { apply collection_of_colls. subst w3 w2. simpl. done. }
  rewrite (collection_of_colls w w2 database collection) by (subst w2; simpl; done).
  rewrite (explicit_ids_none (heap w2) locs ds Hlocs Hnone), app_nil_r.
  set (used := map doc_id (collection_of w database collection)).
  destruct (assign_ids_run ds (heap w) used w3) as (w4 & Ea & Hc4); [|done|].
  { subst w3 w2. simpl. by rewrite Hh. }
  fold locs in Ea. rewrite Ea.
  destruct (fresh_docs_ids ds used) as [Habove Hsorted].
  destruct (bulk_insert_run database collection (fresh_docs used ds) w4) as (w5 & Eb & Hc5).
  - by apply strictly_sorted_NoDup.
  - rewrite (collection_of_colls w3 w4 _ _ Hc4), Hc3. fold used.
    eapply Forall_impl; [exact Habove|]. intros x Hx Hin.
    apply le_max_list in Hin. cbv beta in Hx. lia.
  - rewrite Eb. exists w5, (fresh_docs used ds).
    split; [done|]. split.
    + by rewrite Hc5, (collection_of_colls w3 w4 _ _ Hc4), Hc3.
    + split; [apply fresh_docs_bodies|]. split; done.
Qed.

(** *** Every partition, in the order the scheduler takes them *)

Lemma max_list_nonneg (used : list ObjectId) : (0 <= foldr Z.max 0 used)%Z.
Proof. induction used as [|u used IH]; simpl; lia. Qed.

Lemma appended_ids_NoDup (old new : list stored_doc) :
  NoDup (map doc_id old) ->
  Forall (fun x => (foldr Z.max 0 (map doc_id old) < doc_id x)%Z) new ->
  StronglySorted id_lt new ->
  NoDup (map doc_id (old ++ new)).
Proof.
  intros Hnd Habove Hsorted.
  rewrite map_app. apply NoDup_app. split; [done|]. split.
  - intros x Hx Hin.
    apply list_elem_of_In, in_map_iff in Hin as (y & <- & Hy).
    rewrite Forall_forall in Habove.
    specialize (Habove y (proj2 (list_elem_of_In _ _) Hy)). cbv beta in Habove.
    apply le_max_list in Hx. lia.
  - by apply strictly_sorted_NoDup.
Qed.

(** The documents at the addresses [values], when every address holds a
    document without [_id]. *)
Lemma documents_at (h : list pydoc_obj) (values : list nat) :
  Forall (fun l => exists d, h !! l = Some d /\ py_id d = None) values ->
  Forall2 (fun l d => h !! l = Some d) values (omap (fun l => h !! l) values)
  /\ Forall (fun d => py_id d = None) (omap (fun l => h !! l) values).
Proof.
  induction 1 as [|l values (d & Hl & Hd) _ [IH1 IH2]]; [split; constructor|].
  assert (E : omap (fun l => h !! l) (l :: values) = d :: omap (fun l => h !! l) values).
  { simpl. rewrite Hl. done. }
  rewrite E. split; constructor; done.
Qed.

Lemma omap_lookup (h : list pydoc_obj) (locs : list nat) (ds : list pydoc_obj) :
  Forall2 (fun l d => h !! l = Some d) locs ds ->
  omap (fun l => h !! l) locs = ds.
Proof.
  induction 1 as [|l d locs ds Hl _ IH]; [done|].
  simpl. rewrite Hl. simpl. f_equal. exact IH.
Qed.

Lemma omap_lookup_prefix (h h1 : list pydoc_obj) (locs : list nat) :
  take (length h) h1 = h ->
  Forall (fun l => exists d, h !! l = Some d /\ py_id d = None) locs ->
  omap (fun l => h1 !! l) locs = omap (fun l => h !! l) locs
  /\ Forall (fun l => exists d, h1 !! l = Some d /\ py_id d = None) locs.
Proof.
  intros Hp. induction 1 as [|l locs (d & Hl & Hd) _ [IH1 IH2]]; [split; [done|constructor]|].
  assert (Hl1 : h1 !! l = Some d).
  { rewrite <- Hp in Hl. by apply lookup_take_Some in Hl as [Hl _]. }
  split; [|constructor; eauto].
  simpl. rewrite Hl, Hl1. simpl. f_equal. exact IH1.
Qed.

(** The partitions of [bag] written one after the other: the collection
    gains one document per value, with a new, truthy identifier, and
    identifiers stay unique. *)
Lemma write_all_appends (bag : list (list nat)) (kw : kwargs)
    (database collection : string) (w : world) :
  valid_config kw = true ->
  Forall (fun values => values <> []) bag ->
  Forall (Forall (fun l => exists d, heap w !! l = Some d /\ py_id d = None)) bag ->
  NoDup (map doc_id (collection_of w database collection)) ->
  exists rs w1 new,
    mapM run_write_task (map (fun values => WriteTask values kw database collection) bag) w
    = (Ok rs, w1)
    /\ collection_of w1 database collection = collection_of w database collection ++ new
    /\ map doc_body new = map py_fields (omap (fun l => heap w !! l) (concat bag))
    /\ Forall (fun x => (0 < doc_id x)%Z) new
    /\ NoDup (map doc_id (collection_of w1 database collection)).
Proof.
  intros Hv. revert w. induction bag as [|values bag IH]; intros w Hne Hvals Hnd.
  - exists [], w, []. simpl. split; [done|]. split; [by rewrite app_nil_r|].
    split; [done|]. split; [constructor|done].
  - apply Forall_cons in Hne as [Hne1 Hne].
    apply Forall_cons in Hvals as [Hvals1 Hvals].
    destruct (documents_at (heap w) values Hvals1) as [Hds Hnone].
    set (ds := omap (fun l => heap w !! l) values) in *.
    destruct (write_mongo_appends values ds kw database collection w Hv Hne1 Hds Hnone)
      as (w1 & new1 & Ew & Hc & Hbodies & Habove & Hsorted).
    rewrite map_cons, mapM_cons_run. unfold run_write_task at 1. simpl wt_values.
    simpl wt_kwargs. simpl wt_database. simpl wt_collection. rewrite Ew.
    assert (Hnd1 : NoDup (map doc_id (collection_of w1 database collection))).
    { rewrite Hc. by apply appended_ids_NoDup. }
    pose proof (write_mongo_heap_prefix values kw database collection w) as Hp.
    rewrite Ew in Hp. simpl in Hp.
    assert (Hvals' : Forall (Forall (fun l => exists d, heap w1 !! l = Some d /\ py_id d = None))
                       bag).
    { eapply Forall_impl; [exact Hvals|]. intros vs Hvs.
      by destruct (omap_lookup_prefix (heap w) (heap w1) vs Hp Hvs). }
    destruct (IH w1 Hne Hvals' Hnd1) as (rs & w2 & new2 & Em & Hc2 & Hb2 & Hpos2 & Hnd2).
    rewrite Em. exists (tt :: rs), w2, (new1 ++ new2).
    split; [done|]. split; [by rewrite Hc2, Hc, <- app_assoc|].
    split; [|split; [|done]].
    + simpl concat. rewrite omap_app, !map_app, Hbodies, Hb2. f_equal. f_equal.
      apply omap_lookup_prefix; [done|]. by apply Forall_concat.
    + apply Forall_app. split; [|done].
      eapply Forall_impl; [exact Habove|]. intros x Hx. cbv beta in Hx.
      pose proof (max_list_nonneg (map doc_id (collection_of w database collection))). lia.
Qed.

Lemma scheduled_Permutation {A : Type} (choose : nat -> nat) (n step : nat) (l : list A) :
  n = length l -> scheduled choose step n l ≡ₚ l.
Proof.
  revert step l. induction n as [|n IH]; intros step l Hn.
  - by destruct l.
  - simpl.
    assert (Hi : choose step mod length l < length l).
    { apply Nat.mod_upper_bound. lia. }
    destruct (lookup_lt_is_Some_2 l _ Hi) as [x Hx]. rewrite Hx.
    etrans; [|symmetry; exact (delete_Permutation l _ x Hx)]. constructor.
    apply IH. rewrite length_delete by eauto. lia.
Qed.

Lemma scheduled_map {A B : Type} (g : A -> B) (choose : nat -> nat) (n step : nat)
    (l : list A) :
  scheduled choose step n (map g l) = map g (scheduled choose step n l).
Proof.
  revert step l. induction n as [|n IH]; intros step l; [done|].
  simpl. rewrite length_map.
  change (map g l) with (g <$> l). rewrite list_lookup_fmap.
  destruct (l !! (choose step mod length l)) as [x|]; [|done].
  simpl. f_equal. rewrite <- list_fmap_delete. apply IH.
Qed.

Lemma concat_Permutation {A : Type} (l1 l2 : list (list A)) :
  l1 ≡ₚ l2 -> concat l1 ≡ₚ concat l2.
Proof.
  induction 1 as [|x l1 l2 _ IH|x y l|l1 l2 l3 _ IH1 _ IH2]; simpl.
  - done.
  - by rewrite IH.
  - rewrite !app_assoc. f_equiv. apply Permutation_app_comm.
  - by etrans.
Qed.

(** The tasks of [to_mongo] as the scheduler orders them. *)
Lemma to_mongo_run (bag : list (list nat)) (kw : option kwargs)
    (database collection : string) (w : world) :
  to_mongo bag database collection kw true w
  = match mapM run_write_task
            (map (fun values => WriteTask values (default [] kw) database collection)
               (scheduled (scheduler w) 0 (length bag) bag)) w with
    | (Ok _, w1) => (Ok None, w1)
    | (Raise e, w1) => (Raise e, w1)
    end.
Proof.
  unfold to_mongo, compute_writes. rewrite !bind_run. unfold gets at 1. cbv beta iota.
  rewrite bind_run, length_map, scheduled_map.
  by destruct (mapM _ _ w) as [[rs|e] w1].
Qed.

(** [to_mongo] of a bag whose partitions all hold documents without [_id]:
    whatever the order of the scheduler, the collection gains the documents
    of the bag, each once. *)
Lemma to_mongo_appends (bag : list (list nat)) (kw : option kwargs)
    (database collection : string) (w : world) :
  valid_config (default [] kw) = true ->
  Forall (fun values => values <> []) bag ->
  Forall (Forall (fun l => exists d, heap w !! l = Some d /\ py_id d = None)) bag ->
  NoDup (map doc_id (collection_of w database collection)) ->
  exists w1 new,
    to_mongo bag database collection kw true w = (Ok None, w1)
    /\ collection_of w1 database collection = collection_of w database collection ++ new
    /\ map doc_body new ≡ₚ map py_fields (omap (fun l => heap w !! l) (concat bag))
    /\ Forall (fun x => (0 < doc_id x)%Z) new
    /\ NoDup (map doc_id (collection_of w1 database collection)).
Proof.
  intros Hv Hne Hvals Hnd.
  pose proof (scheduled_Permutation (scheduler w) (length bag) 0 bag eq_refl) as Hperm.
  set (order := scheduled (scheduler w) 0 (length bag) bag) in *.
  destruct (write_all_appends order (default [] kw) database collection w Hv)
    as (rs & w1 & new & Em & Hc & Hb & Hpos & Hnd1); [by rewrite Hperm..|done|].
  exists w1, new. rewrite to_mongo_run. fold order. rewrite Em.
  split; [done|]. split; [done|]. split; [|done].
  rewrite Hb. apply Permutation_map.
  apply omap_Permutation, concat_Permutation, Hperm.
Qed.

(** Round trip for a bag whose partitions all hold documents (none of them
    with an [_id] of its own), written to an empty collection: whatever the
    chunk size and the strategy of the read, the documents read back are the
    documents written, each once, up to the identifier the write added. *)
Lemma roundtrip_of_documents (bag : list (list nat)) (dss : list (list pydoc_obj))
    (kw : kwargs) (database collection : string) (chunksize : Z) (est pag : bool)
    (w : world) :
  valid_config kw = true ->
  bag <> [] ->
  Forall (fun values => values <> []) bag ->
  Forall2 (Forall2 (fun l d => heap w !! l = Some d)) bag dss ->
  Forall (Forall (fun d => py_id d = None)) dss ->
  collection_of w database collection = [] ->
  (0 < chunksize)%Z ->
  exists w1 b w2 fetched w3,
    to_mongo bag database collection (Some kw) true w = (Ok None, w1)
    /\ read_mongo database collection chunksize (Some kw) None est pag w1 = (Ok b, w2)
    /\ compute_bag b w2 = (Ok fetched, w3)
    /\ map doc_body fetched ≡ₚ map py_fields (concat dss).
Proof.
  intros Hv Hbag Hne Hvals Hnone Hempty Hc.
  assert (Hlocs : Forall (Forall (fun l => exists d, heap w !! l = Some d /\ py_id d = None))
                    bag).
  { clear -Hvals Hnone. induction Hvals as [|vs ds bag dss Hvs _ IH]; [constructor|].
    apply Forall_cons in Hnone as [Hds Hnone]. constructor; [|by apply IH].
    clear -Hvs Hds. induction Hvs as [|l d vs ds Hl _ IH]; [constructor|].
    apply Forall_cons in Hds as [Hd Hds]. constructor; [eauto|by apply IH]. }
  assert (Hat : omap (fun l => heap w !! l) (concat bag) = concat dss).
  { apply omap_lookup. clear -Hvals.
    induction Hvals as [|vs ds bag dss Hvs _ IH]; [constructor|].
    simpl. by apply Forall2_app. }
  destruct (to_mongo_appends bag (Some kw) database collection w Hv Hne Hlocs)
    as (w1 & new & Ew & Hdocs1 & Hbodies & Hpos & Hnd).
  { rewrite Hempty. constructor. }
  rewrite Hempty in Hdocs1. simpl in Hdocs1. rewrite Hat in Hbodies.
  set (docs := collection_of w1 database collection) in *.
  assert (Hall : List.filter (default match_all None) docs = docs).
  { apply filter_all. apply Forall_forall. done. }
  assert (Hdocs : docs <> []).
  { intros E0. rewrite Hdocs1 in E0. rewrite E0 in Hbodies. simpl in Hbodies.
    apply Permutation_nil in Hbodies.
    destruct bag as [|values bag']; [done|].
    apply Forall2_cons_inv_l in Hvals as (ds & dss' & Hds & _ & ->).
    apply Forall_cons in Hne as [Hne1 _].
    destruct values; [done|]. apply Forall2_cons_inv_l in Hds as (d & ds' & _ & _ & ->).
    done. }
  destruct (read_mongo_plan_once database collection chunksize (Some kw) None
              est pag w1 Hv Hnd Hc) as (w2 & wl & Er & Hcolls & Honce).
  { fold docs. by rewrite Hall. }
  { intros _. fold docs. rewrite Hdocs1.
    eapply Forall_impl; [exact Hpos|]. intros x Hx. cbv beta in Hx. unfold truthy.
    apply negb_true_iff, Z.eqb_neq. lia. }
  destruct (compute_tasks_gives_matched kw database collection match_all wl (length wl) w2 Hv)
    as (fetched & Ec & Hperm).
  { by rewrite (collection_of_colls w1 w2 database collection Hcolls). }
  rewrite (collection_of_colls w1 w2 database collection Hcolls) in Hperm.
  eexists w1, _, w2, fetched, w2.
  split; [exact Ew|]. split; [exact Er|]. split; [exact Ec|].
  fold docs in Hperm. simpl default in Hall. rewrite Hall in Hperm.
  rewrite <- Hbodies, <- Hdocs1. by apply Permutation_map.
Qed.

(** ** No path closes a client *)

Lemma mapM_call_weak (hs : list pycallable) (w : world) :
  Forall weak_hook hs -> snd (mapM call hs w) = w.
Proof.
  revert w. induction hs as [|f hs IH]; intros w Hweak; [done|].
  apply Forall_cons in Hweak as [[g ->] Hweak].
  rewrite mapM_cons_run.
  change (call (WeakMethod g) w)
    with (Ok (if existsb (Nat.eqb (referent_handle g)) (map snd (lru w)) then Some g else None), w).
  specialize (IH w Hweak). cbv beta iota.
  destruct (mapM call hs w) as [[rs|e] w1]; simpl in *; exact IH.
Qed.

(** The callables [_cache_inner] registers are weak references, and running
    them at exit changes nothing: no client is closed. *)
Lemma run_exitfuncs_closes_nothing (w : world) :
  Forall weak_hook (exit_hooks w) -> snd (run_exitfuncs w) = w.
Proof.
  intros Hweak. unfold run_exitfuncs. rewrite bind_run. unfold gets at 1.
  rewrite bind_run.
  pose proof (mapM_call_weak (rev (exit_hooks w)) w) as Hm.
  destruct (mapM call (rev (exit_hooks w)) w) as [[rs|e] w1]; simpl in *.
  - apply Hm. by apply Forall_rev.
  - apply Hm. by apply Forall_rev.
Qed.

Lemma get_client_registers_weak_hooks (kw : kwargs) (w : world) :
  Forall weak_hook (exit_hooks w) ->
  Forall weak_hook (exit_hooks (snd (_get_client kw w))).
Proof.
  intros Hweak. rewrite get_client_unfold.
  destruct (FrozenKwargs_hash kw); [|done].
  destruct (lru_take (make_key kw) (lru w)) as [[e rest]|]; [done|].
  destruct (existsb _ _); [done|]. simpl.
  apply Forall_app. split; [done|]. constructor; [|constructor]. by eexists.
Qed.

Lemma get_client_closes_nothing (kw : kwargs) (w : world) :
  map close_calls (clients (snd (_get_client kw w)))
  = map close_calls (clients w) ++
    (if decide (length (clients (snd (_get_client kw w))) = length (clients w))
     then [] else [0]).
Proof.
  rewrite get_client_unfold.
  destruct (FrozenKwargs_hash kw).
  - destruct (lru_take (make_key kw) (lru w)) as [[e rest]|].
    + simpl. rewrite decide_True by done. by rewrite app_nil_r.
    + destruct (existsb _ _); simpl.
      * rewrite decide_True by done. by rewrite app_nil_r.
      * rewrite length_app. simpl. rewrite decide_False by lia. by rewrite map_app.
  - simpl. rewrite decide_True by done. by rewrite app_nil_r.
Qed.

(** ** More on the connection cache *)

Lemma lru_take_split (key : cache_key) (es : list (cache_key * nat))
    (x : cache_key * nat) (rest : list (cache_key * nat)) :
  lru_take key es = Some (x, rest) ->
  exists l1 l2, es = l1 ++ x :: l2 /\ rest = l1 ++ l2.
Proof.
  revert x rest. induction es as [|a es IH]; intros x rest; simpl; [done|].
  destruct (key_matches (fst a) key).
  - intros [= <- <-]. by exists [], es.
  - destruct (lru_take key es) as [[y r]|]; [|done].
    intros [= <- <-]. destruct (IH y r eq_refl) as (l1 & l2 & -> & ->).
    by exists (a :: l1), l2.
Qed.

Lemma lru_take_finds (key : cache_key) (es : list (cache_key * nat)) (e : cache_key * nat) :
  e ∈ es -> key_matches (fst e) key = true ->
  exists x rest, lru_take key es = Some (x, rest).
Proof.
  induction es as [|a es IH]; intros Hin Hm; [by apply elem_of_nil in Hin|].
  simpl. destruct (key_matches (fst a) key) eqn:Ea; [eauto|].
  apply elem_of_cons in Hin as [->|Hin]; [congruence|].
  destruct (IH Hin Hm) as (x & rest & ->). eauto.
Qed.

Lemma removelast_lookup {A : Type} (l : list A) (i : nat) :
  i + 1 < length l -> removelast l !! i = l !! i.
Proof.
  revert i. induction l as [|a l IH]; intros i Hi; [simpl in Hi; lia|].
  destruct l as [|b l]; [simpl in Hi; lia|].
  change (removelast (a :: b :: l)) with (a :: removelast (b :: l)).
  destruct i as [|i]; [done|]. simpl. apply IH. simpl in *. lia.
Qed.

Lemma removelast_length_le {A : Type} (l : list A) :
  length (removelast l) = length l - 1.
Proof.
  induction l as [|a l IH]; [done|].
  destruct l as [|b l]; [done|].
  change (removelast (a :: b :: l)) with (a :: removelast (b :: l)).
  simpl length in *. rewrite IH. lia.
Qed.

(** The cache never holds more than [_CACHE_SIZE] clients, whatever is
    asked of it. *)
Theorem cache_stays_bounded (kws : list kwargs) (w : world) :
  length (lru w) <= _CACHE_SIZE ->
  length (lru (snd (get_clients kws w))) <= _CACHE_SIZE.
Proof.
  unfold get_clients. revert w. induction kws as [|kw kws IH]; intros w Hw; [done|].
  rewrite mapM_cons_run.
  assert (Hstep : length (lru (snd (_get_client kw w))) <= _CACHE_SIZE).
  { rewrite get_client_unfold.
    destruct (FrozenKwargs_hash kw); [|done].
    destruct (lru_take (make_key kw) (lru w)) as [[x rest]|] eqn:Et.
    - apply lru_take_split in Et as (l1 & l2 & E & ->). simpl.
      rewrite E, length_app in Hw. simpl in Hw. rewrite length_app. lia.
    - destruct (existsb _ _); [done|]. cbn -[Nat.leb removelast _CACHE_SIZE].
      destruct (Nat.leb _CACHE_SIZE (length (lru w))) eqn:El; cbn -[removelast _CACHE_SIZE].
      + rewrite removelast_length_le. apply Nat.leb_le in El.
        unfold _CACHE_SIZE in *. lia.
      + apply Nat.leb_gt in El. unfold _CACHE_SIZE in *. lia. }
  destruct (_get_client kw w) as [[h|e] w1]; simpl in Hstep; [|done].
  specialize (IH w1 Hstep).
  destruct (mapM _get_client kws w1) as [[hs|e] w2]; simpl in *; done.
Qed.

Lemma cache_stays_bounded_witness :
  length (lru (snd (get_clients seventeen_configs empty_world))) <= _CACHE_SIZE.
Proof.
  apply (cache_stays_bounded seventeen_configs empty_world).
  unfold _CACHE_SIZE. simpl. lia.
Defined.

(** A call opens at most one client, registers an exit hook exactly when
    it opens one, and leaves the clients opened before as they were. *)
Theorem get_client_opens_at_most_one (kw : kwargs) (w : world) :
  exists new,
    clients (snd (_get_client kw w)) = clients w ++ new
    /\ length new <= 1
    /\ length (exit_hooks (snd (_get_client kw w))) = length (exit_hooks w) + length new
    /\ (new <> [] -> fst (_get_client kw w) = Ok (length (clients w))).
Proof.
  rewrite get_client_unfold.
  destruct (FrozenKwargs_hash kw).
  - destruct (lru_take (make_key kw) (lru w)) as [[x rest]|].
    + exists []. simpl. rewrite app_nil_r. repeat split; try lia; done.
    + destruct (existsb _ _).
      * exists []. simpl. rewrite app_nil_r. repeat split; try lia; done.
      * exists [Client kw 0]. simpl. rewrite length_app. simpl. repeat split; lia.
  - exists []. simpl. rewrite app_nil_r. repeat split; try lia; done.
Qed.

Lemma set_lru_same (w : world) (es : list (cache_key * nat)) :
  lru w = es -> set_lru (fun _ => es) w = w.
Proof. destruct w. simpl. intros ->. reflexivity. Qed.

(** A hit on the entry at the front of the cache changes nothing. *)
Lemma get_client_hit_front (kw : kwargs) (w : world) (e : cache_key * nat)
    (rest : list (cache_key * nat)) :
  valid_config kw = true ->
  lru w = e :: rest ->
  key_matches (fst e) (make_key kw) = true ->
  _get_client kw w = (Ok (snd e), w).
Proof.
  intros Hv Hl Hm. rewrite get_client_unfold. unfold valid_config in Hv.
  destruct (FrozenKwargs_hash kw); [|done].
  rewrite Hl. simpl. rewrite Hm. by rewrite set_lru_same.
Qed.

(** Asking again for the configuration just asked for returns the same
    client and changes nothing: no client is opened, no hook registered,
    the cache keeps its order. *)
Theorem get_client_again_changes_nothing (kw : kwargs) (w : world) :
  valid_config kw = true ->
  wf_val (as_dict kw) = true ->
  exists h w1,
    _get_client kw w = (Ok h, w1) /\ _get_client kw w1 = (Ok h, w1).
Proof.
  intros Hv Hwf.
  destruct (get_client_front kw w Hv Hwf) as (h & w1 & e & rest & E & Hl & <- & Hm).
  exists (snd e), w1. split; [done|]. by apply (get_client_hit_front kw w1 e rest).
Qed.

Lemma get_client_again_witness :
  exists h w1,
    _get_client host_then_port empty_world = (Ok h, w1)
    /\ _get_client host_then_port w1 = (Ok h, w1).
Proof.
  apply (get_client_again_changes_nothing host_then_port empty_world); reflexivity.
Defined.

(** One call moves an entry of the cache back by at most one place, and
    keeps it as long as it is not the last of sixteen. *)
Lemma get_client_keeps_entry (kw : kwargs) (w : world) (i : nat) (e : cache_key * nat) :
  lru w !! i = Some e -> i < 15 ->
  exists i', i' <= S i /\ lru (snd (_get_client kw w)) !! i' = Some e.
Proof.
  intros Hi Hlt. rewrite get_client_unfold.
  destruct (FrozenKwargs_hash kw); [|exists i; split; [lia|done]].
  destruct (lru_take (make_key kw) (lru w)) as [[x rest]|] eqn:Et.
  - apply lru_take_split in Et as (l1 & l2 & E & ->). simpl.
    rewrite E in Hi.
    destruct (decide (i < length l1)) as [H1|H1].
    + exists (S i). split; [lia|]. simpl.
      rewrite lookup_app_l in Hi |- * by done. done.
    + rewrite lookup_app_r in Hi by lia.
      destruct (i - length l1) as [|j] eqn:Ej.
      * simpl in Hi. injection Hi as ->. exists 0. split; [lia|done].
      * simpl in Hi. exists i. split; [lia|].
        destruct i as [|i]; [lia|]. simpl.
        rewrite lookup_app_r by lia.
        by replace (i - length l1) with j by lia.
  - destruct (existsb _ _); [exists i; split; [lia|done]|].
    exists (S i). split; [lia|]. cbn -[Nat.leb removelast _CACHE_SIZE].
    destruct (Nat.leb _CACHE_SIZE (length (lru w))) eqn:El; [|done].
    apply Nat.leb_le in El. unfold _CACHE_SIZE in El.
    etrans; [apply removelast_lookup; lia|done].
Qed.

Lemma get_clients_keep_entry (kws : list kwargs) (w : world) (i : nat) (e : cache_key * nat) :
  lru w !! i = Some e -> i + length kws <= 15 ->
  exists i', lru (snd (get_clients kws w)) !! i' = Some e.
Proof.
  unfold get_clients. revert w i. induction kws as [|kw kws IH]; intros w i Hi Hlen.
  - exists i. done.
  - simpl in Hlen. rewrite mapM_cons_run.
    destruct (get_client_keeps_entry kw w i e Hi) as (i' & Hi' & He); [lia|].
    destruct (_get_client kw w) as [[h|ex] w1]; simpl in He; [|eauto].
    destruct (IH w1 i' He) as (i'' & He'); [lia|].
    destruct (mapM _get_client kws w1) as [[hs|ex] w2]; simpl in *; eauto.
Qed.

(** Least recently used, for real: a configuration asked for stays cached
    through the next fifteen calls, whatever they ask for; asking for it
    again after them is a hit and opens no client. *)
Theorem recently_used_stays_cached (kw : kwargs) (others : list kwargs) (w : world) :
  valid_config kw = true ->
  wf_val (as_dict kw) = true ->
  length others <= 15 ->
  exists h w3,
    _get_client kw (snd (get_clients others (snd (_get_client kw w)))) = (Ok h, w3)
    /\ clients w3 = clients (snd (get_clients others (snd (_get_client kw w)))).
Proof.
  intros Hv Hwf Hlen.
  destruct (get_client_front kw w Hv Hwf) as (h & w1 & e & rest & E & Hl & _ & Hm).
  rewrite E. simpl snd.
  destruct (get_clients_keep_entry others w1 0 e) as (i & Hi); [by rewrite Hl|lia|].
  set (w2 := snd (get_clients others w1)) in *.
  destruct (lru_take_finds (make_key kw) (lru w2) e) as (x & rest' & Et);
    [by eapply list_elem_of_lookup_2|done|].
  rewrite get_client_unfold. unfold valid_config in Hv.
  destruct (FrozenKwargs_hash kw); [|done].
  rewrite Et. eexists _, _. split; [reflexivity|done].
Qed.

Lemma recently_used_stays_cached_witness :
  exists h w3,
    _get_client host_then_port
      (snd (get_clients [port_int; hosts_list] (snd (_get_client host_then_port empty_world))))
    = (Ok h, w3)
    /\ clients w3
       = clients (snd (get_clients [port_int; hosts_list]
                         (snd (_get_client host_then_port empty_world)))).
Proof.
  apply (recently_used_stays_cached host_then_port [port_int; hosts_list] empty_world).
  - reflexivity.
  - reflexivity.
  - simpl. lia.
Defined.

(** After [_clear_cache], the hook run in a forked child, no client of the
    parent is handed out: the first call for any configuration opens a new
    client, which is then the only one cached.  Clearing closes nothing. *)
Theorem clear_cache_then_get_client_opens_new (kw : kwargs) (w : world) :
  valid_config kw = true ->
  clients (snd (_clear_cache w)) = clients w
  /\ exists w',
       _get_client kw (snd (_clear_cache w)) = (Ok (length (clients w)), w')
       /\ lru w' = [(make_key kw, length (clients w))]
       /\ clients w' = clients w ++ [Client kw 0].
Proof.
  intros Hv. split; [done|].
  rewrite get_client_unfold. unfold valid_config in Hv.
  destruct (FrozenKwargs_hash kw); [|done].
  apply negb_true_iff in Hv.
  change (lru (snd (_clear_cache w))) with (@nil (cache_key * nat)).
  cbn [lru_take]. rewrite Hv.
  eexists. split; [reflexivity|]. split; reflexivity.
Qed.

Lemma clear_cache_witness :
  clients (snd (_clear_cache (snd (_get_client port_int empty_world))))
  = clients (snd (_get_client port_int empty_world))
  /\ exists w',
       _get_client port_int (snd (_clear_cache (snd (_get_client port_int empty_world))))
       = (Ok (length (clients (snd (_get_client port_int empty_world)))), w')
       /\ lru w' = [(make_key port_int, length (clients (snd (_get_client port_int empty_world))))]
       /\ clients w' = clients (snd (_get_client port_int empty_world)) ++ [Client port_int 0].
Proof.
  apply (clear_cache_then_get_client_opens_new port_int
           (snd (_get_client port_int empty_world))).
  reflexivity.
Defined.

(** ** Which configurations the cache takes *)

Lemma recursive_tupling_hashable (v : pyval) :
  tuple_free v = true -> hashable (_recursive_tupling v) = true.
Proof.
  induction v as [| b | z | q | s | o | l IH | l IH | items IH] using pyval_nested_ind;
    simpl; intros Hfree; try done.
  - rewrite forallb_forall in Hfree. apply forallb_forall. intros y Hy.
    apply in_map_iff in Hy as (x & <- & Hx).
    rewrite Forall_forall in IH. apply IH; [by apply list_elem_of_In|by apply Hfree].
  - rewrite forallb_forall in Hfree. apply forallb_forall. intros y Hy.
    apply in_map_iff in Hy as (kv & <- & Hkv).
    rewrite Forall_forall in IH.
    destruct (IH kv (proj2 (list_elem_of_In _ _) Hkv)) as [IHk IHv].
    specialize (Hfree kv Hkv). apply andb_true_iff in Hfree as [Hk Hv].
    simpl. by rewrite IHk, IHv.
Qed.

(** Lists and mappings, nested to any depth, are made hashable: for a
    configuration whose values hold no tuple [_FrozenKwargs.__hash__] never
    raises, and the set it hashes holds one pair per key, with every list
    and mapping of the value turned into a tuple. *)
Theorem lists_and_mappings_are_hashable (kw : kwargs) :
  forallb (fun kv => tuple_free (snd kv)) kw = true ->
  FrozenKwargs_hash kw
  = Ok (map (fun kv => PTuple [PStr (fst kv); _recursive_tupling (snd kv)]) kw)
  /\ forallb hashable (map (fun kv => _recursive_tupling (snd kv)) kw) = true.
Proof.
  intros Hfree.
  assert (Hh : forallb hashable (map (fun kv => _recursive_tupling (snd kv)) kw) = true).
  { apply forallb_forall. intros y Hy.
    apply in_map_iff in Hy as (kv & <- & Hkv).
    rewrite forallb_forall in Hfree. by apply recursive_tupling_hashable, Hfree. }
  split; [|done].
  unfold FrozenKwargs_hash.
  assert (forallb hashable
            (map (fun kv => PTuple [_recursive_tupling (PStr (fst kv));
                                    _recursive_tupling (snd kv)]) kw) = true) as ->; [|done].
  apply forallb_forall. intros y Hy.
  apply in_map_iff in Hy as (kv & <- & Hkv).
  rewrite forallb_forall in Hfree. specialize (Hfree kv Hkv).
  simpl. by rewrite (recursive_tupling_hashable _ Hfree).
Qed.

Lemma lists_and_mappings_witness :
  FrozenKwargs_hash nested_lists
  = Ok (map (fun kv => PTuple [PStr (fst kv); _recursive_tupling (snd kv)]) nested_lists)
  /\ forallb hashable (map (fun kv => _recursive_tupling (snd kv)) nested_lists) = true.
Proof.
  apply (lists_and_mappings_are_hashable nested_lists). reflexivity.
Defined.

Lemma unhashable_tuple_hash (kw : kwargs) (k : string) (l : list pyval) :
  (k, PTuple l) ∈ kw -> forallb hashable l = false ->
  FrozenKwargs_hash kw = Raise TypeError.
Proof.
  intros Hin Hl. unfold FrozenKwargs_hash.
  assert (forallb hashable
            (map (fun kv => PTuple [_recursive_tupling (PStr (fst kv));
                                    _recursive_tupling (snd kv)]) kw) = false) as ->; [|done].
  apply not_true_is_false. intros Hall. rewrite forallb_forall in Hall.
  specialize (Hall (PTuple [PStr k; PTuple l])).
  simpl in Hall. rewrite Hl in Hall. simpl in Hall.
  assert (false = true); [|done]. apply Hall.
  apply in_map_iff. exists (k, PTuple l). split; [done|]. by apply list_elem_of_In.
Qed.

(** [_recursive_tupling] does not look inside a tuple.  A configuration
    with a tuple that holds a list, or anything else unhashable, is
    rejected with [TypeError] by every entry point, before a client is
    opened, a document copied or the server called. *)
Theorem tuple_holding_a_list_is_rejected (kw : kwargs) (k : string) (l : list pyval)
    (w : world) :
  (k, PTuple l) ∈ kw ->
  forallb hashable l = false ->
  _get_client kw w = (Raise TypeError, w)
  /\ (forall values database collection,
        write_mongo values kw database collection w = (Raise TypeError, w))
  /\ (forall database collection m id_min id_max include_last,
        fetch_mongo kw database collection m id_min id_max include_last w
        = (Raise TypeError, w))
  /\ (forall database collection chunksize m est pag,
        read_mongo database collection chunksize (Some kw) m est pag w
        = (Raise TypeError, w)).
Proof.
  intros Hin Hl.
  assert (Hg : _get_client kw w = (Raise TypeError, w)).
  { rewrite get_client_unfold. by rewrite (unhashable_tuple_hash kw k l Hin Hl). }
  split; [done|]. split; [|split].
  - intros. unfold write_mongo. by rewrite bind_run, Hg.
  - intros. unfold fetch_mongo. by rewrite bind_run, Hg.
  - intros. unfold read_mongo. simpl default. by rewrite bind_run, Hg.
Qed.

Lemma tuple_holding_a_list_witness :
  _get_client list_in_tuple empty_world = (Raise TypeError, empty_world)
  /\ (forall values database collection,
        write_mongo values list_in_tuple database collection empty_world
        = (Raise TypeError, empty_world))
  /\ (forall database collection m id_min id_max include_last,
        fetch_mongo list_in_tuple database collection m id_min id_max include_last empty_world
        = (Raise TypeError, empty_world))
  /\ (forall database collection chunksize m est pag,
        read_mongo database collection chunksize (Some list_in_tuple) m est pag empty_world
        = (Raise TypeError, empty_world)).
Proof.
  apply (tuple_holding_a_list_is_rejected list_in_tuple "hosts" [PList [PStr "a"]] empty_world).
  - apply list_elem_of_here.
  - reflexivity.
Defined.

(** ** The read side leaves the server alone *)

Lemma bind_reads_only_r {A B : Type} (m : M A) (f : A -> M B) (w : world) :
  (forall a, reads_only (f a)) -> snd ((m ≫= f) w) = snd (m w).
Proof.
  intros Hf. rewrite bind_run. destruct (m w) as [[a|e] w1]; [apply Hf|done].
Qed.

Lemma reads_only_bind {A B : Type} (m : M A) (f : A -> M B) :
  reads_only m -> (forall a, reads_only (f a)) -> reads_only (m ≫= f).
Proof. intros Hm Hf w. rewrite bind_reads_only_r by done. apply Hm. Qed.

Lemma reads_only_ret {A : Type} (a : A) : reads_only (mret a : M A).
Proof. by intros w. Qed.

Lemma reads_only_raise {A : Type} (e : pyexc) : reads_only (raise e : M A).
Proof. by intros w. Qed.

Lemma reads_only_lift {A : Type} (r : result A) : reads_only (lift r).
Proof. by intros w. Qed.

Lemma reads_only_coll_documents (database collection : string) :
  reads_only (coll_documents database collection).
Proof. by intros w. Qed.

Lemma reads_only_aggregate_count (database collection : string) (mq : query) :
  reads_only (aggregate_count database collection mq).
Proof. intros w. by rewrite aggregate_count_run. Qed.

Lemma reads_only_aggregate_bucketAuto (database collection : string) (mq : query) (k : Z) :
  reads_only (aggregate_bucketAuto database collection mq k).
Proof.
  intros w. unfold aggregate_bucketAuto. rewrite bind_run, coll_documents_run.
  by destruct (k <=? 0)%Z.
Qed.

(** After the client is obtained, [read_mongo] only reads. *)
Lemma read_mongo_state (database collection : string) (chunksize : Z)
    (kw : option kwargs) (m : option query) (est pag : bool) (w : world) :
  snd (read_mongo database collection chunksize kw m est pag w)
  = snd (_get_client (default [] kw) w).
Proof.
  unfold read_mongo. apply bind_reads_only_r. intros _.
  apply reads_only_bind.
  { destruct est; [by intros w0|].
    apply reads_only_bind; [apply reads_only_aggregate_count|]. intros a.
    apply reads_only_lift. }
  intros nrows. apply reads_only_bind.
  { destruct (chunksize =? 0)%Z; [apply reads_only_raise|apply reads_only_ret]. }
  intros np. apply reads_only_bind; [|intros ps; apply reads_only_ret].
  destruct pag; [|apply reads_only_aggregate_bucketAuto].
  apply reads_only_bind; [by intros w0|]. intros cursor.
  apply reads_only_bind; [by intros w0|]. intros first.
  apply reads_only_bind.
  { destruct first; [apply reads_only_ret|apply reads_only_raise]. }
  intros prev.
  destruct (paginate_loop nrows chunksize 0 cursor prev [] None) as [[p ps] [d|]];
    destruct (truthy p); try apply reads_only_ret; apply reads_only_raise.
Qed.

Lemma fetch_mongo_state (kw : kwargs) (database collection : string) (mq : query)
    (id_min id_max : ObjectId) (include_last : bool) (w : world) :
  snd (fetch_mongo kw database collection mq id_min id_max include_last w)
  = snd (_get_client kw w).
Proof.
  unfold fetch_mongo. apply bind_reads_only_r. intros _.
  apply reads_only_bind; [apply reads_only_coll_documents|]. intros docs.
  apply reads_only_ret.
Qed.

Lemma in_worker_fetch_frame (t : fetch_task) (w : world) :
  colls (snd (in_worker (run_fetch_task t) w)) = colls w
  /\ heap (snd (in_worker (run_fetch_task t) w)) = heap w
  /\ insert_many_calls (snd (in_worker (run_fetch_task t) w)) = insert_many_calls w.
Proof.
  unfold in_worker.
  set (w0 := World [] [] [] (heap w) (colls w) (insert_many_calls w) (scheduler w)).
  pose proof (fetch_mongo_state (ft_kwargs t) (ft_database t) (ft_collection t)
                (ft_match t) (ft_id_min t) (ft_id_max t) (ft_include_last t) w0) as Hf.
  pose proof (get_client_frame (ft_kwargs t) w0) as (Hc & _ & Hi).
  fold (run_fetch_task t) in Hf. rewrite <- Hf in Hc, Hi.
  destruct (run_fetch_task t w0) as [r w1]. simpl in *. done.
Qed.

(** Planning a read and computing any graph of fetch tasks never writes:
    the collections of the server, the documents on the heap and the list
    of [insert_many] calls are as before, also when an exception is
    raised. *)
Theorem read_side_never_writes
    (database collection : string) (chunksize : Z) (kw : option kwargs)
    (m : option query) (est pag : bool) (b : Bag) (w : world) :
  (colls (snd (read_mongo database collection chunksize kw m est pag w)) = colls w
   /\ heap (snd (read_mongo database collection chunksize kw m est pag w)) = heap w
   /\ insert_many_calls (snd (read_mongo database collection chunksize kw m est pag w))
      = insert_many_calls w)
  /\ (colls (snd (compute_bag b w)) = colls w
      /\ heap (snd (compute_bag b w)) = heap w
      /\ insert_many_calls (snd (compute_bag b w)) = insert_many_calls w).
Proof.
  split.
  - rewrite read_mongo_state. apply get_client_frame.
  - unfold compute_bag. rewrite bind_reads_only_r by (intros a; apply reads_only_ret).
    generalize (dsk b). intros ts. revert w.
    induction ts as [|t ts IH]; intros w; [done|].
    rewrite mapM_cons_run.
    pose proof (in_worker_fetch_frame t w) as (Hc & Hh & Hi).
    destruct (in_worker (run_fetch_task t) w) as [[docs|e] w1]; simpl in Hc, Hh, Hi; [|done].
    destruct (IH w1) as (Hc2 & Hh2 & Hi2).
    destruct (mapM _ ts w1) as [[ds|e] w2]; simpl in *;
      repeat split; congruence.
Qed.

(** ** One call to the cache serves the planning *)

Lemma get_client_new_clients (kw : kwargs) (w : world) :
  exists new,
    clients (snd (_get_client kw w)) = clients w ++ new /\ length new <= 1.
Proof.
  rewrite get_client_unfold.
  destruct (FrozenKwargs_hash kw).
  - destruct (lru_take (make_key kw) (lru w)) as [[x rest]|].
    + exists []. simpl. rewrite app_nil_r. split; [done|lia].
    + destruct (existsb _ _).
      * exists []. simpl. rewrite app_nil_r. split; [done|lia].
      * exists [Client kw 0]. simpl. split; [done|lia].
  - exists []. simpl. rewrite app_nil_r. split; [done|lia].
Qed.

(** [read_mongo] leaves the calling process as one [_get_client] call for
    its configuration leaves it, whatever it counts, scans and plans and
    also when it raises: at most one client is opened, and the clients
    opened before are as they were. *)
Theorem read_mongo_opens_at_most_one_client
    (database collection : string) (chunksize : Z) (kw : option kwargs)
    (m : option query) (est pag : bool) (w : world) :
  snd (read_mongo database collection chunksize kw m est pag w)
  = snd (_get_client (default [] kw) w)
  /\ exists new,
       clients (snd (read_mongo database collection chunksize kw m est pag w))
       = clients w ++ new
       /\ length new <= 1.
Proof.
  rewrite read_mongo_state. split; [done|]. apply get_client_new_clients.
Qed.

(** ** The descriptors form a chain *)

Lemma bounds_of_head (lo : ObjectId) (c : list stored_doc) (rest : list (list stored_doc)) :
  exists hi ps, bounds_of lo (c :: rest) = Partition lo hi :: ps.
Proof. simpl. destruct rest; eauto. Qed.

Lemma with_last_head (p : partition) (ps : list partition) :
  exists b tl, with_last (p :: ps) = (p, b) :: tl.
Proof. simpl. destruct ps; eauto. Qed.

Lemma bounds_contiguous (kw : kwargs) (database collection : string) (mq : query)
    (chunks : list (list stored_doc)) (lo : ObjectId) :
  Forall (fun c => c <> []) chunks ->
  StronglySorted id_lt (concat chunks) ->
  (lo <= head_id (concat chunks))%Z ->
  contiguous (map (task_of kw database collection mq) (with_last (bounds_of lo chunks)))
  = true.
Proof.
  revert lo. induction chunks as [|c rest IH]; intros lo Hne Hs Hlo; [done|].
  apply Forall_cons in Hne as [Hc Hne].
  destruct c as [|d0 c0]; [done|].
  simpl in Hs, Hlo.
  pose proof (StronglySorted_app_1_l _ (d0 :: c0) _ Hs) as Hsc.
  destruct rest as [|c' rest'].
  - simpl. apply Z.leb_le.
    pose proof (le_last_id (d0 :: c0) d0 Hsc (list_elem_of_here _ _)) as Hl.
    simpl in Hl. lia.
  - apply Forall_cons in Hne as Hne'. destruct Hne' as [Hc' _].
    destruct c' as [|d1 c1]; [done|].
    change (bounds_of lo ((d0 :: c0) :: (d1 :: c1) :: rest'))
      with (Partition lo (doc_id d1) :: bounds_of (doc_id d1) ((d1 :: c1) :: rest')).
    specialize (IH (doc_id d1) Hne (StronglySorted_app_1_r _ (d0 :: c0) _ Hs)).
    destruct (bounds_of_head (doc_id d1) (d1 :: c1) rest') as (hi & ps & Eb).
    rewrite Eb in IH |- *.
    destruct (with_last_head (Partition (doc_id d1) hi) ps) as (b & tl & Ew).
    change (with_last (Partition lo (doc_id d1) :: Partition (doc_id d1) hi :: ps))
      with ((Partition lo (doc_id d1), false) :: with_last (Partition (doc_id d1) hi :: ps)).
    rewrite Ew in IH |- *.
    cbn [map] in IH |- *.
    change (contiguous (?t :: ?t' :: ?r))
      with (negb (ft_include_last t) && (ft_id_min t <? ft_id_max t)%Z
            && (ft_id_max t =? ft_id_min t')%Z && contiguous (t' :: r)).
    rewrite IH by (simpl; lia). simpl.
    rewrite Z.eqb_refl, andb_true_r, andb_true_r. apply Z.ltb_lt.
    assert (Hlt : id_lt d0 d1).
    { apply (StronglySorted_app_1_elem_of id_lt (d0 :: c0) (concat ((d1 :: c1) :: rest')));
        [exact Hs|apply list_elem_of_here|simpl; apply list_elem_of_here]. }
    unfold id_lt in Hlt. lia.
Qed.

Lemma contiguous_removelast (kw : kwargs) (database collection : string) (mq : query)
    (ps : list partition) :
  contiguous (map (task_of kw database collection mq) (with_last ps)) = true ->
  contiguous (map (task_of kw database collection mq) (with_last (removelast ps))) = true.
Proof.
  induction ps as [|p ps IH]; [done|].
  destruct ps as [|p' ps]; [done|]. intros H.
  change (with_last (p :: p' :: ps)) with ((p, false) :: with_last (p' :: ps)) in H.
  destruct (with_last_head p' ps) as (b & tl & Ew).
  pose proof H as H'. rewrite Ew in H'. cbn [map] in H'.
  change (contiguous (?t :: ?t' :: ?r))
    with (negb (ft_include_last t) && (ft_id_min t <? ft_id_max t)%Z
          && (ft_id_max t =? ft_id_min t')%Z && contiguous (t' :: r)) in H'.
  apply andb_true_iff in H' as [H' H3]. apply andb_true_iff in H' as [H' H2].
  apply andb_true_iff in H' as [_ H1]. simpl in H1, H2.
  assert (Hrest : contiguous (map (task_of kw database collection mq)
                                (with_last (p' :: ps))) = true).
  { rewrite Ew. exact H3. }
  specialize (IH Hrest).
  change (removelast (p :: p' :: ps)) with (p :: removelast (p' :: ps)).
  destruct ps as [|p'' ps].
  - simpl. apply Z.leb_le. apply Z.ltb_lt in H1. lia.
  - change (removelast (p' :: p'' :: ps)) with (p' :: removelast (p'' :: ps)) in IH |- *.
    change (with_last (p :: p' :: ?r)) with ((p, false) :: with_last (p' :: r)).
    destruct (with_last_head p' (removelast (p'' :: ps))) as (b' & tl' & Ew').
    rewrite Ew' in IH |- *. cbn [map] in IH |- *.
    change (contiguous (?t :: ?t' :: ?r))
      with (negb (ft_include_last t) && (ft_id_min t <? ft_id_max t)%Z
            && (ft_id_max t =? ft_id_min t')%Z && contiguous (t' :: r)).
    rewrite IH. simpl. by rewrite H1, H2.
Qed.

(** The descriptors the planner returns are in ascending order and leave
    no gap: each one ends where the next starts and has its upper bound
    excluded, and only the last has its upper bound included. *)
Theorem read_mongo_descriptors_contiguous
    (database collection : string) (chunksize : Z) (kw : option kwargs)
    (m : option query) (est pag : bool) (w : world) :
  valid_config (default [] kw) = true ->
  NoDup (map doc_id (collection_of w database collection)) ->
  (0 < chunksize)%Z ->
  List.filter (default match_all m) (collection_of w database collection) <> [] ->
  exists bag w',
    read_mongo database collection chunksize kw m est pag w = (Ok bag, w')
    /\ contiguous (dsk bag) = true
    /\ length (dsk bag) = npartitions bag.
Proof.
  intros Hv Hnd Hc Hne.
  destruct (read_mongo_plan_gen database collection chunksize kw m est pag w Hv Hnd Hc Hne)
    as (w' & lo & chunks & Er & _ & Hchunks & Hconcat & Hlo & _).
  eexists _, w'. split; [exact Er|]. simpl dsk. simpl npartitions. split.
  - assert (Hchain : contiguous
                       (map (task_of (default [] kw) database collection (default match_all m))
                          (with_last (bounds_of lo chunks))) = true).
    { apply bounds_contiguous.
      + done.
      + rewrite Hconcat. by apply cursor_sorted.
      + by rewrite Hconcat. }
    unfold planned. destruct (pag && _); [|exact Hchain].
    by apply contiguous_removelast.
  - by rewrite length_map, with_last_length.
Qed.

Lemma read_mongo_descriptors_contiguous_witness :
  exists bag w',
    read_mongo "db" "c" 2 None None false false five_documents_world = (Ok bag, w')
    /\ contiguous (dsk bag) = true
    /\ length (dsk bag) = npartitions bag.
Proof.
  apply (read_mongo_descriptors_contiguous "db" "c" 2 None None false false
           five_documents_world).
  - reflexivity.
  - apply (bool_decide_unpack (NoDup [5; 3; 9; 1; 7]%Z)). vm_compute. exact I.
  - lia.
  - discriminate.
Defined.

(** ** The scan and its two numbers *)

Lemma mod_opp_zero (a c : Z) : ((a mod (- c) =? 0) = (a mod c =? 0))%Z.
Proof.
  destruct (decide (c = 0%Z)) as [->|Hc]; [done|].
  apply eq_true_iff_eq. rewrite !Z.eqb_eq.
  rewrite !Z.mod_divide by lia. apply Z.divide_opp_l.
Qed.

Lemma paginate_loop_sign (nrows chunksize : Z) (cursor : list stored_doc) (idx : Z)
    (prev : ObjectId) (parts : list partition) (doc : option stored_doc) :
  paginate_loop nrows (- chunksize) idx cursor prev parts doc
  = paginate_loop nrows chunksize idx cursor prev parts doc.
Proof.
  revert idx prev parts doc. induction cursor as [|d cursor IH]; intros; [done|].
  cbn [paginate_loop]. rewrite mod_opp_zero, !IH. done.
Qed.

(** The paginated scan never checks the sign of [chunksize]: it only tests
    [idx % chunksize == 0], so a negative chunk size plans the tasks and the
    partition count that its absolute value plans, and fails where that
    fails. *)
Theorem paginated_scan_ignores_sign
    (database collection : string) (chunksize : Z) (kw : option kwargs)
    (m : option query) (est : bool) (w : world) :
  read_mongo database collection (- chunksize) kw m est true w
  = read_mongo database collection chunksize kw m est true w.
Proof.
  unfold read_mongo. rewrite !bind_run.
  destruct (_get_client (default [] kw) w) as [[h|e] w1]; [|done].
  rewrite !bind_run.
  destruct ((if est then estimated_document_count database collection
             else aggregate_count database collection (default match_all m)
                  ≫= fun counts => lift (next counts)) w1) as [[nrows|e] w2]; [|done].
  rewrite !bind_run.
  replace (- chunksize =? 0)%Z with (chunksize =? 0)%Z
    by (apply eq_true_iff_eq; rewrite !Z.eqb_eq; lia).
  destruct (chunksize =? 0)%Z; [done|].
  rewrite !ret_run. cbv beta iota.
  rewrite !bind_run.
  destruct (find_sorted database collection (default match_all m) w2) as [[cursor|e] w3];
    [|done].
  rewrite !bind_run.
  destruct (find_one_sorted database collection w3) as [[first|e] w4]; [|done].
  rewrite !bind_run.
  destruct (match first with Some d => mret (doc_id d) | None => raise TypeError end w4)
    as [[prev|e] w5]; [|done].
  by rewrite paginate_loop_sign.
Qed.

(** The scan stops at index [nrows]: what the cursor holds beyond the
    document at that index has no part in the plan. *)
Theorem paginate_loop_stops_at_count (nrows chunksize : Z) (cursor : list stored_doc)
    (idx : Z) (prev : ObjectId) (parts : list partition) (doc : option stored_doc) :
  paginate_loop nrows chunksize idx cursor prev parts doc
  = paginate_loop nrows chunksize idx (take (Z.to_nat (nrows - idx) + 1) cursor)
      prev parts doc.
Proof.
  revert idx prev parts doc. induction cursor as [|d cursor IH]; intros.
  - by rewrite take_nil.
  - replace (Z.to_nat (nrows - idx) + 1) with (S (Z.to_nat (nrows - idx))) by lia.
    cbn [take paginate_loop].
    destruct (nrows <=? idx)%Z eqn:El; [done|].
    apply Z.leb_gt in El.
    assert (Et : Z.to_nat (nrows - idx) = Z.to_nat (nrows - (idx + 1)) + 1) by lia.
    rewrite Et.
    destruct ((idx mod chunksize =? 0)%Z && (0 <? idx)%Z); apply IH.
Qed.

(** ** The bucket strategy: how many partitions *)

Lemma count_step_run (database collection : string) (mq : query) (est : bool) (w : world) :
  (if est then estimated_document_count database collection
   else aggregate_count database collection mq ≫= fun counts => lift (next counts)) w
  = (counted_rows est mq (collection_of w database collection), w).
Proof.
  unfold counted_rows. destruct est; [reflexivity|].
  rewrite bind_run, aggregate_count_run.
  by destruct (List.filter mq (collection_of w database collection)).
Qed.

Lemma counted_rows_nonneg (est : bool) (mq : query) (docs : list stored_doc) (nrows : Z) :
  counted_rows est mq docs = Ok nrows -> (0 <= nrows)%Z.
Proof.
  unfold counted_rows. destruct est; [intros [= <-]; lia|].
  destruct (List.filter mq docs); [done|]. intros [= <-]. lia.
Qed.

Lemma read_mongo_buckets_run (database collection : string) (chunksize : Z)
    (kw : option kwargs) (m : option query) (est : bool) (w : world) (nrows : Z) :
  let docs := collection_of w database collection in
  let mq := default match_all m in
  let sorted := merge_sort id_le (List.filter mq docs) in
  let k := Z.to_nat (ceil_div nrows chunksize) in
  let ps := bucket_bounds (bucket_chunks (approx_bucket_size (length sorted) k) k sorted) in
  valid_config (default [] kw) = true ->
  counted_rows est mq docs = Ok nrows ->
  chunksize <> 0%Z ->
  fst (read_mongo database collection chunksize kw m est false w)
  = if (ceil_div nrows chunksize <=? 0)%Z then Raise OperationFailure
    else Ok (MkBag (map (task_of (default [] kw) database collection mq) (with_last ps))
               (length ps)).
Proof.
  intros docs mq sorted k ps Hv Hn Hc.
  destruct (get_client_run (default [] kw) w Hv) as (h & w1 & E & Hcolls & _).
  unfold read_mongo. rewrite bind_run, E, bind_run, count_step_run.
  rewrite (collection_of_colls w w1 _ _ Hcolls). fold docs mq. rewrite Hn.
  rewrite bind_run.
  assert ((chunksize =? 0)%Z = false) as -> by lia.
  rewrite ret_run, bind_run.
  destruct (ceil_div nrows chunksize <=? 0)%Z eqn:Eb.
  - unfold aggregate_bucketAuto. rewrite bind_run, coll_documents_run, Eb. done.
  - rewrite aggregate_bucketAuto_run by lia. cbv zeta.
    rewrite (collection_of_colls w w1 _ _ Hcolls). fold docs mq sorted k ps.
    rewrite ret_run. simpl fst. f_equal. f_equal.
    tasks_with_last. done.
Qed.

Lemma bucket_chunks_length (size buckets : nat) (l : list stored_doc) :
  length (bucket_chunks size buckets l) <= buckets
  /\ (0 < buckets -> l <> [] -> 1 <= length (bucket_chunks size buckets l)).
Proof.
  revert l. induction buckets as [|b IH]; intros l; simpl; [split; lia|].
  destruct l as [|d l]; [split; [simpl; lia|done]|].
  destruct (Nat.eqb b 0); simpl; [split; lia|].
  destruct (IH (skipn size (d :: l))) as [IH1 _]. split; lia.
Qed.

Lemma bucket_bounds_length (chunks : list (list stored_doc)) :
  Forall (fun c => c <> []) chunks -> length (bucket_bounds chunks) = length chunks.
Proof.
  induction 1 as [|c rest Hc _ IH]; [done|].
  destruct c as [|d c']; [done|]. simpl. by rewrite IH.
Qed.

(** With the bucket strategy [chunksize] bounds the number of partitions
    from above: the planner asks the server for
    [ceil(nrows / chunksize)] buckets and gets at least one and at most
    that many, each one a task of the graph. *)
Theorem bucket_strategy_partition_count
    (database collection : string) (chunksize : Z) (kw : option kwargs)
    (m : option query) (est : bool) (w : world) (nrows : Z) :
  valid_config (default [] kw) = true ->
  (0 < chunksize)%Z ->
  List.filter (default match_all m) (collection_of w database collection) <> [] ->
  counted_rows est (default match_all m) (collection_of w database collection) = Ok nrows ->
  exists bag,
    fst (read_mongo database collection chunksize kw m est false w) = Ok bag
    /\ 1 <= npartitions bag
    /\ (Z.of_nat (npartitions bag) <= ceil_div nrows chunksize)%Z
    /\ length (dsk bag) = npartitions bag.
Proof.
  intros Hv Hc Hne Hn.
  assert (Hpos : (0 < nrows)%Z).
  { revert Hn. unfold counted_rows. destruct est.
    - intros [= <-].
      destruct (collection_of w database collection); [done|simpl; lia].
    - destruct (List.filter _ _); [done|]. intros [= <-]. simpl. lia. }
  pose proof (ceil_div_pos nrows chunksize Hpos Hc) as Hk.
  rewrite (read_mongo_buckets_run database collection chunksize kw m est w nrows Hv Hn)
    by lia.
  assert ((ceil_div nrows chunksize <=? 0)%Z = false) as -> by lia.
  eexists. split; [reflexivity|]. simpl dsk. simpl npartitions.
  set (sorted := merge_sort id_le _).
  set (k := Z.to_nat (ceil_div nrows chunksize)).
  set (size := approx_bucket_size (length sorted) k).
  assert (Hsize : 0 < size) by (unfold size, approx_bucket_size; lia).
  rewrite (bucket_bounds_length _ (bucket_chunks_nonempty size k sorted Hsize)).
  destruct (bucket_chunks_length size k sorted) as [Hle Hge].
  assert (Hs : sorted <> []).
  { intros Hs. apply Hne. apply Permutation_nil_r.
    rewrite <- Hs. unfold sorted. symmetry. apply merge_sort_Permutation. }
  split; [apply Hge; [lia|done]|]. split; [lia|].
  rewrite length_map, with_last_length.
  apply bucket_bounds_length, bucket_chunks_nonempty, Hsize.
Qed.

Lemma bucket_strategy_partition_count_witness :
  exists bag,
    fst (read_mongo "db" "c" 2 None None false false five_documents_world) = Ok bag
    /\ 1 <= npartitions bag
    /\ (Z.of_nat (npartitions bag) <= ceil_div 5 2)%Z
    /\ length (dsk bag) = npartitions bag.
Proof.
  apply (bucket_strategy_partition_count "db" "c" 2 None None false five_documents_world 5).
  - reflexivity.
  - lia.
  - discriminate.
  - reflexivity.
Defined.

(** With the bucket strategy a negative [chunksize] is not caught by the
    planner: the bucket count it computes is zero or negative, and the
    read ends in the server's [OperationFailure]. *)
Theorem bucket_strategy_negative_chunksize_fails
    (database collection : string) (chunksize : Z) (kw : option kwargs)
    (m : option query) (est : bool) (w : world) :
  valid_config (default [] kw) = true ->
  (chunksize < 0)%Z ->
  est = true
  \/ List.filter (default match_all m) (collection_of w database collection) <> [] ->
  fst (read_mongo database collection chunksize kw m est false w) = Raise OperationFailure.
Proof.
  intros Hv Hc Hcount.
  assert (exists nrows,
            counted_rows est (default match_all m) (collection_of w database collection)
            = Ok nrows) as [nrows Hn].
  { unfold counted_rows. destruct Hcount as [->|Hne]; [eauto|].
    destruct est; [eauto|].
    destruct (List.filter _ _); [done|eauto]. }
  rewrite (read_mongo_buckets_run database collection chunksize kw m est w nrows Hv Hn)
    by lia.
  pose proof (counted_rows_nonneg _ _ _ _ Hn) as H0.
  assert ((ceil_div nrows chunksize <=? 0)%Z = true) as ->; [|done].
  apply Z.leb_le. unfold ceil_div.
  assert (0 <= - nrows / chunksize)%Z; [|lia].
  rewrite <- (Z.opp_involutive chunksize), Z.div_opp_opp by lia.
  apply Z.div_pos; lia.
Qed.

Lemma bucket_strategy_negative_chunksize_witness :
  fst (read_mongo "db" "c" (-2) None None false false five_documents_world)
  = Raise OperationFailure.
Proof.
  apply (bucket_strategy_negative_chunksize_fails "db" "c" (-2) None None false
           five_documents_world).
  - reflexivity.
  - lia.
  - right. discriminate.
Defined.

(** ** The write: what reaches the collection *)

(** [write_mongo] of a non-empty partition of documents without [_id]
    succeeds and appends one stored document per value, in order, with the
    entries of the value; the identifiers the driver assigns keep the
    identifiers of the collection unique. *)
Theorem write_mongo_stores_every_value (values : list loc) (ds : list pydoc_obj)
    (kw : kwargs) (database collection : string) (w : world) :
  valid_config kw = true ->
  values <> [] ->
  Forall2 (fun l d => heap w !! l = Some d) values ds ->
  Forall (fun d => py_id d = None) ds ->
  NoDup (map doc_id (collection_of w database collection)) ->
  exists w1 new,
    write_mongo values kw database collection w = (Ok tt, w1)
    /\ collection_of w1 database collection = collection_of w database collection ++ new
    /\ map doc_body new = map py_fields ds
    /\ NoDup (map doc_id (collection_of w1 database collection)).
Proof.
  intros Hv Hne Hvals Hnone Hnd.
  destruct (write_mongo_appends values ds kw database collection w Hv Hne Hvals Hnone)
    as (w1 & new & Ew & Hc & Hbodies & Habove & Hsorted).
  exists w1, new. split; [done|]. split; [done|]. split; [done|].
  rewrite Hc. by apply appended_ids_NoDup.
Qed.

Lemma write_mongo_stores_every_value_witness :
  exists w1 new,
    write_mongo [0; 1] [] "db" "c" three_values_world = (Ok tt, w1)
    /\ collection_of w1 "db" "c" = collection_of three_values_world "db" "c" ++ new
    /\ map doc_body new = map py_fields [PyDoc None [("a", PInt 1)]; PyDoc None [("a", PInt 2)]]
    /\ NoDup (map doc_id (collection_of w1 "db" "c")).
Proof.
  apply (write_mongo_stores_every_value [0; 1]
           [PyDoc None [("a", PInt 1)]; PyDoc None [("a", PInt 2)]] [] "db" "c"
           three_values_world).
  - reflexivity.
  - discriminate.
  - repeat constructor.
  - repeat constructor.
  - apply (bool_decide_unpack (NoDup [5; 3; 9; 1; 7]%Z)). vm_compute. exact I.
Defined.

(** [to_mongo] with [compute=True] writes every partition, in whatever
    order the scheduler takes them: the documents stored before stay where
    they are, the collection gains the documents of the whole bag, each
    once, and its identifiers stay unique.  Without [connection_kwargs] the
    client is opened with no options. *)
Theorem to_mongo_writes_every_partition (bag : list (list loc)) (kw : option kwargs)
    (database collection : string) (w : world) :
  valid_config (default [] kw) = true ->
  Forall (fun values => values <> []) bag ->
  Forall (Forall (fun l => exists d, heap w !! l = Some d /\ py_id d = None)) bag ->
  NoDup (map doc_id (collection_of w database collection)) ->
  exists w1 new,
    to_mongo bag database collection kw true w = (Ok None, w1)
    /\ collection_of w1 database collection = collection_of w database collection ++ new
    /\ map doc_body new ≡ₚ map py_fields (omap (fun l => heap w !! l) (concat bag))
    /\ NoDup (map doc_id (collection_of w1 database collection)).
Proof.
  intros Hv Hne Hvals Hnd.
  destruct (to_mongo_appends bag kw database collection w Hv Hne Hvals Hnd)
    as (w1 & new & Ew & Hc & Hb & _ & Hnd1).
  by exists w1, new.
Qed.

Lemma to_mongo_writes_every_partition_witness :
  exists w1 new,
    to_mongo [[0]; [1]] "db" "c" None true last_first_world = (Ok None, w1)
    /\ collection_of w1 "db" "c" = collection_of last_first_world "db" "c" ++ new
    /\ map doc_body new
       ≡ₚ map py_fields (omap (fun l => heap last_first_world !! l) (concat [[0]; [1]]))
    /\ NoDup (map doc_id (collection_of w1 "db" "c")).
Proof.
  apply (to_mongo_writes_every_partition [[0]; [1]] None "db" "c" last_first_world).
  - reflexivity.
  - repeat constructor; discriminate.
  - repeat (apply Forall_cons; split); try (apply Forall_nil; exact I);
      (eexists; split; reflexivity).
  - apply (bool_decide_unpack (NoDup [5; 3; 9; 1; 7]%Z)). vm_compute. exact I.
Defined.

(** *** The call the driver receives *)

Lemma assign_ids_calls (documents : list loc) (used : list ObjectId) (w : world) :
  insert_many_calls (snd (assign_ids used documents w)) = insert_many_calls w.
Proof.
  revert used w. induction documents as [|l documents IH]; intros used w; [done|].
  simpl. rewrite bind_run. unfold gets at 1.
  destruct (heap w !! l) as [d|]; [|done].
  destruct (py_id d) as [i|].
  - rewrite bind_run. specialize (IH used w).
    destruct (assign_ids used documents w) as [[rest|e] w1]; simpl in *; exact IH.
  - rewrite bind_run. unfold modify at 1.
    set (w1 := set_heap _ w). rewrite bind_run.
    specialize (IH (fresh_ObjectId used :: used) w1).
    destruct (assign_ids _ documents w1) as [[rest|e] w2]; simpl in *; exact IH.
Qed.

Lemma bulk_insert_calls (database collection : string) (ops : list stored_doc) (w : world) :
  insert_many_calls (snd (bulk_insert database collection ops w)) = insert_many_calls w.
Proof.
  revert w. induction ops as [|d ops IH]; intros w; [done|].
  simpl. rewrite bind_run, coll_documents_run.
  destruct (existsb _ _); [done|].
  rewrite bind_run. unfold modify at 1. rewrite IH. reflexivity.
Qed.

Lemma insert_many_logs (database collection : string) (documents : list loc) (w : world) :
  insert_many_calls (snd (insert_many database collection documents w))
  = insert_many_calls w
    ++ [(database, collection, omap (fun l => heap w !! l) documents)].
Proof.
  destruct documents as [|l documents]; [reflexivity|].
  rewrite insert_many_nonempty by done.
  set (w1 := set_insert_many_calls _ w).
  pose proof (assign_ids_calls (l :: documents)
                (map doc_id (collection_of w database collection)
                 ++ explicit_ids (heap w) (l :: documents)) w1) as Ha.
  destruct (assign_ids _ (l :: documents) w1) as [[ops|e] w2]; simpl snd in Ha.
  - rewrite bulk_insert_calls, Ha. reflexivity.
  - simpl snd. rewrite Ha. reflexivity.
Qed.

(** [write_mongo] calls [insert_many] exactly once, whether the write then
    succeeds or not, and what it passes are copies that hold what the
    caller's documents hold at the time of the call. *)
Theorem write_mongo_calls_insert_many_once (values : list loc) (ds : list pydoc_obj)
    (kw : kwargs) (database collection : string) (w : world) :
  valid_config kw = true ->
  Forall2 (fun l d => heap w !! l = Some d) values ds ->
  insert_many_calls (snd (write_mongo values kw database collection w))
  = insert_many_calls w ++ [(database, collection, ds)].
Proof.
  intros Hv Hvals.
  destruct (get_client_run kw w Hv) as (h & w0 & E & Hc & Hh & Hcalls).
  unfold write_mongo. rewrite bind_run, E, bind_run.
  rewrite (mapM_copy_run values ds w0) by (by rewrite Hh).
  rewrite insert_many_logs. simpl heap. simpl insert_many_calls.
  rewrite Hcalls, Hh. pose proof (Forall2_length _ _ _ Hvals) as Hlen. rewrite Hlen.
  by rewrite (omap_lookup _ _ ds (copies_lookup ds (heap w))).
Qed.

Lemma write_mongo_calls_insert_many_once_witness :
  insert_many_calls (snd (write_mongo [0; 2] [] "db" "c" three_values_world))
  = insert_many_calls three_values_world
    ++ [("db", "c", [PyDoc None [("a", PInt 1)]; PyDoc (Some 5%Z) [("a", PInt 3)]])].
Proof.
  apply (write_mongo_calls_insert_many_once [0; 2]
           [PyDoc None [("a", PInt 1)]; PyDoc (Some 5%Z) [("a", PInt 3)]] [] "db" "c"
           three_values_world).
  - reflexivity.
  - repeat constructor.
Defined.

(** *** A duplicate identifier stops the write half way *)

Lemma assign_ids_copies (ds pre : list pydoc_obj) (used : list ObjectId) (w : world) :
  heap w = pre ++ ds ->
  exists w',
    assign_ids used (seq (length pre) (length ds)) w = (Ok (assigned_docs used ds), w')
    /\ colls w' = colls w.
Proof.
  revert pre used w. induction ds as [|d ds IH]; intros pre used w Hh.
  - exists w. done.
  - simpl. rewrite bind_run. unfold gets at 1.
    destruct (heap w !! length pre) as [d1|] eqn:El;
      rewrite Hh, list_lookup_middle in El by done; [|done].
    injection El as El. subst d1.
    destruct (py_id d) as [i|] eqn:Ei.
    + destruct (IH (pre ++ [d]) used w) as (w' & E & Hc).
      { by rewrite Hh, <- app_assoc. }
      rewrite length_app in E. simpl in E.
      replace (length pre + 1) with (S (length pre)) in E by lia.
      rewrite bind_run, E. exists w'. done.
    + rewrite bind_run. unfold modify at 1.
      set (w1 := set_heap _ w).
      destruct (IH (pre ++ [PyDoc (Some (fresh_ObjectId used)) (py_fields d)])
                  (fresh_ObjectId used :: used) w1) as (w' & E & Hc).
      { subst w1. simpl. rewrite Hh.
        rewrite insert_app_r_alt by lia. rewrite Nat.sub_diag. simpl.
        by rewrite <- app_assoc. }
      rewrite length_app in E. simpl in E.
      replace (length pre + 1) with (S (length pre)) in E by lia.
      rewrite bind_run, E. exists w'. split; [done|]. by rewrite Hc.
Qed.

Lemma assigned_docs_prefix (ds1 rest : list pydoc_obj) (used : list ObjectId) :
  Forall (fun d => py_id d = None) ds1 ->
  exists used',
    assigned_docs used (ds1 ++ rest) = fresh_docs used ds1 ++ assigned_docs used' rest.
Proof.
  revert used. induction ds1 as [|d ds1 IH]; intros used Hnone; [by exists used|].
  apply Forall_cons in Hnone as [Hd Hnone].
  simpl. rewrite Hd.
  destruct (IH (fresh_ObjectId used :: used) Hnone) as (used' & E).
  exists used'. by rewrite E.
Qed.

Lemma bulk_insert_app (database collection : string) (ops1 ops2 : list stored_doc)
    (w : world) :
  bulk_insert database collection (ops1 ++ ops2) w
  = match bulk_insert database collection ops1 w with
    | (Ok _, w') => bulk_insert database collection ops2 w'
    | (Raise e, w') => (Raise e, w')
    end.
Proof.
  revert w. induction ops1 as [|d ops1 IH]; intros w; [done|].
  simpl. rewrite !bind_run, coll_documents_run.
  destruct (existsb _ _); [done|].
  rewrite !bind_run, !modify_run. apply IH.
Qed.

(** The write is not all or nothing.  When a value carries an [_id] that
    the collection already holds, [write_mongo] raises [BulkWriteError];
    the values before it, here all without [_id], have been stored by then
    and stay stored, and no value after it is. *)
Theorem write_mongo_duplicate_id_stops_the_write
    (values : list loc) (ds1 ds2 : list pydoc_obj) (d : pydoc_obj) (i : ObjectId)
    (kw : kwargs) (database collection : string) (w : world) :
  valid_config kw = true ->
  Forall2 (fun l x => heap w !! l = Some x) values (ds1 ++ d :: ds2) ->
  Forall (fun x => py_id x = None) ds1 ->
  py_id d = Some i ->
  i ∈ map doc_id (collection_of w database collection) ->
  exists w1 new,
    write_mongo values kw database collection w = (Raise BulkWriteError, w1)
    /\ collection_of w1 database collection = collection_of w database collection ++ new
    /\ map doc_body new = map py_fields ds1.
Proof.
  intros Hv Hvals Hnone Hd Hi.
  destruct (get_client_run kw w Hv) as (h & w0 & E & Hc & Hh & _).
  unfold write_mongo. rewrite bind_run, E, bind_run.
  rewrite (mapM_copy_run values (ds1 ++ d :: ds2) w0) by (by rewrite Hh).
  rewrite Hh. pose proof (Forall2_length _ _ _ Hvals) as Hlen. rewrite Hlen.
  set (ds := ds1 ++ d :: ds2) in *.
  set (w2 := set_heap (fun h => h ++ ds) w0).
  set (locs := seq (length (heap w)) (length ds)).
  rewrite insert_many_nonempty.
  2:{ subst locs ds. rewrite length_app. simpl.
      replace (length ds1 + S (length ds2)) with (S (length ds1 + length ds2)) by lia.
      done. }
  set (w3 := set_insert_many_calls _ w2).
  assert (Hc3 : collection_of w3 database collection = collection_of w database collection).
  { apply collection_of_colls. subst w3 w2. simpl. done. }
  rewrite (collection_of_colls w w2 database collection) by (subst w2; simpl; done).
  set (used := map doc_id (collection_of w database collection) ++ explicit_ids (heap w2) locs).
  destruct (assign_ids_copies ds (heap w) used w3) as (w4 & Ea & Hc4).
  { subst w3 w2. simpl. by rewrite Hh. }
  fold locs in Ea. rewrite Ea.
  destruct (assigned_docs_prefix ds1 (d :: ds2) used Hnone) as (used' & Eops).
  fold ds in Eops. rewrite Eops. simpl assigned_docs. rewrite Hd.
  rewrite bulk_insert_app.
  destruct (fresh_docs_ids ds1 used) as [Habove Hsorted].
  destruct (bulk_insert_run database collection (fresh_docs used ds1) w4) as (w5 & Eb & Hc5).
  - by apply strictly_sorted_NoDup.
  - rewrite (collection_of_colls w3 w4 _ _ Hc4), Hc3.
    eapply Forall_impl; [exact Habove|]. intros x Hx Hin.
    assert (Hin' : doc_id x ∈ used) by (unfold used; apply elem_of_app; by left).
    apply le_max_list in Hin'. cbv beta in Hx. lia.
  - rewrite Eb. exists w5, (fresh_docs used ds1).
    rewrite Hc5, (collection_of_colls w3 w4 _ _ Hc4), Hc3.
    split; [|split; [done|apply fresh_docs_bodies]].
    simpl. rewrite bind_run, coll_documents_run.
    rewrite Hc5, (collection_of_colls w3 w4 _ _ Hc4), Hc3.
    assert (existsb (fun x => (doc_id x =? i)%Z)
              (collection_of w database collection ++ fresh_docs used ds1) = true) as ->;
      [|done].
    apply existsb_exists.
    apply list_elem_of_In, in_map_iff in Hi as (y & Hy & Hin).
    exists y. split; [apply in_app_iff; by left|]. by apply Z.eqb_eq.
Qed.

Lemma write_mongo_duplicate_id_witness :
  exists w1 new,
    write_mongo [0; 1; 2] [] "db" "c" three_values_world = (Raise BulkWriteError, w1)
    /\ collection_of w1 "db" "c" = collection_of three_values_world "db" "c" ++ new
    /\ map doc_body new
       = map py_fields [PyDoc None [("a", PInt 1)]; PyDoc None [("a", PInt 2)]].
Proof.
  apply (write_mongo_duplicate_id_stops_the_write [0; 1; 2]
           [PyDoc None [("a", PInt 1)]; PyDoc None [("a", PInt 2)]] []
           (PyDoc (Some 5%Z) [("a", PInt 3)]) 5%Z [] "db" "c" three_values_world).
  - reflexivity.
  - repeat constructor.
  - repeat constructor.
  - reflexivity.
  - apply (bool_decide_unpack (5%Z ∈ [5; 3; 9; 1; 7]%Z)). vm_compute. exact I.
Defined.

(** ** Properties kept along any sequence of calls *)

Lemma mapM_keeps {A B : Type} (f : A -> M B) (P : world -> Prop) (l : list A) (w : world) :
  (forall x w0, P w0 -> P (snd (f x w0))) -> P w -> P (snd (mapM f l w)).
Proof.
  intros Hf. revert w. induction l as [|x l IH]; intros w Hw; [done|].
  rewrite mapM_cons_run.
  specialize (Hf x w Hw).
  destruct (f x w) as [[y|e] w1]; simpl in Hf; [|done].
  specialize (IH w1 Hf).
  destruct (mapM f l w1) as [[ys|e] w2]; simpl in *; done.
Qed.

(** The exit hooks close nothing, whatever was asked of the cache: after
    any sequence of [_get_client] calls, also failing ones and ones that
    evict, running the [atexit] registry leaves every client with [close]
    never called. *)
Theorem no_client_is_ever_closed (kws : list kwargs) (w : world) :
  Forall weak_hook (exit_hooks w) ->
  Forall (fun c => close_calls c = 0) (clients w) ->
  fst (run_exitfuncs (snd (get_clients kws w))) = Ok tt
  /\ Forall (fun c => close_calls c = 0)
       (clients (snd (run_exitfuncs (snd (get_clients kws w))))).
Proof.
  intros Hweak Hopen.
  assert (H : Forall weak_hook (exit_hooks (snd (get_clients kws w)))
              /\ Forall (fun c => close_calls c = 0) (clients (snd (get_clients kws w)))).
  { apply (mapM_keeps _get_client
             (fun w0 => Forall weak_hook (exit_hooks w0)
                        /\ Forall (fun c => close_calls c = 0) (clients w0)));
      [|done].
    intros kw w0 [Hw Ho]. split; [by apply get_client_registers_weak_hooks|].
    apply (proj2 (Forall_fmap close_calls (fun n => n = 0) _)) in Ho.
    apply (proj1 (Forall_fmap close_calls (fun n => n = 0) _)).
    change (close_calls <$> ?l) with (map close_calls l) in *.
    rewrite get_client_closes_nothing. apply Forall_app. split; [done|].
    destruct (decide _); repeat constructor. }
  destruct H as [Hw Ho].
  pose proof (run_exitfuncs_closes_nothing _ Hw) as Hs.
  split; [|by rewrite Hs].
  unfold run_exitfuncs. rewrite bind_run. unfold gets at 1. rewrite bind_run.
  assert (Hok : forall hs w0, Forall weak_hook hs -> exists rs, fst (mapM call hs w0) = Ok rs).
  { clear. induction hs as [|f hs IH]; intros w0 Hf; [by exists []|].
    apply Forall_cons in Hf as [[g ->] Hf].
    rewrite mapM_cons_run.
    change (call (WeakMethod g) w0)
      with (Ok (if existsb (Nat.eqb (referent_handle g)) (map snd (lru w0))
                then Some g else None), w0).
    cbv beta iota. destruct (IH w0 Hf) as (rs & E).
    destruct (mapM call hs w0) as [[rs'|e] w1]; simpl in E; [|done].
    by eexists. }
  destruct (Hok (rev (exit_hooks (snd (get_clients kws w)))) (snd (get_clients kws w)))
    as (rs & E); [by apply Forall_rev|].
  destruct (mapM call _ _) as [[rs'|e] w1]; simpl in E; [done|done].
Qed.

Lemma no_client_is_ever_closed_witness :
  fst (run_exitfuncs (snd (get_clients seventeen_configs empty_world))) = Ok tt
  /\ Forall (fun c => close_calls c = 0)
       (clients (snd (run_exitfuncs (snd (get_clients seventeen_configs empty_world))))).
Proof.
  apply (no_client_is_ever_closed seventeen_configs empty_world).
  - simpl. constructor.
  - simpl. constructor.
Defined.

(** ** [appname] belongs to the module *)

Lemma Forall_removelast {A : Type} (P : A -> Prop) (l : list A) :
  Forall P l -> Forall P (removelast l).
Proof.
  induction 1 as [|x l Hx Hl IH]; [constructor|].
  simpl. destruct l; [constructor|]. constructor; done.
Qed.

Lemma get_client_cache_keeps (P : cache_key * nat -> Prop) (kw : kwargs) (w : world) :
  (existsb (String.eqb "appname") (map fst kw) = false ->
   forall h : nat, P (make_key kw, h)) ->
  Forall P (lru w) -> Forall P (lru (snd (_get_client kw w))).
Proof.
  intros Hnew Hall. rewrite get_client_unfold.
  destruct (FrozenKwargs_hash kw); [|done].
  destruct (lru_take (make_key kw) (lru w)) as [[e rest]|] eqn:Et.
  - apply lru_take_split in Et as (l1 & l2 & E & ->). simpl.
    rewrite E in Hall. apply Forall_app in Hall as [H1 H2].
    apply Forall_cons in H2 as [He H2].
    constructor; [done|]. apply Forall_app. done.
  - destruct (existsb _ _) eqn:Ea; [done|]. cbn -[Nat.leb removelast _CACHE_SIZE].
    constructor; [exact (Hnew eq_refl (length (clients w)))|].
    destruct (Nat.leb _ _); [by apply Forall_removelast|done].
Qed.

Lemma key_matches_appname (stored probe : cache_key) :
  key_matches stored probe = true ->
  existsb (String.eqb "appname") (map fst (fst probe)) = true ->
  existsb (String.eqb "appname") (map fst (fst stored)) = true.
Proof.
  unfold key_matches, FrozenKwargs_hash.
  destruct (forallb hashable _); [|done].
  destruct (forallb hashable _); [|done].
  intros Hm Hp.
  apply andb_true_iff in Hm as [Hm _]. apply andb_true_iff in Hm as [Hm _].
  unfold frozenset_eqb in Hm. apply andb_true_iff in Hm as [_ Hm].
  rewrite forallb_forall in Hm.
  apply existsb_exists in Hp as (k & Hk & Ek). apply String.eqb_eq in Ek. subst k.
  apply in_map_iff in Hk as ([k v] & Ek & Hkv). simpl in Ek. subst k.
  specialize (Hm _ (in_map _ _ _ Hkv)). simpl in Hm.
  apply existsb_exists in Hm as (x & Hx & Ex).
  apply in_map_iff in Hx as ([k' v'] & <- & Hkv'). simpl in Ex.
  destruct k' as [|a k']; [done|].
  apply andb_true_iff in Ex as [Ek _].
  apply existsb_exists. exists (String a k'). split; [by apply (in_map fst) in Hkv'|].
  done.
Qed.

(** The module opens every client with its own [appname].  A configuration
    that binds [appname] as well is never served: whatever was asked of the
    cache before, the call raises [TypeError] and changes nothing, so no
    client is opened and nothing is cached for it. *)
Theorem appname_is_always_rejected (kws : list kwargs) (kw : kwargs) (w : world) :
  Forall (fun e => existsb (String.eqb "appname") (map fst (fst (fst e))) = false) (lru w) ->
  existsb (String.eqb "appname") (map fst kw) = true ->
  _get_client kw (snd (get_clients kws w)) = (Raise TypeError, snd (get_clients kws w)).
Proof.
  intros Hclean Happ.
  assert (H : Forall (fun e => existsb (String.eqb "appname") (map fst (fst (fst e))) = false)
                (lru (snd (get_clients kws w)))).
  { apply (mapM_keeps _get_client
             (fun w0 => Forall (fun e => existsb (String.eqb "appname")
                                           (map fst (fst (fst e))) = false) (lru w0)));
      [|done].
    intros kw0 w0 H0. apply get_client_cache_keeps; [|done]. intros Hk h. done. }
  set (w1 := snd (get_clients kws w)) in *.
  rewrite get_client_unfold.
  unfold FrozenKwargs_hash. destruct (forallb hashable _); [|done].
  destruct (lru_take (make_key kw) (lru w1)) as [[e rest]|] eqn:Et.
  - pose proof (lru_take_matches _ _ _ _ Et) as Hm.
    apply (key_matches_appname (fst e) (make_key kw)) in Hm; [|done].
    apply lru_take_split in Et as (l1 & l2 & E & _).
    rewrite E in H. apply Forall_app in H as [_ H].
    apply Forall_cons in H as [He _]. destruct (eq_true_false_abs _ Hm He).
  - by rewrite Happ.
Qed.

Lemma appname_is_always_rejected_witness :
  _get_client [("appname", PStr "mine")] (snd (get_clients [[]; port_int] empty_world))
  = (Raise TypeError, snd (get_clients [[]; port_int] empty_world)).
Proof.
  apply (appname_is_always_rejected [[]; port_int] [("appname", PStr "mine")] empty_world).
  - simpl. constructor.
  - reflexivity.
Defined.

(** ** Witnesses of the general statements above *)

Lemma read_mongo_no_match_exact_count_witness :
  fst (read_mongo "db" "c" 2 None (Some match_none) false true five_documents_world)
  = Raise StopIteration.
Proof.
  apply (read_mongo_no_match_exact_count "db" "c" 2 None (Some match_none) true
           five_documents_world).
  - reflexivity.
  - reflexivity.
Defined.

Lemma write_mongo_empty_any_world_witness :
  exists w',
    write_mongo [] port_int "db" "c" five_documents_world = (Raise TypeError, w')
    /\ insert_many_calls w'
       = insert_many_calls five_documents_world ++ [("db", "c", [])].
Proof.
  apply (write_mongo_empty_any_world port_int "db" "c" five_documents_world).
  reflexivity.
Defined.

Lemma roundtrip_of_documents_witness :
  exists w1 b w2 fetched w3,
    to_mongo [[0]; [1]] "db" "other" (Some port_int) true three_values_world = (Ok None, w1)
    /\ read_mongo "db" "other" 2 (Some port_int) None false true w1 = (Ok b, w2)
    /\ compute_bag b w2 = (Ok fetched, w3)
    /\ map doc_body fetched
       ≡ₚ map py_fields (concat [[PyDoc None [("a", PInt 1)]]; [PyDoc None [("a", PInt 2)]]]).
Proof.
  apply (roundtrip_of_documents [[0]; [1]]
           [[PyDoc None [("a", PInt 1)]]; [PyDoc None [("a", PInt 2)]]]
           port_int "db" "other" 2 false true three_values_world).
  - reflexivity.
  - discriminate.
  - repeat constructor; discriminate.
  - repeat constructor.
  - repeat constructor.
  - reflexivity.
  - lia.
Defined.

(** ** Edges of the write fan-out and of the planner *)

Lemma mapM_app_run {A B : Type} (f : A -> M B) (l1 l2 : list A) (w : world) :
  mapM f (l1 ++ l2) w =
  match mapM f l1 w with
  | (Ok ys, w1) =>
      match mapM f l2 w1 with
      | (Ok zs, w2) => (Ok (ys ++ zs), w2)
      | (Raise e, w2) => (Raise e, w2)
      end
  | (Raise e, w1) => (Raise e, w1)
  end.
Proof.
  revert w. induction l1 as [|x l1 IH]; intros w.
  - simpl app. change (mapM f [] w) with (Ok (@nil B), w). cbv beta iota.
    by destruct (mapM f l2 w) as [[zs|e] w2].
  - simpl app. rewrite !mapM_cons_run.
    destruct (f x w) as [[y|e] w1]; [|done].
    rewrite IH.
    destruct (mapM f l1 w1) as [[ys|e] w2]; [|done].
    by destruct (mapM f l2 w2) as [[zs|e] w3].
Qed.

Lemma first_empty {A : Type} (bag : list (list A)) :
  [] ∈ bag ->
  exists l1 l2, bag = l1 ++ [] :: l2 /\ Forall (fun values => values <> []) l1.
Proof.
  induction bag as [|values bag IH]; intros Hin; [by apply elem_of_nil in Hin|].
  destruct values as [|v values].
  - exists [], bag. split; [done|constructor].
  - apply elem_of_cons in Hin as [Hin|Hin]; [done|].
    destruct (IH Hin) as (l1 & l2 & -> & Hl1).
    exists ((v :: values) :: l1), l2. split; [done|]. by constructor.
Qed.

(** One empty partition makes the whole write fail.  When every other
    partition holds documents without [_id], [to_mongo] raises the
    [TypeError] of [insert_many([])], in whatever order the scheduler takes
    the partitions. *)
Theorem to_mongo_empty_partition_raises (bag : list (list loc)) (kw : option kwargs)
    (database collection : string) (w : world) :
  valid_config (default [] kw) = true ->
  [] ∈ bag ->
  Forall (Forall (fun l => exists d, heap w !! l = Some d /\ py_id d = None)) bag ->
  NoDup (map doc_id (collection_of w database collection)) ->
  fst (to_mongo bag database collection kw true w) = Raise TypeError.
Proof.
  intros Hv Hin Hvals Hnd.
  pose proof (scheduled_Permutation (scheduler w) (length bag) 0 bag eq_refl) as Hperm.
  set (order := scheduled (scheduler w) 0 (length bag) bag) in *.
  rewrite <- Hperm in Hin, Hvals.
  destruct (first_empty order Hin) as (l1 & l2 & Eo & Hne).
  rewrite Eo in Hvals. apply Forall_app in Hvals as [Hvals1 _].
  destruct (write_all_appends l1 (default [] kw) database collection w Hv Hne Hvals1 Hnd)
    as (rs & w1 & new & Em & _).
  rewrite to_mongo_run. fold order. rewrite Eo, map_app, mapM_app_run, Em.
  rewrite map_cons, mapM_cons_run.
  unfold run_write_task at 1. simpl wt_values. simpl wt_kwargs. simpl wt_database.
  simpl wt_collection.
  destruct (get_client_run (default [] kw) w1 Hv) as (h & w2 & E & _).
  unfold write_mongo. rewrite bind_run, E. reflexivity.
Qed.

Lemma to_mongo_empty_partition_raises_witness :
  fst (to_mongo [[0]; []; [1]] "db" "c" None true last_first_world) = Raise TypeError.
Proof.
  apply (to_mongo_empty_partition_raises [[0]; []; [1]] None "db" "c" last_first_world).
  - reflexivity.
  - apply (bool_decide_unpack ([] ∈ [[0]; []; [1]])). vm_compute. exact I.
  - repeat (apply Forall_cons; split); try (apply Forall_nil; exact I);
      (eexists; split; reflexivity).
  - apply (bool_decide_unpack (NoDup [5; 3; 9; 1; 7]%Z)). vm_compute. exact I.
Defined.

(** With [use_estimated_count] the row count is the size of the
    collection, not the number of matches.  When the collection has
    documents and the filter matches none, the planner gets past the count.
    The paginated scan then finds nothing to loop over: when the lowest
    [_id] of the collection is truthy it reads the loop variable of a loop
    that never ran and raises [UnboundLocalError], when it is falsy it
    skips that and returns a collection without partitions.  The bucket
    strategy returns a collection without partitions. *)
Theorem estimated_count_with_nothing_matched
    (database collection : string) (chunksize : Z) (kw : option kwargs)
    (m : option query) (w : world) :
  valid_config (default [] kw) = true ->
  collection_of w database collection <> [] ->
  List.filter (default match_all m) (collection_of w database collection) = [] ->
  (chunksize <> 0%Z ->
   fst (read_mongo database collection chunksize kw m true true w)
   = if truthy (lowest_id (collection_of w database collection))
     then Raise UnboundLocalError else Ok (MkBag [] 0))
  /\ ((0 < chunksize)%Z ->
      fst (read_mongo database collection chunksize kw m true false w) = Ok (MkBag [] 0)).
Proof.
  intros Hv Hdocs Hnone. split.
  - intros Hc.
    destruct (get_client_run (default [] kw) w Hv) as (h & w1 & E & Hcolls & _).
    unfold read_mongo. rewrite bind_run, E, bind_run, estimated_document_count_run.
    rewrite bind_run.
    assert ((chunksize =? 0)%Z = false) as -> by lia.
    rewrite ret_run, bind_run, bind_run, find_sorted_run.
    rewrite (collection_of_colls w w1 _ _ Hcolls), Hnone.
    rewrite bind_run, find_one_sorted_run, (collection_of_colls w w1 _ _ Hcolls).
    unfold lowest_id.
    destruct (merge_sort id_le (collection_of w database collection)) as [|dmin rest] eqn:Em.
    { exfalso. apply Hdocs. apply Permutation_nil_r. rewrite <- Em.
      symmetry. apply merge_sort_Permutation. }
    change (head (dmin :: rest)) with (Some dmin).
    rewrite bind_run, ret_run.
    change (merge_sort id_le []) with (@nil stored_doc).
    cbn [paginate_loop head_id]. cbv beta iota.
    destruct (truthy (doc_id dmin)); reflexivity.
  - intros Hc.
    rewrite (read_mongo_buckets_run database collection chunksize kw m true w
               (Z.of_nat (length (collection_of w database collection))) Hv)
      by (done || lia).
    assert (0 < ceil_div (Z.of_nat (length (collection_of w database collection))) chunksize)%Z
      as Hk.
    { apply ceil_div_pos; [|done].
      destruct (collection_of w database collection); [done|simpl; lia]. }
    assert ((ceil_div (Z.of_nat (length (collection_of w database collection))) chunksize
             <=? 0)%Z = false) as -> by lia.
    rewrite Hnone.
    destruct (Z.to_nat _) as [|b] eqn:Eb; [lia|]. reflexivity.
Qed.

Lemma estimated_count_with_nothing_matched_witness :
  (2%Z <> 0%Z ->
   fst (read_mongo "db" "c" 2 None (Some match_none) true true zero_one_world)
   = if truthy (lowest_id (collection_of zero_one_world "db" "c"))
     then Raise UnboundLocalError else Ok (MkBag [] 0))
  /\ ((0 < 2)%Z ->
      fst (read_mongo "db" "c" 2 None (Some match_none) true false zero_one_world)
      = Ok (MkBag [] 0)).
Proof.
  apply (estimated_count_with_nothing_matched "db" "c" 2 None (Some match_none)
           zero_one_world).
  - reflexivity.
  - discriminate.
  - reflexivity.
Defined.

Lemma group_fits (size room : nat) (cur l : list stored_doc) :
  length l <= room -> group size room cur l = [cur ++ l].
Proof.
  revert room cur. induction l as [|d l IH]; intros room cur Hl.
  - simpl. by rewrite app_nil_r.
  - simpl in Hl. destruct room as [|room]; [lia|].
    simpl. rewrite IH by lia. by rewrite <- app_assoc.
Qed.

(** A [chunksize] that is not below the row count leaves the matched
    documents in one group.  The bucket strategy plans one partition for
    it, a single task with its upper bound included; so does the paginated
    scan, unless the lowest [_id] of the collection is falsy: then it plans
    no partition at all. *)
Theorem large_chunksize_gives_one_partition
    (database collection : string) (chunksize : Z) (kw : option kwargs)
    (m : option query) (est pag : bool) (w : world) (nrows : Z) :
  valid_config (default [] kw) = true ->
  NoDup (map doc_id (collection_of w database collection)) ->
  List.filter (default match_all m) (collection_of w database collection) <> [] ->
  counted_rows est (default match_all m) (collection_of w database collection) = Ok nrows ->
  (nrows <= chunksize)%Z ->
  if pag && negb (truthy (lowest_id (collection_of w database collection)))
  then fst (read_mongo database collection chunksize kw m est pag w) = Ok (MkBag [] 0)
  else exists lo hi,
         fst (read_mongo database collection chunksize kw m est pag w)
         = Ok (MkBag [FetchTask (default [] kw) database collection (default match_all m)
                        lo hi true] 1).
Proof.
  intros Hv Hnd Hne Hn Hle.
  set (docs := collection_of w database collection) in *.
  set (mq := default match_all m) in *.
  assert (Hrows : (Z.of_nat (length (List.filter mq docs)) <= nrows)%Z
                  /\ (0 < nrows)%Z).
  { revert Hn. unfold counted_rows. destruct est.
    - intros [= <-]. pose proof (filter_length_le mq docs).
      destruct (List.filter mq docs); [done|]. simpl in *. lia.
    - destruct (List.filter mq docs); [done|]. intros [= <-]. simpl. lia. }
  destruct Hrows as [Hm Hpos].
  destruct pag.
  - destruct (read_mongo_plan_gen database collection chunksize kw m est true w Hv Hnd)
      as (w' & lo & chunks & Er & _ & _ & _ & _ & Hg); [lia|done|].
    destruct (Hg eq_refl) as (Elo & d0 & l & ES & ->).
    fold docs mq in ES, Er, Elo.
    assert (Hl : length l <= Z.to_nat chunksize - 1).
    { assert (length (merge_sort id_le (List.filter mq docs))
              = length (List.filter mq docs)) as Hp
        by (apply Permutation_length, merge_sort_Permutation).
      rewrite ES in Hp. simpl in Hp. lia. }
    rewrite group_fits in Er by done.
    rewrite Er. unfold lowest_id. rewrite <- Elo. unfold planned. simpl.
    destruct (truthy lo); simpl; eauto.
  - simpl andb. cbv iota.
    rewrite (read_mongo_buckets_run database collection chunksize kw m est w nrows Hv Hn)
      by lia.
    assert (Ek : ceil_div nrows chunksize = 1%Z).
    { apply (ceil_div_exact nrows chunksize 0 nrows); lia. }
    rewrite Ek. simpl Z.leb. cbv iota. change (Z.to_nat 1) with 1.
    fold docs mq.
    destruct (merge_sort id_le (List.filter mq docs)) as [|d0 l] eqn:ES.
    { exfalso. apply Hne. apply Permutation_nil_r. fold docs mq. rewrite <- ES.
      symmetry. apply merge_sort_Permutation. }
    simpl. eauto.
Qed.

Lemma large_chunksize_gives_one_partition_witness :
  if true && negb (truthy (lowest_id (collection_of zero_one_world "db" "c")))
  then fst (read_mongo "db" "c" 5 None None false true zero_one_world) = Ok (MkBag [] 0)
  else exists lo hi,
         fst (read_mongo "db" "c" 5 None None false true zero_one_world)
         = Ok (MkBag [FetchTask (default [] None) "db" "c" (default match_all None)
                        lo hi true] 1).
Proof.
  apply (large_chunksize_gives_one_partition "db" "c" 5 None None false true
           zero_one_world 2).
  - reflexivity.
  - apply (bool_decide_unpack (NoDup [0; 1]%Z)). vm_compute. exact I.
  - discriminate.
  - reflexivity.
  - lia.
Defined.

Lemma get_client_opens_at_most_one_witness :
  exists new,
    clients (snd (_get_client port_int empty_world)) = clients empty_world ++ new
    /\ length new <= 1
    /\ length (exit_hooks (snd (_get_client port_int empty_world)))
       = length (exit_hooks empty_world) + length new
    /\ (new <> [] -> fst (_get_client port_int empty_world) = Ok (length (clients empty_world))).
Proof. apply (get_client_opens_at_most_one port_int empty_world). Defined.
